(** * ClipFlow AI: marker detection, segment slicing and edit-decision export

    A shallow embedding of [app/core/slicer.py], [app/core/marker.py] and
    [app/core/exporter.py], with the records of [app/models/schemas.py].

    Conventions of the embedding:
    - a Python [float] holding seconds is an exact rational ([Q]); equality of
      times is [Qeq] ([==]). The arithmetic is read as exact; [FloatSlicer]
      has the interval slicer with the rounding of every sum and difference
      as a parameter, the identity or [binary64], and the properties that
      need a product to be a finite float say so ([FloatRange]);
    - a Python [str] is a Rocq [string], one [ascii] per character: the
      characters are the code points below 256, with their case conversion
      and white space;
    - a loop over a list is a [fold_left] of its body over the list, the
      variables the body assigns being the accumulator; a [while] loop is a
      recursion on an iteration bound;
    - a call that can raise returns a [result];
    - the segments of a list are values; [MergeInPlace] has the overlap
      merge on objects that are updated in place and may be shared;
    - [difflib.SequenceMatcher(None, a, b).ratio()] and the [uuid4] draws of
      [Segment.id] are outside the repository: they are section variables. *)

From Stdlib Require Import QArith Qround Qminmax ZArith List String Ascii Bool.
From Stdlib Require Import NArith DecimalString Lia Lqa Sorted Permutation PeanoNat.
Import ListNotations.

Open Scope Q_scope.

(** ** Numbers *)

Module PyNum.

(** [a < b] on floats, as a boolean. *)
Definition Qlt_bool (a b : Q) : bool := negb (Qle_bool b a).

(** [max(a, b)]: the first argument unless the second is larger. *)
Definition max (a b : Q) : Q := if Qlt_bool a b then b else a.

(** [min(a, b)]: the first argument unless the second is smaller. *)
Definition min (a b : Q) : Q := if Qlt_bool b a then b else a.

(** [abs(a)]. *)
Definition abs (a : Q) : Q := if Qlt_bool a 0 then - a else a.

(** [round(x)]: nearest integer, ties to the even one. *)
Definition round (x : Q) : Z :=
  let f := Qfloor x in
  let r := x - inject_Z f in
  if Qlt_bool r (1 # 2) then f
  else if Qlt_bool (1 # 2) r then (f + 1)%Z
  else if Z.even f then f else (f + 1)%Z.

(** [round(x, 3)]: nearest multiple of 0.001, ties to even. *)
Definition round3 (x : Q) : Q := inject_Z (round (x * 1000)) / 1000.

(** [int(x)]: truncation towards zero. *)
Definition int (x : Q) : Z := if Qlt_bool x 0 then Qceiling x else Qfloor x.

(** [x % 1]: the fractional part, in [0, 1). *)
Definition mod1 (x : Q) : Q := x - inject_Z (Qfloor x).

End PyNum.

(** ** Data model ([app/models/schemas.py]) *)

Inductive MarkerType : Type := NG | OK | START | END.

Definition MarkerType_eqb (a b : MarkerType) : bool :=
  match a, b with
  | NG, NG | OK, OK | START, START | END, END => true
  | _, _ => false
  end.

Record TranscriptWord : Type := mkTranscriptWord {
  tw_word : string;
  tw_start : Q;
  tw_end : Q;
  tw_confidence : Q
}.

Record TranscriptSegment : Type := mkTranscriptSegment {
  ts_text : string;
  ts_start : Q;
  ts_end : Q;
  ts_words : list TranscriptWord
}.

Record Marker : Type := mkMarker {
  marker_type : MarkerType;
  marker_word : string;
  marker_start : Q;
  marker_end : Q;
  marker_confidence : Q
}.

Record Segment : Type := mkSegment {
  seg_id : string;
  seg_type : string;
  seg_start : Q;
  seg_end : Q;
  trigger_marker : option Marker;
  enabled : bool;
  manual_adjusted : bool
}.

(** [seg.end = e] on a segment object: every other field is kept. *)
Definition set_end (s : Segment) (e : Q) : Segment :=
  {| seg_id := seg_id s; seg_type := seg_type s; seg_start := seg_start s;
     seg_end := e; trigger_marker := trigger_marker s;
     enabled := enabled s; manual_adjusted := manual_adjusted s |}.

(** [l[-1]] when [l] is not empty. *)
Definition last_opt {A : Type} (l : list A) : option A :=
  List.last (map Some l) None.

(** [sorted(l, key=key)] and [l.sort(key=key)]: a stable sort, here by
    insertion from the right, an element going before its equals. *)
Section StableSort.
Context {A : Type} (key : A -> Q).

Fixpoint insert_by (x : A) (l : list A) : list A :=
  match l with
  | [] => [x]
  | y :: l' =>
      if Qle_bool (key x) (key y) then x :: l
      else y :: insert_by x l'
  end.

Definition sorted_by (l : list A) : list A := fold_right insert_by [] l.
End StableSort.

(** ** Segment slicing ([app/core/slicer.py]) *)

Module Slicer.

(** The body of [for seg in sorted_segs[1:]]. [merged] is never empty in
    the loop; [last = merged[-1]] is updated in place. *)
Definition merge_body (merged : list Segment) (seg : Segment) : list Segment :=
  match last_opt merged with
  | None => merged ++ [seg]
  | Some last =>
      if Qle_bool (seg_start seg) (seg_end last + (5 # 100))
      then removelast merged ++ [set_end last (PyNum.max (seg_end last) (seg_end seg))]
      else merged ++ [seg]
  end.

Definition _merge_overlapping (segments : list Segment) : list Segment :=
  match segments with
  | [] => segments
  | _ :: _ =>
      match sorted_by seg_start segments with
      | [] => []
      | s0 :: rest => fold_left merge_body rest [s0]
      end
  end.

Section Slicing.

(** [new_id n] is the id drawn from [uuid4] by the [n]-th [Segment(...)]
    construction of a call (counting from 0). Each construction is
    appended at once, so [n] is the length of [segments] at that point. *)
Variable new_id : nat -> string.

(** [Segment(start=.., end=.., type="keep", trigger_marker=..)]:
    [enabled] and [manual_adjusted] take their defaults. *)
Definition new_segment (n : nat) (start end_ : Q) (trigger : option Marker)
  : Segment :=
  {| seg_id := new_id n; seg_type := "keep"; seg_start := start;
     seg_end := end_; trigger_marker := trigger;
     enabled := true; manual_adjusted := false |}.

Definition is_type (t : MarkerType) (m : Marker) : bool :=
  MarkerType_eqb (marker_type m) t.

(** The bounds computed for one OK marker, before rounding. *)
Definition backtrack_bounds (ng_markers : list Marker)
    (total_duration pre_buffer post_buffer : Q)
    (segments : list Segment) (ok : Marker) : Q * Q :=
  let preceding_ngs :=
    filter (fun ng => PyNum.Qlt_bool (marker_end ng) (marker_start ok))
           ng_markers in
  let seg_start :=
    match last_opt preceding_ngs with
    | Some nearest_ng => PyNum.max 0 (marker_end nearest_ng + post_buffer)
    | None =>
        match last_opt segments with
        | Some prev => seg_end prev
        | None => 0
        end
    end in
  let seg_end := PyNum.min total_duration (marker_start ok - pre_buffer) in
  let seg_start := PyNum.max 0 (seg_start - pre_buffer) in
  let seg_end := PyNum.min total_duration (seg_end + post_buffer) in
  (seg_start, seg_end).

(** The body of [for ok in ok_markers]. *)
Definition backtrack_body (ng_markers : list Marker)
    (total_duration pre_buffer post_buffer : Q)
    (segments : list Segment) (ok : Marker) : list Segment :=
  let '(seg_start, seg_end) :=
    backtrack_bounds ng_markers total_duration pre_buffer post_buffer
                     segments ok in
  if PyNum.Qlt_bool (seg_start + (1 # 10)) seg_end
  then segments ++ [new_segment (List.length segments) (PyNum.round3 seg_start)
                                (PyNum.round3 seg_end) (Some ok)]
  else segments.

Definition slice_backtrack (markers : list Marker)
    (transcript : list TranscriptSegment)
    (total_duration pre_buffer post_buffer : Q) : list Segment :=
  let ok_markers := filter (is_type OK) markers in
  let ng_markers := filter (is_type NG) markers in
  match ok_markers with
  | [] =>
      if PyNum.Qlt_bool 0 total_duration
      then [new_segment 0 0 total_duration None]
      else []
  | _ :: _ =>
      _merge_overlapping
        (fold_left
           (backtrack_body ng_markers total_duration pre_buffer post_buffer)
           ok_markers [])
  end.

(** The bounds computed for one START marker, before rounding. *)
Definition interval_bounds (start_markers end_markers : list Marker)
    (total_duration pre_buffer post_buffer : Q) (start_m : Marker) : Q * Q :=
  let matching_ends :=
    filter (fun e => PyNum.Qlt_bool (marker_end start_m) (marker_start e))
           end_markers in
  match matching_ends with
  | end_m :: _ =>
      let seg_start :=
        PyNum.max 0 (marker_end start_m + post_buffer - pre_buffer) in
      let seg_end :=
        PyNum.min total_duration
                  (marker_start end_m - post_buffer + post_buffer) in
      (seg_start, seg_end)
  | [] =>
      let next_starts :=
        filter (fun s => PyNum.Qlt_bool (marker_end start_m) (marker_start s))
               start_markers in
      let seg_end :=
        match next_starts with
        | s :: _ => marker_start s
        | [] => total_duration
        end in
      let seg_start :=
        PyNum.max 0 (marker_end start_m + post_buffer - pre_buffer) in
      (seg_start, seg_end)
  end.

(** The body of [for start_m in start_markers]. *)
Definition interval_body (start_markers end_markers : list Marker)
    (total_duration pre_buffer post_buffer : Q)
    (segments : list Segment) (start_m : Marker) : list Segment :=
  let '(seg_start, seg_end) :=
    interval_bounds start_markers end_markers total_duration
                    pre_buffer post_buffer start_m in
  if PyNum.Qlt_bool (seg_start + (1 # 10)) seg_end
  then segments ++ [new_segment (List.length segments) (PyNum.round3 seg_start)
                                (PyNum.round3 seg_end) (Some start_m)]
  else segments.

Definition slice_interval (markers : list Marker)
    (transcript : list TranscriptSegment)
    (total_duration pre_buffer post_buffer : Q) : list Segment :=
  let start_markers := filter (is_type START) markers in
  let end_markers := filter (is_type END) markers in
  match start_markers with
  | [] => []
  | _ :: _ =>
      _merge_overlapping
        (fold_left
           (interval_body start_markers end_markers total_duration
                          pre_buffer post_buffer)
           start_markers [])
  end.

End Slicing.

End Slicer.

(** ** The overlap merge on object references

    [_merge_overlapping] assigns [last.end] in place, and a Python list may
    hold the same object several times. Here the list holds addresses and the
    objects live in a heap; [MergeInPlaceFacts.merge_in_place_values] shows that
    the segments read back from the returned list are those of
    [Slicer._merge_overlapping] on the values, whatever the sharing. *)

Module MergeInPlace.

Definition heap : Type := nat -> Segment.

(** [heap[a].end = e]. *)
Definition heap_set_end (h : heap) (a : nat) (e : Q) : heap :=
  fun b => if Nat.eqb b a then set_end (h a) e else h b.

Definition merge_body (st : heap * list nat) (seg : nat) : heap * list nat :=
  let '(h, merged) := st in
  match last_opt merged with
  | None => (h, merged ++ [seg])
  | Some last =>
      if Qle_bool (seg_start (h seg)) (seg_end (h last) + (5 # 100))
      then (heap_set_end h last (PyNum.max (seg_end (h last)) (seg_end (h seg))),
            merged)
      else (h, merged ++ [seg])
  end.

Definition _merge_overlapping (h : heap) (segments : list nat)
  : heap * list nat :=
  match segments with
  | [] => (h, segments)
  | _ :: _ =>
      match sorted_by (fun a => seg_start (h a)) segments with
      | [] => (h, [])
      | s0 :: rest => fold_left merge_body rest (h, [s0])
      end
  end.

(** The segments a list of addresses denotes. *)
Definition values (h : heap) (l : list nat) : list Segment := map h l.

(** What the loop maintains: [h0] is the heap at the call, [h] the heap now,
    [merged = pre ++ [last]] and [rest] is still to be scanned. *)
Record loop_invariant (h0 h : heap) (pre : list nat) (last : nat)
    (rest : list nat) : Prop := {
  inv_fields : forall a, h a = set_end (h0 a) (seg_end (h a));
  inv_grows : forall a, seg_end (h0 a) <= seg_end (h a);
  inv_untouched : forall a, In a rest -> a <> last -> h a = h0 a;
  inv_last : h last = h0 last
             \/ seg_start (h0 last) <= seg_end (h last) + (5 # 100);
  inv_closed : forall a r, In a pre -> In r rest ->
                           seg_end (h a) + (5 # 100) < seg_start (h0 r);
  inv_sorted : StronglySorted
                 (fun a b => seg_start (h0 a) <= seg_start (h0 b))
                 (last :: rest)
}.

End MergeInPlace.

(** ** Strings *)

Module PyStr.

Open Scope string_scope.

Definition in_range (lo hi n : nat) : bool :=
  (Nat.leb lo n && Nat.leb n hi)%bool.

(** [c.isspace()] for a character below 256. *)
Definition isspace (c : ascii) : bool :=
  let n := nat_of_ascii c in
  (in_range 9 13 n || in_range 28 32 n || Nat.eqb n 133 || Nat.eqb n 160)%bool.

(** [c.lower()] for a character below 256. *)
Definition lower_char (c : ascii) : ascii :=
  let n := nat_of_ascii c in
  if (in_range 65 90 n || in_range 192 214 n || in_range 216 222 n)%bool
  then ascii_of_nat (n + 32) else c.

(** [s.lower()]. *)
Fixpoint lower (s : string) : string :=
  match s with
  | "" => ""
  | String c s' => String (lower_char c) (lower s')
  end.

Fixpoint lstrip (s : string) : string :=
  match s with
  | "" => ""
  | String c s' => if isspace c then lstrip s' else s
  end.

Fixpoint rstrip (s : string) : string :=
  match s with
  | "" => ""
  | String c s' =>
      match rstrip s' with
      | "" => if isspace c then "" else String c ""
      | r => String c r
      end
  end.

(** [s.strip()]. *)
Definition strip (s : string) : string := rstrip (lstrip s).

(** [kw in s]. *)
Fixpoint contains (kw s : string) : bool :=
  (String.prefix kw s
   || match s with
      | "" => false
      | String _ s' => contains kw s'
      end)%bool.

(** [kw] matches at the head of [s], characters compared with [eqc]. *)
Fixpoint prefix_by (eqc : ascii -> ascii -> bool) (kw s : string) : bool :=
  match kw with
  | "" => true
  | String a kw' =>
      match s with
      | "" => false
      | String b s' => (eqc a b && prefix_by eqc kw' s')%bool
      end
  end.

(** Deleting the leftmost non-overlapping matches of a non-empty [kw],
    scanning left to right; [skip] characters of a match found earlier are
    still to be dropped. *)
Fixpoint delete_matches (eqc : ascii -> ascii -> bool) (kw : string)
    (skip : nat) (s : string) : string :=
  match s with
  | "" => ""
  | String c s' =>
      match skip with
      | S k => delete_matches eqc kw k s'
      | O =>
          if prefix_by eqc kw s
          then delete_matches eqc kw (String.length kw - 1) s'
          else String c (delete_matches eqc kw 0 s')
      end
  end.

(** [s.replace(kw, "")]; an empty [kw] leaves [s] as it is. *)
Definition replace_by_empty (kw s : string) : string :=
  match kw with
  | "" => s
  | _ => delete_matches Ascii.eqb kw 0 s
  end.

(** [re.sub(re.escape(kw), "", s, flags=re.IGNORECASE)]: a pattern
    character matches a text character with the same lower case. *)
Definition eqb_nocase (a b : ascii) : bool :=
  Ascii.eqb (lower_char a) (lower_char b).

Definition re_sub_nocase (kw s : string) : string :=
  match kw with
  | "" => s
  | _ => delete_matches eqb_nocase kw 0 s
  end.

(** [not s]. *)
Definition is_empty (s : string) : bool :=
  match s with "" => true | _ => false end.

(** The decimal digits of a natural number. *)
Definition digits (n : N) : string := NilEmpty.string_of_uint (N.to_uint n).

Fixpoint zeros (n : nat) : string :=
  match n with O => "" | S k => String "0" (zeros k) end.

(** [f"{z:0{width}d}"]: zero padding after the sign, up to [width]
    characters in all. *)
Definition format_0d (width : nat) (z : Z) : string :=
  let d := digits (Z.abs_N z) in
  if (z <? 0)%Z
  then String "-" (zeros (width - 1 - String.length d) ++ d)
  else zeros (width - String.length d) ++ d.

End PyStr.

(** ** Exceptions *)

(** A call either returns or raises. [OutOfFuel] is not a Python exception:
    it is what a [while] loop of the model answers when its iteration bound
    is used up. *)
Inductive exn : Type := IndexError | OutOfFuel.

Inductive result (A : Type) : Type :=
| Return (a : A)
| Raise (e : exn).
Arguments Return {A} a.
Arguments Raise {A} e.

Definition bind {A B : Type} (r : result A) (k : A -> result B) : result B :=
  match r with
  | Return a => k a
  | Raise e => Raise e
  end.

Notation "x <- r ;; k" := (bind r (fun x => k))
  (at level 61, r at next level, right associativity).
Notation "' p <- r ;; k" := (bind r (fun x => let 'p := x in k))
  (at level 61, p pattern, r at next level, right associativity).

(** [l[i]] for [i >= 0]. *)
Definition getitem {A : Type} (l : list A) (i : nat) : result A :=
  match nth_error l i with
  | Some a => Return a
  | None => Raise IndexError
  end.

(** ** Marker detection ([app/core/marker.py]) *)

Module Detector.

Definition FUZZY_THRESHOLD : Q := 75 # 100.

Section Detection.

(** [ratio a b] is [SequenceMatcher(None, a, b).ratio()]. *)
Variable ratio : string -> string -> Q.

Definition _fuzzy_match (text keyword : string) : Q :=
  let text := PyStr.lower (PyStr.strip text) in
  let keyword := PyStr.lower (PyStr.strip keyword) in
  if (String.eqb text keyword || PyStr.contains keyword text)%bool
  then 1
  else ratio text keyword.

(** ["".join(words[from + j].word for j in range(count))]. *)
Fixpoint join_words (words : list TranscriptWord) (from count : nat)
  : result string :=
  match count with
  | O => Return EmptyString
  | S k =>
      w <- getitem words from ;;
      rest <- join_words words (S from) k ;;
      Return (tw_word w ++ rest)%string
  end.

(** [for span in spans], leaving at the first window that matches. *)
Fixpoint span_loop (words : list TranscriptWord) (start_idx : nat)
    (keyword : string) (spans : list nat) : result (bool * nat * Q) :=
  match spans with
  | [] => Return (false, start_idx, 0)
  | span :: spans' =>
      combined <- join_words words start_idx span ;;
      let score := _fuzzy_match combined keyword in
      if Qle_bool FUZZY_THRESHOLD score
      then Return (true, (start_idx + span - 1)%nat, score)
      else span_loop words start_idx keyword spans'
  end.

(** [range(lo, hi)] for [lo >= 0]. *)
Definition range (lo hi : nat) : list nat := seq lo (hi - lo).

Definition _check_word_sequence (words : list TranscriptWord)
    (start_idx : nat) (keyword : string) : result (bool * nat * Q) :=
  if (String.length keyword <=? 3)%nat then
    w <- getitem words start_idx ;;
    let score := _fuzzy_match (tw_word w) keyword in
    Return (Qle_bool FUZZY_THRESHOLD score, start_idx, score)
  else
    span_loop words start_idx keyword
      (range 1 (Nat.min 6 (List.length words - start_idx + 1))).

(** The list of (keyword, type) pairs, in the order NG, OK, START, END. *)
Definition build_keyword_map (ng_keywords ok_keywords start_keywords
    end_keywords : list string) : list (string * MarkerType) :=
  map (fun kw => (kw, NG)) ng_keywords
  ++ map (fun kw => (kw, OK)) ok_keywords
  ++ map (fun kw => (kw, START)) start_keywords
  ++ map (fun kw => (kw, END)) end_keywords.

(** Sentence pass, [for keyword, mtype in keyword_map] with its
    [break]. *)
Fixpoint sentence_keywords (seg : TranscriptSegment) (seg_text : string)
    (keyword_map : list (string * MarkerType)) (markers : list Marker)
  : list Marker :=
  match keyword_map with
  | [] => markers
  | (keyword, mtype) :: keyword_map' =>
      let score := _fuzzy_match seg_text keyword in
      if Qle_bool FUZZY_THRESHOLD score
      then markers ++ [mkMarker mtype seg_text (ts_start seg) (ts_end seg)
                                (PyNum.round3 score)]
      else sentence_keywords seg seg_text keyword_map' markers
  end.

Definition sentence_body (keyword_map : list (string * MarkerType))
    (markers : list Marker) (seg : TranscriptSegment) : list Marker :=
  sentence_keywords seg (PyStr.strip (ts_text seg)) keyword_map markers.

(** Word pass, [for keyword, mtype in keyword_map] at position [i]:
    the first keyword that matches, with the end index and the score. *)
Fixpoint word_keywords (words : list TranscriptWord) (i : nat)
    (keyword_map : list (string * MarkerType))
  : result (option (MarkerType * nat * Q)) :=
  match keyword_map with
  | [] => Return None
  | (keyword, mtype) :: keyword_map' =>
      '(is_match, end_idx, score) <- _check_word_sequence words i keyword ;;
      if is_match : bool
      then Return (Some (mtype, end_idx, score))
      else word_keywords words i keyword_map'
  end.

Definition already_found (markers : list Marker)
    (word end_word : TranscriptWord) : bool :=
  existsb
    (fun m =>
       (PyNum.Qlt_bool (PyNum.abs (marker_start m - tw_start word)) (1 # 10)
        && PyNum.Qlt_bool (PyNum.abs (marker_end m - tw_end end_word)) (1 # 10))%bool)
    markers.

(** [while i < len(seg.words)], with an iteration bound. *)
Fixpoint word_loop (fuel : nat) (words : list TranscriptWord)
    (keyword_map : list (string * MarkerType)) (i : nat)
    (markers : list Marker) : result (list Marker) :=
  if (i <? List.length words)%nat then
    match fuel with
    | O => Raise OutOfFuel
    | S fuel' =>
        word <- getitem words i ;;
        found <- word_keywords words i keyword_map ;;
        match found with
        | Some (mtype, end_idx, score) =>
            end_word <- getitem words end_idx ;;
            markers' <-
              (if already_found markers word end_word
               then Return markers
               else
                 text <- join_words words i (end_idx + 1 - i) ;;
                 Return (markers ++ [mkMarker mtype text (tw_start word)
                                              (tw_end end_word)
                                              (PyNum.round3 score)])) ;;
            word_loop fuel' words keyword_map (end_idx + 1) markers'
        | None => word_loop fuel' words keyword_map (i + 1) markers
        end
    end
  else Return markers.

(** The body of the second [for seg in transcript]. The iteration bound
    is the number of words: [i] grows at every iteration. *)
Definition word_body (keyword_map : list (string * MarkerType))
    (acc : result (list Marker)) (seg : TranscriptSegment)
  : result (list Marker) :=
  markers <- acc ;;
  match ts_words seg with
  | [] => Return markers
  | _ :: _ =>
      word_loop (List.length (ts_words seg)) (ts_words seg) keyword_map 0
                markers
  end.

Definition or_empty (l : option (list string)) : list string :=
  match l with Some l => l | None => [] end.

Definition detect_markers (transcript : list TranscriptSegment)
    (ng_keywords ok_keywords : list string)
    (start_keywords end_keywords : option (list string))
  : result (list Marker) :=
  let start_keywords := or_empty start_keywords in
  let end_keywords := or_empty end_keywords in
  let keyword_map :=
    build_keyword_map ng_keywords ok_keywords start_keywords end_keywords in
  let markers := fold_left (sentence_body keyword_map) transcript [] in
  markers <- fold_left (word_body keyword_map) transcript (Return markers) ;;
  Return (sorted_by marker_start markers).

End Detection.

End Detector.

(** ** Subtitle export ([app/core/exporter.py]) *)

Module Exporter.

(** [_seconds_to_srt_tc]. [//] and [%] on integers are [Z.div] and
    [Z.modulo]. *)
Definition _seconds_to_srt_tc (seconds : Q) : string :=
  let ms := PyNum.round (PyNum.mod1 seconds * 1000) in
  let total_s := PyNum.int seconds in
  let ss := (total_s mod 60)%Z in
  let mm := ((total_s / 60) mod 60)%Z in
  let hh := (total_s / 3600)%Z in
  (PyStr.format_0d 2 hh ++ ":" ++ PyStr.format_0d 2 mm ++ ":"
   ++ PyStr.format_0d 2 ss ++ "," ++ PyStr.format_0d 3 ms)%string.

(** One entry of [srt_entries], before it is formatted. *)
Record Cue : Type := mkCue {
  cue_counter : nat;
  cue_start : Q;
  cue_end : Q;
  cue_text : string
}.

(** The f-string appended to [srt_entries]. *)
Definition format_cue (c : Cue) : string :=
  let nl := String (ascii_of_nat 10) EmptyString in
  (PyStr.digits (N.of_nat (cue_counter c)) ++ nl
   ++ _seconds_to_srt_tc (cue_start c) ++ " --> "
   ++ _seconds_to_srt_tc (cue_end c) ++ nl
   ++ cue_text c ++ nl)%string.

(** [[s for s in segments if s.enabled and s.type == "keep"]], sorted. *)
Definition is_enabled_keep (s : Segment) : bool :=
  (enabled s && String.eqb (seg_type s) "keep")%bool.

Definition enabled_sorted (segments : list Segment) : list Segment :=
  sorted_by seg_start (filter is_enabled_keep segments).

(** The text of a cue: the two keyword loops of [export_srt]. *)
Definition cue_text_of (filter_keywords : list string) (ts : TranscriptSegment)
  : string :=
  let text :=
    fold_left
      (fun text kw => PyStr.strip (PyStr.replace_by_empty kw (PyStr.lower text)))
      filter_keywords (ts_text ts) in
  match filter_keywords with
  | [] => text
  | _ :: _ =>
      fold_left
        (fun clean_text kw => PyStr.strip (PyStr.re_sub_nocase kw clean_text))
        filter_keywords (ts_text ts)
  end.

(** The body of [for ts in transcript], for the segment [seg]. *)
Definition sentence_body (filter_keywords : list string) (seg : Segment)
    (time_offset : Q) (acc : list Cue * nat) (ts : TranscriptSegment)
  : list Cue * nat :=
  let '(srt_entries, counter) := acc in
  if (Qle_bool (ts_end ts) (seg_start seg)
      || Qle_bool (seg_end seg) (ts_start ts))%bool
  then acc
  else
    let sub_start := PyNum.max (ts_start ts) (seg_start seg) in
    let sub_end := PyNum.min (ts_end ts) (seg_end seg) in
    let text := cue_text_of filter_keywords ts in
    if PyStr.is_empty text then acc
    else
      let rel_start := time_offset + (sub_start - seg_start seg) in
      let rel_end := time_offset + (sub_end - seg_start seg) in
      (srt_entries ++ [mkCue counter rel_start rel_end text], S counter).

(** The body of [for seg in enabled]. *)
Definition segment_body (filter_keywords : list string)
    (transcript : list TranscriptSegment)
    (acc : list Cue * nat * Q) (seg : Segment) : list Cue * nat * Q :=
  let '(srt_entries, counter, time_offset) := acc in
  let seg_duration := seg_end seg - seg_start seg in
  let '(srt_entries, counter) :=
    fold_left (sentence_body filter_keywords seg time_offset) transcript
              (srt_entries, counter) in
  (srt_entries, counter, time_offset + seg_duration).

Definition or_empty (l : option (list string)) : list string :=
  match l with Some l => l | None => [] end.

(** The cues of [export_srt], in the order they are appended. *)
Definition srt_cues (segments : list Segment)
    (transcript : list TranscriptSegment)
    (filter_keywords : option (list string)) : list Cue :=
  let filter_keywords := map PyStr.lower (or_empty filter_keywords) in
  let enabled := enabled_sorted segments in
  fst (fst (fold_left (segment_body filter_keywords transcript) enabled
                      ([], 1%nat, 0))).

Definition export_srt (segments : list Segment)
    (transcript : list TranscriptSegment)
    (filter_keywords : option (list string)) : string :=
  String.concat (String (ascii_of_nat 10) EmptyString)
                (map format_cue (srt_cues segments transcript filter_keywords)).

End Exporter.

(** ** SMPTE time codes, EDL and XML export ([app/core/exporter.py]) *)

Module ExporterMore.

(** [str(z)] for an integer. *)
Definition str_int (z : Z) : string := PyStr.format_0d 0 z.

Definition nl : string := String (ascii_of_nat 10) EmptyString.

(** The double quote character. *)
Definition dq : string := String (ascii_of_nat 34) EmptyString.

(** The fields [hh, mm, ss, ff] of [_seconds_to_tc]. [None] is the
    [ZeroDivisionError] of [% int(fps)] and [// int(fps)]. *)
Definition tc_fields (seconds fps : Q) : option (Z * Z * Z * Z) :=
  let total_frames := PyNum.round (seconds * fps) in
  if (PyNum.int fps =? 0)%Z then None
  else
    let ff := (total_frames mod PyNum.int fps)%Z in
    let total_seconds := (total_frames / PyNum.int fps)%Z in
    let ss := (total_seconds mod 60)%Z in
    let mm := ((total_seconds / 60) mod 60)%Z in
    let hh := (total_seconds / 3600)%Z in
    Some (hh, mm, ss, ff).

(** [f"{hh:02d}:{mm:02d}:{ss:02d}:{ff:02d}"]. *)
Definition format_tc (f : Z * Z * Z * Z) : string :=
  let '(hh, mm, ss, ff) := f in
  (PyStr.format_0d 2 hh ++ ":" ++ PyStr.format_0d 2 mm ++ ":"
   ++ PyStr.format_0d 2 ss ++ ":" ++ PyStr.format_0d 2 ff)%string.

Definition _seconds_to_tc (seconds fps : Q) : option string :=
  option_map format_tc (tc_fields seconds fps).

(** The fields [hh, mm, ss, ms] of [Exporter._seconds_to_srt_tc]. *)
Definition srt_fields (seconds : Q) : Z * Z * Z * Z :=
  let ms := PyNum.round (PyNum.mod1 seconds * 1000) in
  let total_s := PyNum.int seconds in
  let ss := (total_s mod 60)%Z in
  let mm := ((total_s / 60) mod 60)%Z in
  let hh := (total_s / 3600)%Z in
  (hh, mm, ss, ms).

(** [f"{hh:02d}:{mm:02d}:{ss:02d},{ms:03d}"]. *)
Definition format_srt_tc (f : Z * Z * Z * Z) : string :=
  let '(hh, mm, ss, ms) := f in
  (PyStr.format_0d 2 hh ++ ":" ++ PyStr.format_0d 2 mm ++ ":"
   ++ PyStr.format_0d 2 ss ++ "," ++ PyStr.format_0d 3 ms)%string.

(** One event of the EDL, its four times still in seconds. *)
Record EdlEvent : Type := mkEdlEvent {
  ev_number : nat;
  ev_src_in : Q;
  ev_src_out : Q;
  ev_rec_in : Q;
  ev_rec_out : Q
}.

(** The body of [for i, seg in enumerate(enabled, 1)] of [export_edl]. *)
Definition edl_body (acc : list EdlEvent * nat * Q) (seg : Segment)
  : list EdlEvent * nat * Q :=
  let '(events, i, record_offset) := acc in
  let duration := seg_end seg - seg_start seg in
  (events ++ [mkEdlEvent i (seg_start seg) (seg_end seg) record_offset
                         (record_offset + duration)],
   S i, record_offset + duration).

Definition edl_events (segments : list Segment) : list EdlEvent :=
  fst (fst (fold_left edl_body (Exporter.enabled_sorted segments)
                      ([], 1%nat, 0))).

(** The three lines appended for one event. *)
Definition event_lines (fps : Q) (source_filename : string) (ev : EdlEvent)
  : option (list string) :=
  match _seconds_to_tc (ev_src_in ev) fps, _seconds_to_tc (ev_src_out ev) fps,
        _seconds_to_tc (ev_rec_in ev) fps, _seconds_to_tc (ev_rec_out ev) fps
  with
  | Some src_in, Some src_out, Some rec_in, Some rec_out =>
      Some [(PyStr.format_0d 3 (Z.of_nat (ev_number ev))
             ++ "  AX       AA/V  C        "
             ++ src_in ++ " " ++ src_out ++ " " ++ rec_in ++ " " ++ rec_out)%string;
            ("* FROM CLIP NAME: " ++ source_filename)%string;
            EmptyString]
  | _, _, _, _ => None
  end.

(** The lines of all events, or [None] when a time code raises. *)
Fixpoint events_lines (fps : Q) (source_filename : string)
    (events : list EdlEvent) : option (list string) :=
  match events with
  | [] => Some []
  | ev :: events' =>
      match event_lines fps source_filename ev with
      | None => None
      | Some ls =>
          match events_lines fps source_filename events' with
          | None => None
          | Some rest => Some (ls ++ rest)
          end
      end
  end.

Definition export_edl (segments : list Segment) (source_filename : string)
    (fps : Q) (title : string) : option string :=
  match events_lines fps source_filename (edl_events segments) with
  | None => None
  | Some ls =>
      Some (String.concat nl
              ([("TITLE: " ++ title)%string; "FCM: NON-DROP FRAME"%string;
                EmptyString] ++ ls))
  end.

(** One clip item of the XML sequence, in frames. *)
Record ClipItem : Type := mkClipItem {
  clip_number : nat;
  clip_duration : Z;
  clip_start : Z;
  clip_end : Z;
  clip_in : Z;
  clip_out : Z
}.

(** [int(round((s.end - s.start) * fps))]. *)
Definition seg_frames (fps : Q) (seg : Segment) : Z :=
  PyNum.round ((seg_end seg - seg_start seg) * fps).

(** The body of [for i, seg in enumerate(enabled, 1)] of [export_xml]. *)
Definition xml_body (fps : Q) (acc : list ClipItem * nat * Z) (seg : Segment)
  : list ClipItem * nat * Z :=
  let '(clip_items, i, timeline_offset) := acc in
  let in_frame := PyNum.round (seg_start seg * fps) in
  let out_frame := PyNum.round (seg_end seg * fps) in
  (clip_items ++ [mkClipItem i (seg_frames fps seg) timeline_offset
                             (timeline_offset + seg_frames fps seg)%Z
                             in_frame out_frame],
   S i, (timeline_offset + seg_frames fps seg)%Z).

Definition xml_clips (segments : list Segment) (fps : Q) : list ClipItem :=
  fst (fst (fold_left (xml_body fps) (Exporter.enabled_sorted segments)
                      ([], 1%nat, 0%Z))).

(** [sum(int(round((s.end - s.start) * fps)) for s in enabled)]. *)
Definition xml_total_frames (segments : list Segment) (fps : Q) : Z :=
  fold_left Z.add (map (seg_frames fps) (Exporter.enabled_sorted segments)) 0%Z.

(** The f-string of one clip item. *)
Definition format_clip (fps_int : Z) (source_filename : string) (c : ClipItem)
  : string :=
  String.concat EmptyString
    [nl; "            <clipitem id="; dq; "clipitem-";
     PyStr.digits (N.of_nat (clip_number c)); dq; ">"; nl;
     "                <name>"; source_filename; "</name>"; nl;
     "                <duration>"; str_int (clip_duration c); "</duration>";
     nl; "                <rate><timebase>"; str_int fps_int;
     "</timebase><ntsc>FALSE</ntsc></rate>"; nl; "                <start>";
     str_int (clip_start c); "</start>"; nl; "                <end>";
     str_int (clip_end c); "</end>"; nl; "                <in>";
     str_int (clip_in c); "</in>"; nl; "                <out>";
     str_int (clip_out c); "</out>"; nl; "                <file id="; dq;
     "file-1"; dq; ">"; nl; "                    <name>"; source_filename;
     "</name>"; nl; "                    <rate><timebase>"; str_int fps_int;
     "</timebase><ntsc>FALSE</ntsc></rate>"; nl; "                </file>";
     nl; "            </clipitem>"]%string.

Definition export_xml (segments : list Segment) (source_filename : string)
    (fps : Q) (title : string) : string :=
  let fps_int := PyNum.round fps in
  let total_frames := xml_total_frames segments fps in
  let clips_xml :=
    String.concat nl
      (map (format_clip fps_int source_filename) (xml_clips segments fps)) in
  String.concat EmptyString
    ["<?xml version="; dq; "1.0"; dq; " encoding="; dq; "UTF-8"; dq; "?>";
     nl; "<!DOCTYPE xmeml>"; nl; "<xmeml version="; dq; "5"; dq; ">"; nl;
     "    <sequence>"; nl; "        <name>"; title; "</name>"; nl;
     "        <duration>"; str_int total_frames; "</duration>"; nl;
     "        <rate><timebase>"; str_int fps_int;
     "</timebase><ntsc>FALSE</ntsc></rate>"; nl; "        <media>"; nl;
     "            <video>"; nl; "                <track>"; clips_xml; nl;
     "                </track>"; nl; "            </video>"; nl;
     "        </media>"; nl; "    </sequence>"; nl; "</xmeml>"]%string.

End ExporterMore.

(** ** Vocabulary of the properties *)

Module Props.

Import Slicer.

(** Two segments overlap when some instant lies in both time ranges. *)
Definition covers (s : Segment) (t : Q) : Prop :=
  seg_start s <= t /\ t <= seg_end s.

Definition overlap (a b : Segment) : Prop :=
  exists t, covers a t /\ covers b t.

Definition pairwise_non_overlapping (l : list Segment) : Prop :=
  ForallOrdPairs (fun a b => ~ overlap a b) l.

Definition le_start (a b : Segment) : Prop := seg_start a <= seg_start b.

Definition sorted_ascending_by_start (l : list Segment) : Prop :=
  StronglySorted le_start l.

(** What the merge loop leaves between two neighbours: more than the
    tolerance of 50 ms. *)
Definition gap (a b : Segment) : Prop :=
  seg_end a + (5 # 100) < seg_start b.

(** The loop of [_merge_overlapping] with [last = merged[-1]] held apart
    from the segments before it, which the loop no longer touches. *)
Fixpoint merge_from (last : Segment) (rest : list Segment) : list Segment :=
  match rest with
  | [] => [last]
  | seg :: rest' =>
      if Qle_bool (seg_start seg) (seg_end last + (5 # 100))
      then merge_from (set_end last (PyNum.max (seg_end last) (seg_end seg)))
                      rest'
      else last :: merge_from seg rest'
  end.

(** A merged group: its first segment and the segments absorbed into it. *)
Definition group : Type := (Segment * list Segment)%type.

Definition members (g : group) : list Segment := fst g :: snd g.

(** [e] is the largest end among [l]. *)
Definition is_max_end (e : Q) (l : list Segment) : Prop :=
  (exists s, In s l /\ seg_end s = e) /\ Forall (fun s => seg_end s <= e) l.

(** [o] is what the merge pass returns for the group [g]: the first
    segment of the group, every field but [end] unchanged, its end the
    largest of the group; the first segment starts no later than the
    absorbed ones. *)
Definition merged_group (g : group) (o : Segment) : Prop :=
  (seg_id o = seg_id (fst g)
   /\ seg_start o = seg_start (fst g)
   /\ seg_type o = seg_type (fst g)
   /\ trigger_marker o = trigger_marker (fst g)
   /\ enabled o = enabled (fst g)
   /\ manual_adjusted o = manual_adjusted (fst g))
  /\ is_max_end (seg_end o) (members g)
  /\ Forall (le_start (fst g)) (snd g).

(** The segments absorbed into the first segment of their group. *)
Definition absorbed (groups : list group) : list Segment :=
  List.concat (map snd groups).

(** A freshly sliced segment. *)
Definition fresh_keep (s : Segment) : Prop :=
  seg_type s = "keep"%string /\ enabled s = true /\ manual_adjusted s = false.

End Props.

(** Vocabulary of the detector's properties. *)

Module DetectorProps.

(** A number of thousandths, as [round(x, 3)] returns. *)
Definition rounded3 (q : Q) : Prop := exists k : Z, q = inject_Z k / 1000.

Definition le_marker_start (a b : Marker) : Prop :=
  marker_start a <= marker_start b.

(** The keywords configured for a kind of marker. *)
Definition keywords_of (ng_keywords ok_keywords : list string)
    (start_keywords end_keywords : option (list string)) (t : MarkerType)
  : list string :=
  match t with
  | NG => ng_keywords
  | OK => ok_keywords
  | START => Detector.or_empty start_keywords
  | END => Detector.or_empty end_keywords
  end.

(** What every marker built against [keyword_map] satisfies. *)
Definition well_made (keyword_map : list (string * MarkerType)) (m : Marker)
  : Prop :=
  rounded3 (marker_confidence m) /\ In (marker_type m) (map snd keyword_map).

End DetectorProps.

(** Vocabulary of the interval slicer's properties. *)

Module IntervalProps.

Import Slicer.

(** [m] starts after [start_m] ends. *)
Definition follows (start_m m : Marker) : bool :=
  PyNum.Qlt_bool (marker_end start_m) (marker_start m).

End IntervalProps.

(** Vocabulary of the subtitle export's properties. *)

Module ExportProps.

Import Exporter.

(** The sentence and the segment have a stretch of time in common. *)
Definition overlaps (seg : Segment) (ts : TranscriptSegment) : bool :=
  (PyNum.Qlt_bool (seg_start seg) (ts_end ts)
   && PyNum.Qlt_bool (ts_start ts) (seg_end seg))%bool.

Definition duration (seg : Segment) : Q := seg_end seg - seg_start seg.

(** The sum of the durations of the segments processed before the [k]-th. *)
Definition output_offset (enabled : list Segment) (k : nat) : Q :=
  fold_left (fun acc seg => acc + duration seg) (firstn k enabled) 0.

(** The claim's words: all keywords removed without regard to case, then
    the text trimmed. *)
Definition removed_and_trimmed (keywords : list string) (text : string)
  : string :=
  PyStr.strip
    (fold_left (fun t kw => PyStr.re_sub_nocase kw t) keywords text).

(** What the code keeps of a sentence's text: with no keyword the text as
    it is; otherwise each keyword in turn is removed without regard to case
    and the text trimmed. *)
Definition cleaned_text (keywords : list string) (ts : TranscriptSegment)
  : string :=
  match keywords with
  | [] => ts_text ts
  | _ :: _ =>
      fold_left (fun t kw => PyStr.strip (PyStr.re_sub_nocase kw t))
                keywords (ts_text ts)
  end.

(** The sentence clipped to the segment and moved to the output time. *)
Definition cue_span (offset : Q) (seg : Segment) (ts : TranscriptSegment)
  : Q * Q :=
  (offset + (PyNum.max (ts_start ts) (seg_start seg) - seg_start seg),
   offset + (PyNum.min (ts_end ts) (seg_end seg) - seg_start seg)).

(** The cues of one segment: one for each overlapping sentence whose
    cleaned text is not empty. *)
Definition segment_cues (keywords : list string)
    (transcript : list TranscriptSegment) (offset : Q) (seg : Segment)
  : list (Q * Q * string) :=
  flat_map
    (fun ts =>
       if (overlaps seg ts
           && negb (PyStr.is_empty (cleaned_text keywords ts)))%bool
       then [(cue_span offset seg ts, cleaned_text keywords ts)]
       else [])
    transcript.

(** The cues of all segments, segment after segment. *)
Definition expected_cues (keywords : list string)
    (transcript : list TranscriptSegment) (enabled : list Segment)
  : list (Q * Q * string) :=
  flat_map
    (fun k =>
       match nth_error enabled k with
       | Some seg =>
           segment_cues keywords transcript (output_offset enabled k) seg
       | None => []
       end)
    (seq 0 (List.length enabled)).

(** Cues numbered [n], [n + 1], ... *)
Fixpoint numbered_from (n : nat) (l : list (Q * Q * string)) : list Cue :=
  match l with
  | [] => []
  | (a, b, text) :: l' => mkCue n a b text :: numbered_from (S n) l'
  end.

(** The recursion behind [expected_cues]: the offset grows by the duration
    of each segment. *)
Fixpoint cues_from (keywords : list string)
    (transcript : list TranscriptSegment) (offset : Q)
    (enabled : list Segment) : list (Q * Q * string) :=
  match enabled with
  | [] => []
  | seg :: enabled' =>
      segment_cues keywords transcript offset seg
      ++ cues_from keywords transcript (offset + duration seg) enabled'
  end.

End ExportProps.

(** Values for the examples. *)

Module Sample.

Definition seg (id : string) (a b : Q) : Segment :=
  mkSegment id "keep" a b None true false.

Definition word (w : string) (a b : Q) : TranscriptWord :=
  mkTranscriptWord w a b 1.

Definition no_ratio (a b : string) : Q := 0.

Definition nl : string := String (ascii_of_nat 10) EmptyString.

End Sample.

(** Vocabulary of the slicers' further properties. *)

Module SlicerProps.

(** A stored segment starts at 0 or later and is longer than 99 ms. *)
Definition stored_long (s : Segment) : Prop :=
  0 <= seg_start s /\ seg_start s + (99 # 1000) <= seg_end s.

Definition ends_by (hi : Q) (s : Segment) : Prop := seg_end s <= hi.

(** The time range of [s] lies within that of [o]. *)
Definition within (s o : Segment) : Prop :=
  seg_start o <= seg_start s /\ seg_end s <= seg_end o.

End SlicerProps.

(** Vocabulary of the EDL and XML exports' properties. *)

Module EdlXmlProps.

Import ExporterMore ExportProps.

(** The event of the [k]-th of the segments [enabled]: it is numbered
    [k + 1], its source times are the segment's own, its record times are
    the sums of the durations before and up to the segment. *)
Definition event_at (enabled : list Segment) (k : nat) : EdlEvent :=
  match nth_error enabled k with
  | Some seg =>
      mkEdlEvent (S k) (seg_start seg) (seg_end seg)
                 (output_offset enabled k) (output_offset enabled (S k))
  | None => mkEdlEvent (S k) 0 0 0 0
  end.

Definition events_of (enabled : list Segment) : list EdlEvent :=
  map (event_at enabled) (seq 0 (List.length enabled)).

(** The frames of the segments before the [k]-th. *)
Definition frame_offset (fps : Q) (enabled : list Segment) (k : nat) : Z :=
  fold_left Z.add (map (seg_frames fps) (firstn k enabled)) 0%Z.

(** The clip of the [k]-th segment, in frames. *)
Definition clip_at (fps : Q) (enabled : list Segment) (k : nat) : ClipItem :=
  match nth_error enabled k with
  | Some seg =>
      mkClipItem (S k) (seg_frames fps seg)
                 (frame_offset fps enabled k) (frame_offset fps enabled (S k))
                 (PyNum.round (seg_start seg * fps))
                 (PyNum.round (seg_end seg * fps))
  | None => mkClipItem (S k) 0 0 0 0 0
  end.

Definition clips_of (fps : Q) (enabled : list Segment) : list ClipItem :=
  map (clip_at fps enabled) (seq 0 (List.length enabled)).

(** The two header lines of an EDL, each with its line end. *)
Definition edl_header (title : string) : string :=
  ("TITLE: " ++ title ++ nl ++ "FCM: NON-DROP FRAME" ++ nl)%string.

End EdlXmlProps.

(** Vocabulary of the detector's further properties. *)

Module MatchProps.

Section Matching.

Variable ratio : string -> string -> Q.

(** The score of [keyword] against [text] reaches the threshold. *)
Definition reaches (text keyword : string) : bool :=
  Qle_bool Detector.FUZZY_THRESHOLD (Detector._fuzzy_match ratio text keyword).

(** The first pair of the keyword map whose keyword reaches the threshold
    on [text]. *)
Definition first_match (keyword_map : list (string * MarkerType))
    (text : string) : option (string * MarkerType) :=
  find (fun p => reaches text (fst p)) keyword_map.

(** The marker of a sentence: of the kind of the first keyword that
    reaches the threshold on the stripped text, and spanning the
    sentence. *)
Definition sentence_marker (keyword_map : list (string * MarkerType))
    (seg : TranscriptSegment) : option Marker :=
  let seg_text := PyStr.strip (ts_text seg) in
  match first_match keyword_map seg_text with
  | Some (keyword, mtype) =>
      Some (mkMarker mtype seg_text (ts_start seg) (ts_end seg)
                     (PyNum.round3
                        (Detector._fuzzy_match ratio seg_text keyword)))
  | None => None
  end.

Definition marker_list (m : option Marker) : list Marker :=
  match m with Some m => [m] | None => [] end.

Definition sentence_markers (keyword_map : list (string * MarkerType))
    (transcript : list TranscriptSegment) : list Marker :=
  flat_map (fun seg => marker_list (sentence_marker keyword_map seg))
           transcript.

End Matching.

(** The words [i], ..., [i + count - 1] written one after the other. *)
Definition words_text (words : list TranscriptWord) (i count : nat) : string :=
  fold_right (fun w s => (tw_word w ++ s)%string) EmptyString
             (firstn count (skipn i words)).

(** [m] spans the sentence [seg] and carries its stripped text. *)
Definition spans_sentence (seg : TranscriptSegment) (m : Marker) : Prop :=
  marker_word m = PyStr.strip (ts_text seg)
  /\ marker_start m = ts_start seg /\ marker_end m = ts_end seg.

(** [m] spans one to five consecutive words of the sentence [seg]: it
    starts with the first, ends with the last and carries their text. *)
Definition spans_words (seg : TranscriptSegment) (m : Marker) : Prop :=
  exists i e w we,
    (i <= e <= i + 4)%nat
    /\ nth_error (ts_words seg) i = Some w
    /\ nth_error (ts_words seg) e = Some we
    /\ marker_start m = tw_start w /\ marker_end m = tw_end we
    /\ marker_word m = words_text (ts_words seg) i (e + 1 - i).

(** A marker of the word pass. *)
Definition from_words (seg : TranscriptSegment) (m : Marker) : Prop :=
  75 # 100 <= marker_confidence m /\ spans_words seg m.

(** The times of a sentence are in order: it starts no later than it ends,
    and no word ends before a word at the same or an earlier position
    starts. *)
Definition timed (seg : TranscriptSegment) : Prop :=
  ts_start seg <= ts_end seg
  /\ forall i e w we,
       (i <= e)%nat ->
       nth_error (ts_words seg) i = Some w ->
       nth_error (ts_words seg) e = Some we ->
       tw_start w <= tw_end we.

(** All the keywords of a configuration. *)
Definition all_keywords (ng_keywords ok_keywords : list string)
    (start_keywords end_keywords : option (list string)) : list string :=
  ng_keywords ++ ok_keywords ++ Detector.or_empty start_keywords
  ++ Detector.or_empty end_keywords.

End MatchProps.

(** ** Detection and slicing in the analysis ([app/api/projects.py]) *)

Module Analysis.

Inductive SliceMode : Type := BACKTRACK | INTERVAL.

(** The fields of [ProjectSettings] that detection and slicing read. *)
Record ProjectSettings : Type := mkProjectSettings {
  mode : SliceMode;
  ng_keywords : list string;
  ok_keywords : list string;
  start_keywords : list string;
  end_keywords : list string;
  pre_buffer : Q;
  post_buffer : Q
}.

Section Run.

Variable ratio : string -> string -> Q.
Variable new_id : nat -> string.

(** Steps 4 and 5 of [_run_analysis]: the markers of the transcript, then
    the segments of the mode of the project. [duration] is what
    [get_video_duration] answered. *)
Definition detect_and_slice (settings : ProjectSettings)
    (transcript_segments : list TranscriptSegment) (duration : Q)
  : result (list Segment) :=
  markers <- Detector.detect_markers ratio transcript_segments
               (ng_keywords settings) (ok_keywords settings)
               (Some (start_keywords settings))
               (Some (end_keywords settings)) ;;
  Return
    (match mode settings with
     | INTERVAL =>
         Slicer.slice_interval new_id markers transcript_segments duration
                               (pre_buffer settings) (post_buffer settings)
     | BACKTRACK =>
         Slicer.slice_backtrack new_id markers transcript_segments duration
                                (pre_buffer settings) (post_buffer settings)
     end).

End Run.

(** The kind of marker that triggers a segment in a mode. *)
Definition trigger_kind (m : SliceMode) : MarkerType :=
  match m with BACKTRACK => OK | INTERVAL => START end.

(** The segment was triggered by one of the markers [l]. *)
Definition triggered_by (l : list Marker) (s : Segment) : Prop :=
  exists m, In m l /\ trigger_marker s = Some m.

End Analysis.

(** ** The routes on segments and exports ([app/api/segments.py],
    [app/api/export.py]) *)

Module Api.

(** The [detail] of the [HTTPException]s raised by the routes. *)
Inductive detail : Type :=
| NoProject
| NoSegments
| NoSuchSegment
| NoVideo
| NoEnabledKeep.

(** How a route ends: with its answer, with an [HTTPException], or with
    the [ZeroDivisionError] of a time code. *)
Inductive outcome (A : Type) : Type :=
| Ok (a : A)
| HTTPException (status_code : nat) (d : detail)
| ZeroDivisionError.
Arguments Ok {A} a.
Arguments HTTPException {A} status_code d.
Arguments ZeroDivisionError {A}.

(** The fields of [Project] that the routes read. *)
Record Project : Type := mkProject {
  name : string;
  source_filename : option string
}.

Record SegmentUpdate : Type := mkSegmentUpdate {
  upd_start : option Q;
  upd_end : option Q
}.

(** The JSON files of [app/models/store.py] by project id: [None] where
    the file does not exist. What [load_segments] reads is what
    [save_segments] wrote last. *)
Record store : Type := mkStore {
  projects : string -> option Project;
  segments_of : string -> option (list Segment)
}.

Definition load_project (st : store) (project_id : string) : option Project :=
  projects st project_id.

Definition load_segments (st : store) (project_id : string)
  : option (list Segment) :=
  segments_of st project_id.

Definition save_segments (st : store) (project_id : string)
    (segments : list Segment) : store :=
  {| projects := projects st;
     segments_of := fun p => if String.eqb p project_id then Some segments
                             else segments_of st p |}.

(** [seg.start = a], [seg.enabled = b] and [seg.manual_adjusted = b] on a
    segment object. *)
Definition set_start (s : Segment) (a : Q) : Segment :=
  {| seg_id := seg_id s; seg_type := seg_type s; seg_start := a;
     seg_end := seg_end s; trigger_marker := trigger_marker s;
     enabled := enabled s; manual_adjusted := manual_adjusted s |}.

Definition set_enabled (s : Segment) (b : bool) : Segment :=
  {| seg_id := seg_id s; seg_type := seg_type s; seg_start := seg_start s;
     seg_end := seg_end s; trigger_marker := trigger_marker s;
     enabled := b; manual_adjusted := manual_adjusted s |}.

Definition set_manual_adjusted (s : Segment) (b : bool) : Segment :=
  {| seg_id := seg_id s; seg_type := seg_type s; seg_start := seg_start s;
     seg_end := seg_end s; trigger_marker := trigger_marker s;
     enabled := enabled s; manual_adjusted := b |}.

(** [for seg in segments: if seg.id == segment_id: target = seg; break]:
    the target with the segments before and after it in the list. *)
Fixpoint find_target (segment_id : string) (segments : list Segment)
  : option (list Segment * Segment * list Segment) :=
  match segments with
  | [] => None
  | seg :: rest =>
      if String.eqb (seg_id seg) segment_id then Some ([], seg, rest)
      else
        match find_target segment_id rest with
        | Some (before, target, after) => Some (seg :: before, target, after)
        | None => None
        end
  end.

(** [get_segments]. *)
Definition get_segments (st : store) (project_id : string)
  : outcome (list Segment) :=
  match load_project st project_id with
  | None => HTTPException 404 NoProject
  | Some _ =>
      match load_segments st project_id with
      | None => Ok []
      | Some segments => Ok segments
      end
  end.

(** The assignments of [update_segment] to its target. *)
Definition update_target (body : SegmentUpdate) (target : Segment) : Segment :=
  let target :=
    match upd_start body with
    | Some a => set_start target a
    | None => target
    end in
  let target :=
    match upd_end body with
    | Some b => set_end target b
    | None => target
    end in
  set_manual_adjusted target true.

(** [update_segment]: the answer and the store it leaves. The target is an
    object of the list, which is saved with the target assigned in place. *)
Definition update_segment (st : store) (project_id segment_id : string)
    (body : SegmentUpdate) : outcome Segment * store :=
  match load_segments st project_id with
  | None => (HTTPException 404 NoSegments, st)
  | Some segments =>
      match find_target segment_id segments with
      | None => (HTTPException 404 NoSuchSegment, st)
      | Some (before, target, after) =>
          let target := update_target body target in
          (Ok target, save_segments st project_id (before ++ target :: after))
      end
  end.

(** [toggle_segment]. *)
Definition toggle_segment (st : store) (project_id segment_id : string)
  : outcome Segment * store :=
  match load_segments st project_id with
  | None => (HTTPException 404 NoSegments, st)
  | Some segments =>
      match find_target segment_id segments with
      | None => (HTTPException 404 NoSuchSegment, st)
      | Some (before, target, after) =>
          let target := set_enabled target (negb (enabled target)) in
          (Ok target, save_segments st project_id (before ++ target :: after))
      end
  end.

(** [_get_enabled_segments]: [not segments] holds for [None] and for the
    empty list. *)
Definition _get_enabled_segments (st : store) (project_id : string)
  : outcome (Project * list Segment) :=
  match load_project st project_id with
  | None => HTTPException 404 NoProject
  | Some project =>
      match load_segments st project_id with
      | None | Some [] => HTTPException 400 NoSegments
      | Some segments => Ok (project, segments)
      end
  end.

(** [project.source_filename or "source.mp4"]. *)
Definition source_name (project : Project) : string :=
  match source_filename project with
  | None | Some EmptyString => "source.mp4"
  | Some f => f
  end.

(** [export_edl_file]: [export_edl] is called without [fps], which is then
    30.0. The route writes the text to a file of the export directory
    before it answers: [write_text name content] says whether
    [get_export_dir] and [write_text] went through for the file [name].
    [None] is the [OSError] raised when they did not. *)
Definition export_edl_file (write_text : string -> string -> bool)
    (st : store) (project_id : string) : option (outcome string) :=
  match _get_enabled_segments st project_id with
  | Ok (project, segments) =>
      match ExporterMore.export_edl segments (source_name project) 30
                                    (name project ++ "_clipflow") with
      | Some content =>
          if write_text (name project ++ ".edl")%string content
          then Some (Ok content)
          else None
      | None => Some ZeroDivisionError
      end
  | HTTPException c d => Some (HTTPException c d)
  | ZeroDivisionError => Some ZeroDivisionError
  end.

(** [export_video_file] up to its call of [concat_segments_to_video]: the
    answer is the list handed to it. [video_path] is what [get_video_path]
    found. *)
Definition export_video_file (st : store) (project_id : string)
    (video_path : option string) : outcome (list (Q * Q)) :=
  match _get_enabled_segments st project_id with
  | Ok (project, segments) =>
      match video_path with
      | None => HTTPException 400 NoVideo
      | Some _ =>
          match map (fun s => (seg_start s, seg_end s))
                    (filter Exporter.is_enabled_keep segments) with
          | [] => HTTPException 400 NoEnabledKeep
          | enabled => Ok enabled
          end
      end
  | HTTPException c d => HTTPException c d
  | ZeroDivisionError => ZeroDivisionError
  end.

End Api.

(** Vocabulary of the routes' properties. *)

Module ApiProps.

Import Api.

(** [l'] is [l] with the segment at one position replaced: [target] by
    [target'], where [target] is the first segment of [l] with the id. *)
Definition replaces_first (segment_id : string) (target target' : Segment)
    (l l' : list Segment) : Prop :=
  exists before after,
    l = before ++ target :: after
    /\ l' = before ++ target' :: after
    /\ seg_id target = segment_id
    /\ Forall (fun s => seg_id s <> segment_id) before.

(** The store is as before but for the segments of one project. *)
Definition saved_for (project_id : string) (segments : list Segment)
    (st st' : store) : Prop :=
  load_segments st' project_id = Some segments
  /\ (forall p, p <> project_id -> load_segments st' p = load_segments st p)
  /\ (forall p, load_project st' p = load_project st p).

(** The source range of an EDL event. *)
Definition source_range (ev : ExporterMore.EdlEvent) : Q * Q :=
  (ExporterMore.ev_src_in ev, ExporterMore.ev_src_out ev).

End ApiProps.

(** Vocabulary of the backtrack slicer's further properties. *)

Module BacktrackProps.

(** Where the segment of an OK marker ends, before rounding. *)
Definition ok_cut (total_duration pre_buffer post_buffer : Q) (ok : Marker)
  : Q :=
  PyNum.min total_duration
            (PyNum.min total_duration (marker_start ok - pre_buffer)
             + post_buffer).

(** [b] starts no later than 50 ms after [a] ends. *)
Definition reaches_next (a b : Segment) : Prop :=
  seg_start b <= seg_end a + (5 # 100).

(** The segment ends at the rounded cut of one of the markers [oks]. *)
Definition ends_at_cut (total_duration pre_buffer post_buffer : Q)
    (oks : list Marker) (s : Segment) : Prop :=
  exists ok,
    In ok oks
    /\ seg_end s = PyNum.round3 (ok_cut total_duration pre_buffer post_buffer ok).

(** What the loop of [slice_backtrack] keeps when there is no NG marker:
    each segment starts within 50 ms of the end of the one before, and the
    first starts at 0. *)
Definition chained (l : list Segment) : Prop :=
  Sorted reaches_next l
  /\ Forall SlicerProps.stored_long l
  /\ (forall s0 rest, l = s0 :: rest -> seg_start s0 == 0).

End BacktrackProps.

(** ** The interval slicer in floating point ([app/core/slicer.py])

    A Python float is a binary64 number, and the sum or the difference of
    two floats is the exact one rounded to the nearest float. [Slicer] reads
    the arithmetic as exact. Here the rounding is a parameter [rnd]: with
    the identity the definitions are those of [Slicer], with [binary64] they
    compute what the code computes on floats. Comparisons, [max] and [min]
    are exact on floats, and a float literal is the float nearest to it. *)

Module FloatSlicer.

(** The exponent [e] of a positive rational: 2^e <= q < 2^(e + 1). *)
Definition exponent (q : Q) : Z :=
  let e := (Z.log2 (Qnum q) - Z.log2 (Zpos (Qden q)))%Z in
  if PyNum.Qlt_bool q ((2 # 1) ^ e) then (e - 1)%Z else e.

(** The binary64 number nearest to [q], ties to the even mantissa: 53 bits
    of mantissa, and below 2^-1022 the spacing of the subnormal numbers.
    The numbers beyond the largest float are outside the model. *)
Definition binary64 (q : Q) : Q :=
  if Qeq_bool q 0 then 0
  else
    let ulp := (2 # 1) ^ (Z.max (exponent (PyNum.abs q) - 52) (-1074)) in
    Qred (inject_Z (PyNum.round (q / ulp)) * ulp).

Section Rounding.

Variable rnd : Q -> Q.

(** The body of [for seg in sorted_segs[1:]]. *)
Definition merge_body (merged : list Segment) (seg : Segment) : list Segment :=
  match last_opt merged with
  | None => merged ++ [seg]
  | Some last =>
      if Qle_bool (seg_start seg) (rnd (seg_end last + rnd (5 # 100)))
      then removelast merged ++ [set_end last (PyNum.max (seg_end last) (seg_end seg))]
      else merged ++ [seg]
  end.

Definition _merge_overlapping (segments : list Segment) : list Segment :=
  match segments with
  | [] => segments
  | _ :: _ =>
      match sorted_by seg_start segments with
      | [] => []
      | s0 :: rest => fold_left merge_body rest [s0]
      end
  end.

Variable new_id : nat -> string.

(** The bounds computed for one START marker, before [round(., 3)]. *)
Definition interval_bounds (start_markers end_markers : list Marker)
    (total_duration pre_buffer post_buffer : Q) (start_m : Marker) : Q * Q :=
  let matching_ends :=
    filter (fun e => PyNum.Qlt_bool (marker_end start_m) (marker_start e))
           end_markers in
  match matching_ends with
  | end_m :: _ =>
      let seg_start :=
        PyNum.max 0 (rnd (rnd (marker_end start_m + post_buffer) - pre_buffer)) in
      let seg_end :=
        PyNum.min total_duration
                  (rnd (rnd (marker_start end_m - post_buffer) + post_buffer)) in
      (seg_start, seg_end)
  | [] =>
      let next_starts :=
        filter (fun s => PyNum.Qlt_bool (marker_end start_m) (marker_start s))
               start_markers in
      let seg_end :=
        match next_starts with
        | s :: _ => marker_start s
        | [] => total_duration
        end in
      let seg_start :=
        PyNum.max 0 (rnd (rnd (marker_end start_m + post_buffer) - pre_buffer)) in
      (seg_start, seg_end)
  end.

(** The body of [for start_m in start_markers]. *)
Definition interval_body (start_markers end_markers : list Marker)
    (total_duration pre_buffer post_buffer : Q)
    (segments : list Segment) (start_m : Marker) : list Segment :=
  let '(seg_start, seg_end) :=
    interval_bounds start_markers end_markers total_duration
                    pre_buffer post_buffer start_m in
  if PyNum.Qlt_bool (rnd (seg_start + rnd (1 # 10))) seg_end
  then segments
       ++ [Slicer.new_segment new_id (List.length segments)
                              (rnd (PyNum.round3 seg_start))
                              (rnd (PyNum.round3 seg_end)) (Some start_m)]
  else segments.

Definition slice_interval (markers : list Marker)
    (transcript : list TranscriptSegment)
    (total_duration pre_buffer post_buffer : Q) : list Segment :=
  let start_markers := filter (Slicer.is_type START) markers in
  let end_markers := filter (Slicer.is_type END) markers in
  match start_markers with
  | [] => []
  | _ :: _ =>
      _merge_overlapping
        (fold_left
           (interval_body start_markers end_markers total_duration
                          pre_buffer post_buffer)
           start_markers [])
  end.

End Rounding.

End FloatSlicer.

(** Vocabulary of the interval slicer in floating point. *)

Module FloatProps.

Import IntervalProps.

Section Rounding.

Variable rnd : Q -> Q.

(** The candidate of a START marker, every sum and difference rounded:
    the start is max(0, START.end + post_buffer - pre_buffer); the end is
    min(total_duration, END.start - post_buffer + post_buffer) for the first
    END marker of the list that follows, else the start of the first START
    marker that follows, else the total duration. *)
Definition interval_candidate (start_markers end_markers : list Marker)
    (total_duration pre_buffer post_buffer : Q) (start_m : Marker) : Q * Q :=
  (PyNum.max 0 (rnd (rnd (marker_end start_m + post_buffer) - pre_buffer)),
   match find (follows start_m) end_markers with
   | Some end_m =>
       PyNum.min total_duration
                 (rnd (rnd (marker_start end_m - post_buffer) + post_buffer))
   | None =>
       match find (follows start_m) start_markers with
       | Some next => marker_start next
       | None => total_duration
       end
   end).

(** A candidate is kept when its end is above its start plus 0.1, the sum
    rounded. *)
Definition long_enough (c : Q * Q) : bool :=
  PyNum.Qlt_bool (rnd (fst c + rnd (1 # 10))) (snd c).

(** The candidates kept, in the order of their START markers. *)
Definition interval_kept (start_markers end_markers : list Marker)
    (total_duration pre_buffer post_buffer : Q) : list (Q * Q * Marker) :=
  flat_map
    (fun start_m =>
       let c := interval_candidate start_markers end_markers total_duration
                                   pre_buffer post_buffer start_m in
       if long_enough c then [(fst c, snd c, start_m)] else [])
    start_markers.

(** The segments stored for a list of kept candidates: each bound the
    float nearest to the bound rounded to 3 decimals, ids drawn in order
    from [new_id n], [new_id (n + 1)], ... *)
Fixpoint stored_from (new_id : nat -> string) (n : nat)
    (kept : list (Q * Q * Marker)) : list Segment :=
  match kept with
  | [] => []
  | (a, b, m) :: kept' =>
      Slicer.new_segment new_id n (rnd (PyNum.round3 a))
                         (rnd (PyNum.round3 b)) (Some m)
      :: stored_from new_id (S n) kept'
  end.

End Rounding.

End FloatProps.

(** Vocabulary of the claim on subtitle cues. *)

Module SrtProps.

Import Exporter ExportProps.

(** A string with no white space at either end: [strip] leaves it as it
    is. [transcribe] writes every sentence text so, and [_fuzzy_match]
    compares every keyword so. *)
Definition trimmed (s : string) : Prop := PyStr.strip s = s.

(** The first character is not white space. *)
Definition head_nonspace (s : string) : Prop :=
  match s with
  | EmptyString => True
  | String a _ => PyStr.isspace a = false
  end.

(** The string is not empty and its last character is not white space. *)
Fixpoint last_nonspace (s : string) : Prop :=
  match s with
  | EmptyString => False
  | String a s' =>
      match s' with
      | EmptyString => PyStr.isspace a = false
      | String _ _ => last_nonspace s'
      end
  end.

(** The keywords that trimming the text early does not disturb: the empty
    one and those with no white space at their ends. *)
Definition edges (kw : string) : Prop :=
  kw = EmptyString \/ (head_nonspace kw /\ last_nonspace kw).

(** The cues the claim gives for one segment: one for each overlapping
    sentence whose text, all keywords removed and then trimmed, is not
    empty. *)
Definition claimed_segment_cues (keywords : list string)
    (transcript : list TranscriptSegment) (offset : Q) (seg : Segment)
  : list (Q * Q * string) :=
  flat_map
    (fun ts =>
       let text := removed_and_trimmed keywords (ts_text ts) in
       if (overlaps seg ts && negb (PyStr.is_empty text))%bool
       then [(cue_span offset seg ts, text)]
       else [])
    transcript.

(** The claimed cues of all segments, segment after segment. *)
Definition claimed_cues (keywords : list string)
    (transcript : list TranscriptSegment) (enabled : list Segment)
  : list (Q * Q * string) :=
  flat_map
    (fun k =>
       match nth_error enabled k with
       | Some seg =>
           claimed_segment_cues keywords transcript (output_offset enabled k)
                                seg
       | None => []
       end)
    (seq 0 (List.length enabled)).

End SrtProps.

(** Vocabulary of the range of the floats. The largest float is near
    2^1024: a product or a sum beyond it is an infinity, and [int] of an
    infinity raises [OverflowError], which the model does not have. The
    properties that say that a time code is returned are stated for
    numbers of at most 2^1000 in magnitude, where every product and sum
    the code forms is a finite float. *)

Module FloatRange.

Import ExporterMore.

Definition finite (x : Q) : Prop := PyNum.abs x <= (2 # 1) ^ 1000.

(** The four times of every event are finite, and so are their products
    with the frame rate. *)
Definition finite_events (fps : Q) (events : list EdlEvent) : Prop :=
  Forall
    (fun ev =>
       Forall (fun t => finite t /\ finite (t * fps))
              [ev_src_in ev; ev_src_out ev; ev_rec_in ev; ev_rec_out ev])
    events.

End FloatRange.

(** * Proofs *)

(** ** Comparisons *)

Module NumFacts.

Lemma Qlt_bool_true (a b : Q) : PyNum.Qlt_bool a b = true <-> a < b.
Proof.
  unfold PyNum.Qlt_bool. rewrite negb_true_iff.
  split; intro H.
  - apply Qnot_le_lt. intro Hle. apply Qle_bool_iff in Hle. congruence.
  - destruct (Qle_bool b a) eqn:E; [|reflexivity].
    apply Qle_bool_iff in E. lra.
Qed.

Lemma Qlt_bool_false (a b : Q) : PyNum.Qlt_bool a b = false <-> b <= a.
Proof.
  unfold PyNum.Qlt_bool. rewrite negb_false_iff. apply Qle_bool_iff.
Qed.

Lemma Qle_bool_false (a b : Q) : Qle_bool a b = false <-> b < a.
Proof.
  rewrite <- Qlt_bool_true. unfold PyNum.Qlt_bool.
  destruct (Qle_bool a b); simpl; intuition congruence.
Qed.

Lemma max_cases (a b : Q) :
  (a < b /\ PyNum.max a b = b) \/ (b <= a /\ PyNum.max a b = a).
Proof.
  unfold PyNum.max. destruct (PyNum.Qlt_bool a b) eqn:E.
  - left. apply Qlt_bool_true in E. auto.
  - right. apply Qlt_bool_false in E. auto.
Qed.

Lemma min_cases (a b : Q) :
  (b < a /\ PyNum.min a b = b) \/ (a <= b /\ PyNum.min a b = a).
Proof.
  unfold PyNum.min. destruct (PyNum.Qlt_bool b a) eqn:E.
  - left. apply Qlt_bool_true in E. auto.
  - right. apply Qlt_bool_false in E. auto.
Qed.

Lemma max_l (a b : Q) : a <= PyNum.max a b.
Proof. destruct (max_cases a b) as [[H ->]|[H ->]]; lra. Qed.

Lemma max_r (a b : Q) : b <= PyNum.max a b.
Proof. destruct (max_cases a b) as [[H ->]|[H ->]]; lra. Qed.

End NumFacts.

(** ** The stable sort *)

Section StableSortFacts.
Context {A : Type} (key : A -> Q).

Let le_key (a b : A) : Prop := key a <= key b.

Lemma insert_by_perm (x : A) (l : list A) :
  Permutation (insert_by key x l) (x :: l).
Proof.
  induction l as [|y l IH]; simpl.
  - apply Permutation_refl.
  - destruct (Qle_bool (key x) (key y)).
    + apply Permutation_refl.
    + eapply perm_trans; [apply perm_skip, IH | apply perm_swap].
Qed.

Lemma sorted_by_perm (l : list A) : Permutation (sorted_by key l) l.
Proof.
  induction l as [|x l IH]; simpl.
  - constructor.
  - eapply perm_trans; [apply insert_by_perm | apply perm_skip, IH].
Qed.

Lemma insert_by_sorted (x : A) (l : list A) :
  StronglySorted le_key l -> StronglySorted le_key (insert_by key x l).
Proof.
  induction 1 as [|y l Hs IH Hall]; simpl.
  - repeat constructor.
  - destruct (Qle_bool (key x) (key y)) eqn:E.
    + apply Qle_bool_iff in E.
      constructor; [constructor; assumption|].
      constructor; [exact E|].
      eapply Forall_impl; [|exact Hall].
      intros z Hz. unfold le_key in *. lra.
    + apply NumFacts.Qle_bool_false in E.
      constructor; [exact IH|].
      eapply Permutation_Forall; [apply Permutation_sym, insert_by_perm|].
      constructor; [unfold le_key; lra | exact Hall].
Qed.

Lemma sorted_by_sorted (l : list A) : StronglySorted le_key (sorted_by key l).
Proof.
  induction l as [|x l IH]; simpl.
  - constructor.
  - apply insert_by_sorted, IH.
Qed.

(** Sorting a sorted list changes nothing: the sort is stable. *)
Lemma sorted_by_fixed (l : list A) :
  StronglySorted le_key l -> sorted_by key l = l.
Proof.
  induction 1 as [|x l Hs IH Hall]; simpl.
  - reflexivity.
  - rewrite IH. destruct l as [|y l]; [reflexivity|]. simpl.
    inversion Hall as [|? ? Hxy _]; subst.
    apply Qle_bool_iff in Hxy. rewrite Hxy. reflexivity.
Qed.

End StableSortFacts.

(** ** The overlap merge *)

Module MergeFacts.

Import Slicer Props.

Lemma last_opt_snoc {A : Type} (l : list A) (x : A) :
  last_opt (l ++ [x]) = Some x.
Proof.
  unfold last_opt. rewrite map_app. simpl. apply last_last.
Qed.

Lemma last_opt_nil {A : Type} : last_opt (@nil A) = None.
Proof. reflexivity. Qed.

(** The loop on [merged = pre ++ [last]] leaves [pre] alone. *)
Lemma fold_merge_body (rest pre : list Segment) (last : Segment) :
  fold_left merge_body rest (pre ++ [last]) = pre ++ merge_from last rest.
Proof.
  revert pre last.
  induction rest as [|seg rest IH]; intros pre last; simpl.
  - reflexivity.
  - unfold merge_body at 2. rewrite last_opt_snoc, removelast_last.
    destruct (Qle_bool (seg_start seg) (seg_end last + (5 # 100))).
    + apply IH.
    + rewrite IH, <- app_assoc. reflexivity.
Qed.

Lemma merge_overlapping_unfold (l : list Segment) :
  _merge_overlapping l =
  match sorted_by seg_start l with
  | [] => []
  | s0 :: rest => merge_from s0 rest
  end.
Proof.
  destruct l as [|x l]; [reflexivity|].
  unfold _merge_overlapping.
  destruct (sorted_by seg_start (x :: l)) as [|s0 rest]; [reflexivity|].
  apply (fold_merge_body rest [] s0).
Qed.

Lemma set_end_same (s : Segment) : set_end s (seg_end s) = s.
Proof. destruct s; reflexivity. Qed.

Lemma set_end_twice (s : Segment) (e e' : Q) :
  set_end (set_end s e) e' = set_end s e'.
Proof. reflexivity. Qed.

(** The head of the result starts where [last] does. *)
Lemma merge_from_head (rest : list Segment) (last : Segment) :
  exists e tl, merge_from last rest = set_end last e :: tl.
Proof.
  revert last. induction rest as [|seg rest IH]; intros last; simpl.
  - exists (seg_end last), []. now rewrite set_end_same.
  - destruct (Qle_bool _ _).
    + destruct (IH (set_end last (PyNum.max (seg_end last) (seg_end seg))))
        as (e & tl & ->).
      exists e, tl. reflexivity.
    + exists (seg_end last), (merge_from seg rest). now rewrite set_end_same.
Qed.

(** Neighbours of the result are more than the tolerance apart. *)
Lemma merge_from_gap (rest : list Segment) (last : Segment) :
  Sorted gap (merge_from last rest).
Proof.
  revert last. induction rest as [|seg rest IH]; intros last; simpl.
  - repeat constructor.
  - destruct (Qle_bool _ _) eqn:E.
    + apply IH.
    + constructor; [apply IH|].
      destruct (merge_from_head rest seg) as (e & tl & ->).
      constructor. unfold gap. simpl.
      now apply NumFacts.Qle_bool_false in E.
Qed.

Lemma merge_from_sorted (rest : list Segment) (last : Segment) :
  StronglySorted le_start (last :: rest) ->
  StronglySorted le_start (merge_from last rest)
  /\ Forall (le_start last) (merge_from last rest).
Proof.
  revert last. induction rest as [|seg rest IH]; intros last Hs; simpl.
  - split; repeat constructor. unfold le_start. lra.
  - inversion Hs as [|? ? Hs' Hall]; subst.
    inversion Hall as [|? ? Hseg Hrest]; subst.
    destruct (Qle_bool _ _).
    + set (last' := set_end last _).
      destruct (IH last') as [H1 H2].
      { inversion Hs'; subst. constructor; assumption. }
      split; assumption.
    + destruct (IH seg Hs') as [H1 H2].
      assert (Forall (le_start last) (merge_from seg rest)).
      { eapply Forall_impl; [|exact H2].
        unfold le_start in *. intros; lra. }
      split; constructor; try assumption.
      unfold le_start. lra.
Qed.

(** Sorted by start with gaps between neighbours: every earlier segment
    ends before any later one starts. *)
Lemma gap_sorted_before (l : list Segment) :
  Sorted gap l -> StronglySorted le_start l ->
  ForallOrdPairs (fun a b => seg_end a < seg_start b) l.
Proof.
  induction l as [|a l IH]; intros Hg Hs.
  - constructor.
  - inversion Hg as [|? ? Hg' Hhd]; subst.
    inversion Hs as [|? ? Hs' Hall]; subst.
    constructor; [|apply IH; assumption].
    destruct l as [|b l]; [constructor|].
    inversion Hhd as [|? ? Hab]; subst.
    inversion Hs' as [|? ? _ Hb]; subst.
    unfold gap in Hab.
    constructor; [lra|].
    eapply Forall_impl; [|exact Hb]. unfold le_start. intros; lra.
Qed.

Lemma before_not_overlap (a b : Segment) :
  seg_end a < seg_start b -> ~ overlap a b.
Proof.
  intros H (t & [_ Ha] & [Hb _]). lra.
Qed.

Lemma ForallOrdPairs_impl {A : Type} (P Q : A -> A -> Prop) (l : list A) :
  (forall a b, P a b -> Q a b) -> ForallOrdPairs P l -> ForallOrdPairs Q l.
Proof.
  intros HPQ. induction 1 as [|a l Ha _ IH]; constructor; [|exact IH].
  eapply Forall_impl; [|exact Ha]. intros b. apply HPQ.
Qed.

(** The result of the merge pass: sorted, with gaps. *)
Lemma merge_overlapping_gap (l : list Segment) :
  Sorted gap (_merge_overlapping l).
Proof.
  rewrite merge_overlapping_unfold.
  destruct (sorted_by seg_start l); [constructor | apply merge_from_gap].
Qed.

Lemma merge_overlapping_sorted (l : list Segment) :
  StronglySorted le_start (_merge_overlapping l).
Proof.
  rewrite merge_overlapping_unfold.
  pose proof (sorted_by_sorted seg_start l) as Hs.
  destruct (sorted_by seg_start l); [constructor|].
  now apply merge_from_sorted.
Qed.

Lemma merge_overlapping_invariant (l : list Segment) :
  pairwise_non_overlapping (_merge_overlapping l)
  /\ sorted_ascending_by_start (_merge_overlapping l).
Proof.
  split; [|apply merge_overlapping_sorted].
  eapply ForallOrdPairs_impl; [apply before_not_overlap|].
  apply gap_sorted_before;
    [apply merge_overlapping_gap | apply merge_overlapping_sorted].
Qed.

(** With gaps between all neighbours the loop merges nothing. *)
Lemma merge_from_fixed (rest : list Segment) (last : Segment) :
  Sorted gap (last :: rest) -> merge_from last rest = last :: rest.
Proof.
  revert last. induction rest as [|seg rest IH]; intros last Hg; simpl.
  - reflexivity.
  - inversion Hg as [|? ? Hg' Hhd]; subst.
    inversion Hhd as [|? ? Hab]; subst.
    apply NumFacts.Qle_bool_false in Hab. rewrite Hab.
    now rewrite IH.
Qed.

Lemma merge_overlapping_fixed (l : list Segment) :
  Sorted gap l -> StronglySorted le_start l -> _merge_overlapping l = l.
Proof.
  intros Hg Hs. rewrite merge_overlapping_unfold.
  rewrite (sorted_by_fixed seg_start l Hs).
  destruct l; [reflexivity | now apply merge_from_fixed].
Qed.

(** Every returned segment is an input segment, but for its end. *)
Lemma merge_from_origin (rest : list Segment) (last o : Segment) :
  In o (merge_from last rest) ->
  exists h, In h (last :: rest) /\ o = set_end h (seg_end o).
Proof.
  revert last. induction rest as [|seg rest IH]; intros last; simpl.
  - intros [<-|[]]. exists last. rewrite set_end_same. auto.
  - destruct (Qle_bool _ _).
    + intros Ho. destruct (IH _ Ho) as (h & [<-|Hh] & Heq).
      * exists last. split; [auto|]. exact Heq.
      * exists h. auto.
    + intros [<-|Ho].
      * exists last. rewrite set_end_same. auto.
      * destruct (IH _ Ho) as (h & Hh & Heq). exists h. simpl. auto.
Qed.

Lemma merge_overlapping_origin (l : list Segment) (o : Segment) :
  In o (_merge_overlapping l) ->
  exists h, In h l /\ o = set_end h (seg_end o).
Proof.
  rewrite merge_overlapping_unfold.
  pose proof (sorted_by_perm seg_start l) as Hp.
  destruct (sorted_by seg_start l) as [|s0 rest]; [intros []|].
  intros Ho. destruct (merge_from_origin _ _ _ Ho) as (h & Hh & Heq).
  exists h. split; [|exact Heq].
  eapply Permutation_in; eassumption.
Qed.

Lemma is_max_end_snoc (e : Q) (l : list Segment) (seg : Segment) :
  is_max_end e l -> is_max_end (PyNum.max e (seg_end seg)) (l ++ [seg]).
Proof.
  intros [(s & Hs & He) Hall].
  destruct (NumFacts.max_cases e (seg_end seg)) as [[Hlt ->]|[Hle ->]].
  - split.
    + exists seg. split; [apply in_or_app; simpl; auto | reflexivity].
    + apply Forall_app. split.
      * eapply Forall_impl; [|exact Hall]. simpl. intros; lra.
      * repeat constructor. lra.
  - split.
    + exists s. split; [apply in_or_app; auto | exact He].
    + apply Forall_app. split; [exact Hall|].
      repeat constructor. exact Hle.
Qed.

Lemma is_max_end_single (s : Segment) : is_max_end (seg_end s) [s].
Proof.
  split.
  - exists s. simpl. auto.
  - repeat constructor. lra.
Qed.

(** The result of the loop, group by group. [h] leads the current group,
    [acc] is what it has absorbed so far and [e] its end so far. *)
Lemma merge_from_groups (rest : list Segment) :
  forall (h : Segment) (acc : list Segment) (e : Q),
    is_max_end e (h :: acc) ->
    Forall (le_start h) acc ->
    StronglySorted le_start (h :: rest) ->
    exists groups : list group,
      List.concat (map members groups) = (h :: acc) ++ rest
      /\ Forall2 merged_group groups (merge_from (set_end h e) rest).
Proof.
  induction rest as [|seg rest IH]; intros h acc e Hmax Hacc Hs.
  - exists [(h, acc)]. split.
    + simpl. now rewrite !app_nil_r.
    + constructor; [|constructor].
      repeat split; simpl; try reflexivity; try apply Hmax; exact Hacc.
  - inversion Hs as [|? ? Hs' Hall]; subst.
    inversion Hall as [|? ? Hseg Hrest]; subst.
    inversion Hs' as [|? ? Hs'' Hall']; subst.
    simpl.
    destruct (Qle_bool (seg_start seg) (e + (5 # 100))).
    + destruct (IH h (acc ++ [seg]) (PyNum.max e (seg_end seg)))
        as (groups & Hcat & Hout).
      * apply (is_max_end_snoc e (h :: acc) seg Hmax).
      * apply Forall_app. split; [exact Hacc | repeat constructor; exact Hseg].
      * constructor; assumption.
      * exists groups. split; [|exact Hout].
        rewrite Hcat. simpl. rewrite <- app_assoc. reflexivity.
    + destruct (IH seg [] (seg_end seg)) as (groups & Hcat & Hout).
      * apply is_max_end_single.
      * constructor.
      * exact Hs'.
      * rewrite set_end_same in Hout.
        exists ((h, acc) :: groups). split.
        -- simpl. rewrite Hcat. reflexivity.
        -- constructor; [|exact Hout].
           repeat split; simpl; try reflexivity; try apply Hmax; exact Hacc.
Qed.

Lemma merge_overlapping_groups (l : list Segment) :
  exists groups : list group,
    List.concat (map members groups) = sorted_by seg_start l
    /\ Forall2 merged_group groups (_merge_overlapping l).
Proof.
  rewrite merge_overlapping_unfold.
  pose proof (sorted_by_sorted seg_start l) as Hs.
  destruct (sorted_by seg_start l) as [|s0 rest].
  - exists []. split; [reflexivity | constructor].
  - destruct (merge_from_groups rest s0 [] (seg_end s0)) as (groups & Hcat & Hout).
    + apply is_max_end_single.
    + constructor.
    + exact Hs.
    + rewrite set_end_same in Hout. exists groups. auto.
Qed.

Lemma members_perm (groups : list group) :
  Permutation (List.concat (map members groups))
              (map fst groups ++ absorbed groups).
Proof.
  unfold absorbed.
  induction groups as [|[h t] groups IH]; simpl.
  - constructor.
  - apply perm_skip.
    eapply perm_trans; [apply Permutation_app_head, IH|].
    apply Permutation_app_swap_app.
Qed.

Lemma NoDup_app_disjoint {B : Type} (l1 l2 : list B) (x : B) :
  NoDup (l1 ++ l2) -> In x l1 -> In x l2 -> False.
Proof.
  induction l1 as [|a l1 IH]; simpl; intros Hnd H1 H2.
  - exact H1.
  - apply NoDup_cons_iff in Hnd as [Hnot Hnd].
    destruct H1 as [->|H1].
    + apply Hnot, in_or_app. auto.
    + now apply IH.
Qed.

(** With a field [f] that tells the input segments apart, the value an
    absorbed segment has for it is the value of no returned segment. *)
Lemma absorbed_field_absent {B : Type} (f : Segment -> B)
    (l out : list Segment) (groups : list group) :
  List.concat (map members groups) = sorted_by seg_start l ->
  Forall2 (fun g o => f o = f (fst g)) groups out ->
  NoDup (map f l) ->
  forall s, In s (absorbed groups) -> ~ In (f s) (map f out).
Proof.
  intros Hcat Hout Hnd s Hs Hin.
  assert (Hheads : map f out = map f (map fst groups)).
  { clear -Hout. induction Hout as [|g o gs os Hgo _ IH]; simpl.
    - reflexivity.
    - now rewrite Hgo, IH. }
  rewrite Hheads in Hin.
  assert (Hnd' : NoDup (map f (map fst groups) ++ map f (absorbed groups))).
  { rewrite <- map_app.
    eapply Permutation_NoDup; [|exact Hnd].
    apply Permutation_map.
    eapply perm_trans; [apply Permutation_sym, sorted_by_perm|].
    rewrite <- Hcat. apply members_perm. }
  eapply NoDup_app_disjoint; [exact Hnd' | exact Hin |].
  now apply in_map.
Qed.

End MergeFacts.

(** ** The overlap merge in place *)

Module MergeInPlaceFacts.

Import MergeInPlace Props MergeFacts.

Lemma sorted_by_map {A B : Type} (f : A -> B) (key : B -> Q) (l : list A) :
  map f (sorted_by (fun a => key (f a)) l) = sorted_by key (map f l).
Proof.
  induction l as [|x l IH]; simpl; [reflexivity|].
  rewrite <- IH. generalize (sorted_by (fun a => key (f a)) l) as s.
  induction s as [|y s IHs]; simpl; [reflexivity|].
  destruct (Qle_bool (key (f x)) (key (f y))); simpl; [reflexivity|].
  now rewrite IHs.
Qed.

Lemma heap_set_end_same (h : heap) (a : nat) (e : Q) :
  heap_set_end h a e a = set_end (h a) e.
Proof. unfold heap_set_end. now rewrite Nat.eqb_refl. Qed.

Lemma heap_set_end_other (h : heap) (a b : nat) (e : Q) :
  b <> a -> heap_set_end h a e b = h b.
Proof.
  intros Hb. unfold heap_set_end.
  apply Nat.eqb_neq in Hb. now rewrite Hb.
Qed.

Lemma max_absorbs (a b : Q) : b <= a -> PyNum.max a b = a.
Proof.
  intros H. destruct (NumFacts.max_cases a b) as [[Hlt _]|[_ ->]];
    [lra | reflexivity].
Qed.

Lemma start_kept (h0 h : heap) (a : nat) :
  h a = set_end (h0 a) (seg_end (h a)) -> seg_start (h a) = seg_start (h0 a).
Proof. intros ->. reflexivity. Qed.

Section Loop.

Variable h0 : heap.

(** The segment now at a scanned address is the one of the call, as far as
    the loop reads it. *)
Lemma scanned_value (h : heap) (pre : list nat) (last seg : nat)
    (rest : list nat) :
  loop_invariant h0 h pre last (seg :: rest) ->
  seg_start (h seg) = seg_start (h0 seg)
  /\ PyNum.max (seg_end (h last)) (seg_end (h seg))
     = PyNum.max (seg_end (h last)) (seg_end (h0 seg)).
Proof.
  intros Inv. split; [apply start_kept, Inv|].
  destruct (Nat.eq_dec seg last) as [->|Hne].
  - rewrite !max_absorbs; [reflexivity | apply Inv | lra].
  - rewrite (inv_untouched _ _ _ _ _ Inv seg); simpl; auto.
Qed.

Lemma invariant_merge (h : heap) (pre : list nat) (last seg : nat)
    (rest : list nat) :
  loop_invariant h0 h pre last (seg :: rest) ->
  seg_start (h0 seg) <= seg_end (h last) + (5 # 100) ->
  let h' := heap_set_end h last
              (PyNum.max (seg_end (h last)) (seg_end (h seg))) in
  loop_invariant h0 h' pre last rest /\ values h' pre = values h pre.
Proof.
  intros Inv Htest h'.
  assert (Hpre : forall a, In a pre -> a <> last).
  { intros a Ha ->.
    pose proof (inv_closed _ _ _ _ _ Inv last seg Ha (or_introl eq_refl)).
    lra. }
  pose proof (inv_sorted _ _ _ _ _ Inv) as Hs.
  inversion Hs as [|? ? Hs' Hall]; subst.
  inversion Hall as [|? ? Hseg Hrest]; subst.
  split.
  - constructor.
    + intros a. unfold h'. destruct (Nat.eq_dec a last) as [->|Hne].
      * rewrite heap_set_end_same. simpl.
        rewrite (inv_fields _ _ _ _ _ Inv last) at 1. reflexivity.
      * rewrite heap_set_end_other by exact Hne. apply Inv.
    + intros a. unfold h'. destruct (Nat.eq_dec a last) as [->|Hne].
      * rewrite heap_set_end_same. simpl.
        pose proof (inv_grows _ _ _ _ _ Inv last).
        pose proof (NumFacts.max_l (seg_end (h last)) (seg_end (h seg))).
        lra.
      * rewrite heap_set_end_other by exact Hne. apply Inv.
    + intros a Ha Hne. unfold h'.
      rewrite heap_set_end_other by exact Hne.
      apply (inv_untouched _ _ _ _ _ Inv); simpl; auto.
    + right. unfold h'. rewrite heap_set_end_same. simpl.
      pose proof (NumFacts.max_l (seg_end (h last)) (seg_end (h seg))).
      lra.
    + intros a r Ha Hr. unfold h'.
      rewrite heap_set_end_other by (apply Hpre, Ha).
      apply (inv_closed _ _ _ _ _ Inv); simpl; auto.
    + inversion Hs'; subst. constructor; assumption.
  - unfold values. apply map_ext_in. intros a Ha. unfold h'.
    apply heap_set_end_other, Hpre, Ha.
Qed.

Lemma invariant_append (h : heap) (pre : list nat) (last seg : nat)
    (rest : list nat) :
  loop_invariant h0 h pre last (seg :: rest) ->
  seg_end (h last) + (5 # 100) < seg_start (h0 seg) ->
  loop_invariant h0 h (pre ++ [last]) seg rest /\ h seg = h0 seg.
Proof.
  intros Inv Htest.
  pose proof (inv_sorted _ _ _ _ _ Inv) as Hs.
  inversion Hs as [|? ? Hs' Hall]; subst.
  inversion Hall as [|? ? Hseg Hrest]; subst.
  inversion Hs' as [|? ? Hs'' Hall']; subst.
  assert (Hlast : forall a, In a (seg :: rest) -> a = last -> h a = h0 a).
  { intros a Ha ->. destruct (inv_last _ _ _ _ _ Inv) as [H|H]; [exact H|].
    assert (seg_start (h0 seg) <= seg_start (h0 last)).
    { destruct Ha as [<-|Ha]; [lra|].
      exact (proj1 (Forall_forall _ _) Hall' last Ha). }
    lra. }
  assert (Hval : forall a, In a (seg :: rest) -> h a = h0 a).
  { intros a Ha. destruct (Nat.eq_dec a last) as [E|E].
    - now apply Hlast.
    - now apply (inv_untouched _ _ _ _ _ Inv). }
  split; [|apply Hval; simpl; auto].
  constructor.
  - apply Inv.
  - apply Inv.
  - intros a Ha _. apply Hval. simpl. auto.
  - left. apply Hval. simpl. auto.
  - intros a r Ha Hr. apply in_app_or in Ha as [Ha|[<-|[]]].
    + apply (inv_closed _ _ _ _ _ Inv); simpl; auto.
    + assert (Hx := proj1 (Forall_forall _ _) Hall' r Hr). simpl in Hx. lra.
  - exact Hs'.
Qed.

(** The loop on addresses computes the values of the loop on values. *)
Lemma loop_values (rest : list nat) :
  forall (h : heap) (pre : list nat) (last : nat),
    loop_invariant h0 h pre last rest ->
    let '(h', out) := fold_left merge_body rest (h, pre ++ [last]) in
    values h' out
    = values h pre ++ merge_from (h last) (values h0 rest).
Proof.
  induction rest as [|seg rest IH]; intros h pre last Inv; simpl.
  - unfold values. rewrite map_app. reflexivity.
  - rewrite last_opt_snoc.
    destruct (scanned_value h pre last seg rest Inv) as [Hstart Hmax].
    rewrite Hstart.
    destruct (Qle_bool (seg_start (h0 seg)) (seg_end (h last) + (5 # 100)))
      eqn:E.
    + apply Qle_bool_iff in E.
      destruct (invariant_merge h pre last seg rest Inv E) as [Inv' Hpre].
      specialize (IH _ pre last Inv').
      destruct (fold_left merge_body rest _) as [h' out].
      rewrite IH, Hpre, heap_set_end_same, Hmax. reflexivity.
    + apply NumFacts.Qle_bool_false in E.
      destruct (invariant_append h pre last seg rest Inv E) as [Inv' Hseg].
      specialize (IH h (pre ++ [last]) seg Inv').
      destruct (fold_left merge_body rest _) as [h' out].
      rewrite IH, Hseg. unfold values. rewrite map_app, <- app_assoc.
      reflexivity.
Qed.

End Loop.

(** Reading the returned addresses in the returned heap gives the list
    that the merge on values returns, for every heap and every list of
    addresses, repeated or not. *)
Lemma merge_in_place_values (h : heap) (segments : list nat) :
  let '(h', out) := MergeInPlace._merge_overlapping h segments in
  values h' out = Slicer._merge_overlapping (values h segments).
Proof.
  rewrite merge_overlapping_unfold. unfold values.
  rewrite <- (sorted_by_map h seg_start).
  pose proof (sorted_by_sorted (fun a => seg_start (h a)) segments) as Hs.
  unfold MergeInPlace._merge_overlapping.
  destruct segments as [|x l]; [reflexivity|].
  destruct (sorted_by (fun a => seg_start (h a)) (x :: l)) as [|s0 rest];
    [reflexivity|].
  pose proof (loop_values h rest h [] s0) as H. simpl in H.
  apply H. constructor.
  - intros a. now rewrite set_end_same.
  - intros a. lra.
  - reflexivity.
  - left. reflexivity.
  - intros a r [].
  - exact Hs.
Qed.

End MergeInPlaceFacts.

(** ** The two slicers *)

Module SlicerFacts.

Import Slicer Props MergeFacts.

Lemma fresh_keep_new (new_id : nat -> string) (n : nat) (a b : Q)
    (m : option Marker) : fresh_keep (new_segment new_id n a b m).
Proof. repeat split. Qed.

Lemma fresh_keep_set_end (s : Segment) (e : Q) :
  fresh_keep s -> fresh_keep (set_end s e).
Proof. intros H. exact H. Qed.

Lemma merge_overlapping_fresh (l : list Segment) :
  Forall fresh_keep l -> Forall fresh_keep (_merge_overlapping l).
Proof.
  intros Hl. apply Forall_forall. intros o Ho.
  destruct (merge_overlapping_origin l o Ho) as (h & Hh & ->).
  apply fresh_keep_set_end. revert h Hh. now apply Forall_forall.
Qed.

Section Loops.
Variable new_id : nat -> string.
Variables (total_duration pre_buffer post_buffer : Q).

Lemma backtrack_loop_fresh (ng_markers oks : list Marker)
    (segments : list Segment) :
  Forall fresh_keep segments ->
  Forall fresh_keep
    (fold_left (backtrack_body new_id ng_markers total_duration
                               pre_buffer post_buffer) oks segments).
Proof.
  revert segments. induction oks as [|ok oks IH]; intros segments Hs; simpl.
  - exact Hs.
  - apply IH. unfold backtrack_body.
    destruct (backtrack_bounds _ _ _ _ _ _) as [a b].
    destruct (PyNum.Qlt_bool _ _); [|exact Hs].
    apply Forall_app. split; [exact Hs|].
    repeat constructor.
Qed.

Lemma interval_loop_fresh (start_markers end_markers ms : list Marker)
    (segments : list Segment) :
  Forall fresh_keep segments ->
  Forall fresh_keep
    (fold_left (interval_body new_id start_markers end_markers
                              total_duration pre_buffer post_buffer)
               ms segments).
Proof.
  revert segments. induction ms as [|m ms IH]; intros segments Hs; simpl.
  - exact Hs.
  - apply IH. unfold interval_body.
    destruct (interval_bounds _ _ _ _ _ _) as [a b].
    destruct (PyNum.Qlt_bool _ _); [|exact Hs].
    apply Forall_app. split; [exact Hs|].
    repeat constructor.
Qed.

Lemma slice_backtrack_fresh (markers : list Marker)
    (transcript : list TranscriptSegment) :
  Forall fresh_keep
    (slice_backtrack new_id markers transcript total_duration
                     pre_buffer post_buffer).
Proof.
  unfold slice_backtrack.
  destruct (filter (is_type OK) markers) as [|ok oks].
  - destruct (PyNum.Qlt_bool 0 total_duration); repeat constructor.
  - apply merge_overlapping_fresh, backtrack_loop_fresh. constructor.
Qed.

Lemma slice_interval_fresh (markers : list Marker)
    (transcript : list TranscriptSegment) :
  Forall fresh_keep
    (slice_interval new_id markers transcript total_duration
                    pre_buffer post_buffer).
Proof.
  unfold slice_interval.
  destruct (filter (is_type START) markers) as [|m ms].
  - constructor.
  - apply merge_overlapping_fresh, interval_loop_fresh. constructor.
Qed.

End Loops.

Lemma filter_enabled_keep_fresh (l : list Segment) :
  Forall fresh_keep l -> filter Exporter.is_enabled_keep l = l.
Proof.
  induction 1 as [|s l (Ht & He & _) _ IH]; simpl.
  - reflexivity.
  - unfold Exporter.is_enabled_keep at 1. rewrite Ht, He, IH. reflexivity.
Qed.

Lemma invariant_nil :
  pairwise_non_overlapping [] /\ sorted_ascending_by_start [].
Proof. split; constructor. Qed.

Lemma invariant_single (s : Segment) :
  pairwise_non_overlapping [s] /\ sorted_ascending_by_start [s].
Proof. split; repeat constructor. Qed.

End SlicerFacts.

(** ** Rounding and equal rationals *)

Module RoundFacts.

Lemma Qlt_bool_comp (a a' b b' : Q) :
  a == a' -> b == b' -> PyNum.Qlt_bool a b = PyNum.Qlt_bool a' b'.
Proof.
  intros Ha Hb. unfold PyNum.Qlt_bool. f_equal.
  destruct (Qle_bool b a) eqn:E, (Qle_bool b' a') eqn:E'; try reflexivity.
  - apply Qle_bool_iff in E. rewrite Ha, Hb in E.
    apply Qle_bool_iff in E. congruence.
  - apply Qle_bool_iff in E'. rewrite <- Ha, <- Hb in E'.
    apply Qle_bool_iff in E'. congruence.
Qed.

Lemma round_comp (x y : Q) : x == y -> PyNum.round x = PyNum.round y.
Proof.
  intros H. unfold PyNum.round.
  rewrite (Qfloor_comp x y H).
  rewrite (Qlt_bool_comp (x - inject_Z (Qfloor y)) (y - inject_Z (Qfloor y))
                         (1 # 2) (1 # 2)); [|rewrite H; reflexivity|reflexivity].
  rewrite (Qlt_bool_comp (1 # 2) (1 # 2) (x - inject_Z (Qfloor y))
                         (y - inject_Z (Qfloor y)));
    [|reflexivity|rewrite H; reflexivity].
  reflexivity.
Qed.

Lemma round3_comp (x y : Q) : x == y -> PyNum.round3 x = PyNum.round3 y.
Proof.
  intros H. unfold PyNum.round3.
  rewrite (round_comp (x * 1000) (y * 1000)); [reflexivity|].
  rewrite H. reflexivity.
Qed.

Lemma min_comp (a b b' : Q) : b == b' -> PyNum.min a b == PyNum.min a b'.
Proof.
  intros H. unfold PyNum.min.
  rewrite (Qlt_bool_comp b b' a a H (Qeq_refl a)).
  destruct (PyNum.Qlt_bool b' a); [exact H | reflexivity].
Qed.

End RoundFacts.

(** ** The interval slicer *)

Module IntervalFacts.

Import Slicer IntervalProps DetectorProps.

Lemma filter_head_find {A : Type} (p : A -> bool) (l : list A) :
  match filter p l with
  | x :: _ => find p l = Some x
  | [] => find p l = None
  end.
Proof.
  induction l as [|a l IH]; simpl; [reflexivity|].
  destruct (p a); [reflexivity | exact IH].
Qed.

Lemma find_sorted_first {A : Type} (R : A -> A -> Prop) (p : A -> bool)
    (l : list A) (x : A) :
  (forall a, R a a) ->
  StronglySorted R l -> find p l = Some x ->
  forall y, In y l -> p y = true -> R x y.
Proof.
  intros Hrefl. induction 1 as [|a l Hs IH Hall]; simpl; [discriminate|].
  destruct (p a) eqn:E.
  - intros [= <-] y [<-|Hy] _; [apply Hrefl|].
    revert y Hy. now apply Forall_forall.
  - intros Hf y [<-|Hy] Hp; [congruence|]. now apply IH.
Qed.

Lemma filter_sorted {A : Type} (R : A -> A -> Prop) (p : A -> bool)
    (l : list A) :
  StronglySorted R l -> StronglySorted R (filter p l).
Proof.
  induction 1 as [|a l Hs IH Hall]; simpl; [constructor|].
  destruct (p a); [|exact IH].
  constructor; [exact IH|].
  apply Forall_forall. intros y Hy. apply filter_In in Hy as [Hy _].
  revert y Hy. now apply Forall_forall.
Qed.

End IntervalFacts.

(** ** The detector *)

Module DetectorFacts.

Import Detector DetectorProps.

Lemma getitem_lt {A : Type} (l : list A) (i : nat) :
  (i < List.length l)%nat -> exists a, getitem l i = Return a.
Proof.
  intros Hi. unfold getitem.
  destruct (nth_error l i) eqn:E.
  - eauto.
  - apply nth_error_None in E. lia.
Qed.

Lemma in_range (lo hi n : nat) :
  In n (range lo hi) -> (lo <= n < hi)%nat.
Proof. unfold range. rewrite in_seq. lia. Qed.

Section Detection.

Variable ratio : string -> string -> Q.
Variable words : list TranscriptWord.

Lemma join_words_ok (count from : nat) :
  (from + count <= List.length words)%nat ->
  exists s, join_words words from count = Return s.
Proof.
  revert from. induction count as [|k IH]; intros from Hle; simpl.
  - eauto.
  - destruct (getitem_lt words from) as [w ->]; [lia|]. simpl.
    destruct (IH (S from)) as [s ->]; [lia|]. simpl. eauto.
Qed.

(** A window loop whose windows all fit returns, and the end index it
    answers lies between the start index and the last word. *)
Lemma span_loop_ok (i : nat) (keyword : string) (spans : list nat) :
  (i < List.length words)%nat ->
  Forall (fun span => (1 <= span /\ i + span <= List.length words)%nat) spans ->
  exists is_match end_idx score,
    span_loop ratio words i keyword spans = Return (is_match, end_idx, score)
    /\ (i <= end_idx < List.length words)%nat.
Proof.
  intros Hi. induction 1 as [|span spans [H1 H2] _ IH]; simpl.
  - exists false, i, 0. split; [reflexivity | lia].
  - destruct (join_words_ok span i H2) as [s ->]. simpl.
    destruct (Qle_bool _ _).
    + do 3 eexists. split; [reflexivity | lia].
    + exact IH.
Qed.

Lemma check_word_sequence_ok (i : nat) (keyword : string) :
  (i < List.length words)%nat ->
  exists is_match end_idx score,
    _check_word_sequence ratio words i keyword
    = Return (is_match, end_idx, score)
    /\ (i <= end_idx < List.length words)%nat.
Proof.
  intros Hi. unfold _check_word_sequence.
  destruct (String.length keyword <=? 3)%nat.
  - destruct (getitem_lt words i Hi) as [w ->]. simpl.
    do 3 eexists. split; [reflexivity | lia].
  - apply span_loop_ok; [exact Hi|].
    apply Forall_forall. intros span Hin. apply in_range in Hin. lia.
Qed.

Lemma word_keywords_ok (i : nat) (keyword_map : list (string * MarkerType)) :
  (i < List.length words)%nat ->
  exists found,
    word_keywords ratio words i keyword_map = Return found
    /\ match found with
       | Some (mtype, end_idx, _) =>
           (i <= end_idx < List.length words)%nat
           /\ In mtype (map snd keyword_map)
       | None => True
       end.
Proof.
  intros Hi. induction keyword_map as [|[keyword mtype] km IH]; simpl.
  - exists None. auto.
  - destruct (check_word_sequence_ok i keyword Hi)
      as (is_match & end_idx & score & -> & Hend).
    simpl. destruct is_match.
    + exists (Some (mtype, end_idx, score)). auto.
    + destruct IH as (found & -> & Hfound). exists found. split; [reflexivity|].
      destruct found as [[[t e] sc]|]; [|exact I].
      destruct Hfound. auto.
Qed.


Lemma rounded3_round3 (x : Q) : rounded3 (PyNum.round3 x).
Proof. unfold rounded3, PyNum.round3. eauto. Qed.

(** The word loop returns when its bound covers the words still to scan. *)
Lemma word_loop_ok (keyword_map : list (string * MarkerType)) (fuel : nat) :
  forall (i : nat) (markers : list Marker),
    (List.length words - i <= fuel)%nat ->
    Forall (well_made keyword_map) markers ->
    exists markers',
      word_loop ratio fuel words keyword_map i markers = Return markers'
      /\ Forall (well_made keyword_map) markers'.
Proof.
  induction fuel as [|fuel IH]; intros i markers Hfuel Hm; simpl.
  - destruct (Nat.ltb_spec i (List.length words)); [lia|]. eauto.
  - destruct (Nat.ltb_spec i (List.length words)) as [Hi|Hi]; [|eauto].
    destruct (getitem_lt words i Hi) as [word ->]. simpl.
    destruct (word_keywords_ok i keyword_map Hi) as (found & -> & Hfound).
    simpl. destruct found as [[[mtype end_idx] score]|].
    + destruct Hfound as [Hend Htype].
      destruct (getitem_lt words end_idx) as [end_word ->]; [lia|]. simpl.
      destruct (already_found markers word end_word); simpl.
      * apply IH; [lia | exact Hm].
      * destruct (join_words_ok (end_idx + 1 - i) i) as [text ->]; [lia|].
        simpl. apply IH; [lia|].
        apply Forall_app. split; [exact Hm|].
        repeat constructor; simpl; [apply rounded3_round3 | exact Htype].
    + apply IH; [lia | exact Hm].
Qed.

End Detection.

Section Passes.

Variable ratio : string -> string -> Q.
Variable keyword_map : list (string * MarkerType).

Lemma sentence_keywords_well_made (seg : TranscriptSegment) (seg_text : string)
    (km : list (string * MarkerType)) (markers : list Marker) :
  incl (map snd km) (map snd keyword_map) ->
  Forall (well_made keyword_map) markers ->
  Forall (well_made keyword_map)
         (sentence_keywords ratio seg seg_text km markers).
Proof.
  induction km as [|[keyword mtype] km IH]; intros Hincl Hm; simpl.
  - exact Hm.
  - destruct (Qle_bool _ _).
    + apply Forall_app. split; [exact Hm|].
      repeat constructor; simpl; [apply rounded3_round3|].
      apply Hincl. simpl. auto.
    + apply IH; [|exact Hm]. intros t Ht. apply Hincl. simpl. auto.
Qed.

Lemma sentence_pass_well_made (transcript : list TranscriptSegment)
    (markers : list Marker) :
  Forall (well_made keyword_map) markers ->
  Forall (well_made keyword_map)
         (fold_left (sentence_body ratio keyword_map) transcript markers).
Proof.
  revert markers. induction transcript as [|seg tr IH]; intros markers Hm; simpl.
  - exact Hm.
  - apply IH. apply sentence_keywords_well_made; [apply incl_refl | exact Hm].
Qed.

Lemma word_pass_ok (transcript : list TranscriptSegment)
    (markers : list Marker) :
  Forall (well_made keyword_map) markers ->
  exists markers',
    fold_left (word_body ratio keyword_map) transcript (Return markers)
    = Return markers'
    /\ Forall (well_made keyword_map) markers'.
Proof.
  revert markers. induction transcript as [|seg tr IH]; intros markers Hm; simpl.
  - eauto.
  - destruct (ts_words seg) as [|w ws] eqn:E.
    + apply IH, Hm.
    + rewrite <- E.
      destruct (word_loop_ok ratio (ts_words seg) keyword_map
                             (List.length (ts_words seg)) 0 markers)
        as (markers' & -> & Hm'); [lia | exact Hm |].
      apply IH, Hm'.
Qed.

End Passes.

Lemma keyword_map_kinds (ng_keywords ok_keywords start_keywords end_keywords
    : list string) (t : MarkerType) :
  In t (map snd (build_keyword_map ng_keywords ok_keywords start_keywords
                                   end_keywords)) ->
  match t with
  | NG => ng_keywords
  | OK => ok_keywords
  | START => start_keywords
  | END => end_keywords
  end <> [].
Proof.
  unfold build_keyword_map. rewrite !map_app, !map_map. simpl.
  rewrite !in_app_iff, !in_map_iff.
  intros [H|[H|[H|H]]]; destruct H as (kw & <- & Hin);
    intros ->; exact Hin.
Qed.

End DetectorFacts.

(** ** The subtitle export *)

Module ExportFacts.

Import Exporter ExportProps.

Lemma cue_text_of_cleaned (keywords : list string) (ts : TranscriptSegment) :
  cue_text_of keywords ts = cleaned_text keywords ts.
Proof. destruct keywords; reflexivity. Qed.

Lemma skip_test_overlaps (seg : Segment) (ts : TranscriptSegment) :
  (Qle_bool (ts_end ts) (seg_start seg)
   || Qle_bool (seg_end seg) (ts_start ts))%bool
  = negb (overlaps seg ts).
Proof.
  unfold overlaps, PyNum.Qlt_bool. now rewrite negb_andb, !negb_involutive.
Qed.

Lemma numbered_from_app (n : nat) (l1 l2 : list (Q * Q * string)) :
  numbered_from n (l1 ++ l2)
  = numbered_from n l1 ++ numbered_from (n + List.length l1) l2.
Proof.
  revert n. induction l1 as [|[[a b] t] l1 IH]; intros n; simpl.
  - now rewrite Nat.add_0_r.
  - rewrite IH. do 3 f_equal. lia.
Qed.

Section Loops.

Variable keywords : list string.
Variable transcript : list TranscriptSegment.

(** The sentence loop appends the cues of the segment, numbered from the
    counter. *)
Lemma sentence_loop_cues (seg : Segment) (offset : Q)
    (tr : list TranscriptSegment) (entries : list Cue) (counter : nat) :
  fold_left (sentence_body keywords seg offset) tr (entries, counter)
  = (entries ++ numbered_from counter (segment_cues keywords tr offset seg),
     (counter + List.length (segment_cues keywords tr offset seg))%nat).
Proof.
  revert entries counter.
  induction tr as [|ts tr IH]; intros entries counter; simpl.
  - now rewrite app_nil_r, Nat.add_0_r.
  - rewrite skip_test_overlaps, cue_text_of_cleaned.
    destruct (overlaps seg ts); simpl.
    + destruct (PyStr.is_empty (cleaned_text keywords ts)); simpl.
      * apply IH.
      * rewrite IH, <- app_assoc. simpl. f_equal. lia.
    + apply IH.
Qed.

(** The segment loop appends the cues of the segments in turn. *)
Lemma segment_loop_cues (segs : list Segment) (entries : list Cue)
    (counter : nat) (offset : Q) :
  fst (fst (fold_left (segment_body keywords transcript) segs
                      (entries, counter, offset)))
  = entries
    ++ numbered_from counter (cues_from keywords transcript offset segs).
Proof.
  revert entries counter offset.
  induction segs as [|seg segs IH]; intros entries counter offset; simpl.
  - now rewrite app_nil_r.
  - rewrite sentence_loop_cues, IH, numbered_from_app, <- app_assoc.
    reflexivity.
Qed.

Lemma output_offset_prefix (pre rest : list Segment) :
  output_offset (pre ++ rest) (List.length pre)
  = fold_left (fun acc seg => acc + duration seg) pre 0.
Proof.
  unfold output_offset. f_equal.
  induction pre as [|x pre IH]; simpl.
  - reflexivity.
  - now rewrite IH.
Qed.

Lemma output_offset_snoc (pre rest : list Segment) (seg : Segment) :
  output_offset ((pre ++ [seg]) ++ rest) (List.length (pre ++ [seg]))
  = output_offset (pre ++ seg :: rest) (List.length pre) + duration seg.
Proof.
  rewrite !output_offset_prefix, fold_left_app. reflexivity.
Qed.

(** The running offset is the sum of the durations of the segments
    already processed. *)
Lemma cues_from_offsets (rest pre : list Segment) :
  cues_from keywords transcript
            (output_offset (pre ++ rest) (List.length pre)) rest
  = flat_map
      (fun k =>
         match nth_error (pre ++ rest) k with
         | Some seg =>
             segment_cues keywords transcript
                          (output_offset (pre ++ rest) k) seg
         | None => []
         end)
      (seq (List.length pre) (List.length rest)).
Proof.
  revert pre. induction rest as [|seg rest IH]; intros pre; simpl.
  - reflexivity.
  - rewrite nth_error_app2, Nat.sub_diag by lia. simpl. f_equal.
    specialize (IH (pre ++ [seg])).
    rewrite output_offset_snoc in IH.
    rewrite <- app_assoc in IH. simpl in IH.
    rewrite IH. rewrite length_app. simpl.
    replace (List.length pre + 1)%nat with (S (List.length pre)) by lia.
    reflexivity.
Qed.

Lemma cues_from_expected (enabled : list Segment) :
  cues_from keywords transcript 0 enabled
  = expected_cues keywords transcript enabled.
Proof.
  apply (cues_from_offsets enabled []).
Qed.

End Loops.

End ExportFacts.

(** ** The SRT time code *)

Module TimecodeFacts.

Lemma Qfloor_between (x : Q) (z : Z) :
  inject_Z z <= x -> x < inject_Z (z + 1) -> Qfloor x = z.
Proof.
  intros Hlo Hhi.
  pose proof (Qfloor_le x) as H1. pose proof (Qlt_floor x) as H2.
  assert (Ha : (Qfloor x < z + 1)%Z).
  { rewrite Zlt_Qlt. lra. }
  assert (Hb : (z < Qfloor x + 1)%Z).
  { rewrite Zlt_Qlt. lra. }
  lia.
Qed.

Lemma mod1_lt_1 (s : Q) : PyNum.mod1 s < 1.
Proof.
  unfold PyNum.mod1. pose proof (Qlt_floor s) as H.
  rewrite inject_Z_plus in H. change (inject_Z 1) with 1 in H. lra.
Qed.

(** A fraction of 0.9995 or more rounds to 1000 milliseconds. *)
Lemma fraction_rounds_to_1000 (s : Q) :
  9995 # 10000 <= PyNum.mod1 s ->
  PyNum.round (PyNum.mod1 s * 1000) = 1000%Z.
Proof.
  intros Hlo. pose proof (mod1_lt_1 s) as Hhi.
  set (x := PyNum.mod1 s * 1000).
  assert (Hf : Qfloor x = 999%Z).
  { apply Qfloor_between; unfold x, inject_Z; simpl; lra. }
  unfold PyNum.round. fold x. rewrite Hf.
  assert (Hr : ~ x - inject_Z 999 < 1 # 2) by (unfold x, inject_Z; lra).
  destruct (PyNum.Qlt_bool (x - inject_Z 999) (1 # 2)) eqn:E.
  - apply NumFacts.Qlt_bool_true in E. contradiction.
  - destruct (PyNum.Qlt_bool (1 # 2) (x - inject_Z 999)); reflexivity.
Qed.

Lemma append_assoc (a b c : string) :
  ((a ++ b) ++ c = a ++ (b ++ c))%string.
Proof.
  induction a as [|x a IH]; simpl; [reflexivity | now rewrite IH].
Qed.

(** Then the millisecond field is written with four digits. *)
Lemma timecode_overflow (s : Q) :
  9995 # 10000 <= PyNum.mod1 s ->
  exists hms, Exporter._seconds_to_srt_tc s = (hms ++ ",1000")%string.
Proof.
  intros H. unfold Exporter._seconds_to_srt_tc.
  rewrite (fraction_rounds_to_1000 s H).
  change (PyStr.format_0d 3 1000) with "1000"%string.
  exists (PyStr.format_0d 2 (PyNum.int s / 3600) ++ ":"
          ++ PyStr.format_0d 2 ((PyNum.int s / 60) mod 60) ++ ":"
          ++ PyStr.format_0d 2 (PyNum.int s mod 60))%string.
  rewrite !append_assoc. reflexivity.
Qed.

End TimecodeFacts.

(** ** Examples *)

Module Examples.

Import Sample.

(** Segments that overlap or lie within 50 ms are merged, in start order. *)
Example merge_three :
  Slicer._merge_overlapping
    [seg "c" 5 6; seg "a" 0 1; seg "b" (104 # 100) 2; seg "d" (61 # 10) 7]
  = [seg "a" 0 2; seg "c" 5 6; seg "d" (61 # 10) 7].
Proof. reflexivity. Qed.

(** A segment shared by two places of the list, merged in place. *)
Example merge_shared :
  let h := fun a => match a with
                    | O => seg "a" 0 1
                    | _ => seg "b" (5 # 10) 3
                    end in
  let '(h', out) := MergeInPlace._merge_overlapping h [1; 0; 1]%nat in
  MergeInPlace.values h' out = [seg "a" 0 3].
Proof. reflexivity. Qed.

(** Two OK markers after one NG marker: the second take starts at the NG
    marker again and the two segments are merged. *)
Example backtrack_two_ok :
  Slicer.slice_backtrack (fun n => "seg"%string)
    [mkMarker NG "NG" 2 (25 # 10) 1; mkMarker OK "OK" 10 (105 # 10) 1;
     mkMarker OK "OK" 15 (155 # 10) 1] [] 20 (5 # 10) (3 # 10)
  = [mkSegment "seg" "keep" (2300 # 1000) (14800 # 1000)
               (Some (mkMarker OK "OK" 10 (105 # 10) 1)) true false].
Proof. reflexivity. Qed.

(** With no START marker the interval slicer returns nothing. *)
Example interval_no_start :
  Slicer.slice_interval (fun n => "seg"%string)
    [mkMarker END "end" 5 6 1] [] 20 (5 # 10) (3 # 10) = [].
Proof. reflexivity. Qed.

(** The word pass finds "OK" inside a sentence; the sentence pass has
    already matched the whole sentence, at another span. *)
Example detect_ok_word :
  Detector.detect_markers no_ratio
    [mkTranscriptSegment "well OK" 0 2 [word "well" 0 1; word "OK" 1 2]]
    [] ["OK"%string] None None
  = Return [mkMarker OK "well OK" 0 2 (1000 # 1000);
            mkMarker OK "OK" 1 2 (1000 # 1000)].
Proof. reflexivity. Qed.

(** A window of several words never reaches past the last word. *)
Example detect_long_keyword_at_end :
  Detector.detect_markers no_ratio
    [mkTranscriptSegment "a b" 0 2 [word "a" 0 1; word "b" 1 2]]
    ["start now"%string] [] None None
  = Return [].
Proof. reflexivity. Qed.

Example srt_timecode_hour :
  Exporter._seconds_to_srt_tc (3661 + (1234 # 10000)) = "01:01:01,123"%string.
Proof. reflexivity. Qed.

(** A sentence that overlaps the second segment only in part is clipped and
    moved behind the first segment; the keyword is removed. *)
Example srt_two_segments :
  Exporter.export_srt
    [seg "b" 20 30; seg "a" 0 10]
    [mkTranscriptSegment "Hello OK" 1 2 [];
     mkTranscriptSegment "ok" 3 4 [];
     mkTranscriptSegment "world" 19 21 []]
    (Some ["OK"%string])
  = ("1" ++ nl ++ "00:00:01,000 --> 00:00:02,000" ++ nl ++ "Hello" ++ nl
     ++ nl
     ++ "2" ++ nl ++ "00:00:10,000 --> 00:00:11,000" ++ nl ++ "world" ++ nl)%string.
Proof. reflexivity. Qed.

End Examples.

(** ** The interval slicer in floating point *)

Module FloatFacts.

Import IntervalProps.

(** With the identity as rounding the definitions are those of [Slicer]. *)
Lemma exact_merge (segments : list Segment) :
  FloatSlicer._merge_overlapping (fun q => q) segments
  = Slicer._merge_overlapping segments.
Proof. reflexivity. Qed.

Lemma exact_slice_interval (new_id : nat -> string) (markers : list Marker)
    (transcript : list TranscriptSegment)
    (total_duration pre_buffer post_buffer : Q) :
  FloatSlicer.slice_interval (fun q => q) new_id markers transcript
                             total_duration pre_buffer post_buffer
  = Slicer.slice_interval new_id markers transcript
                          total_duration pre_buffer post_buffer.
Proof. reflexivity. Qed.

Section Loop.

Variable rnd : Q -> Q.
Variable new_id : nat -> string.
Variables (start_markers end_markers : list Marker).
Variables (total_duration pre_buffer post_buffer : Q).

Let body := FloatSlicer.interval_body rnd new_id start_markers end_markers
                                      total_duration pre_buffer post_buffer.
Let candidate := FloatProps.interval_candidate rnd start_markers end_markers
                                               total_duration pre_buffer
                                               post_buffer.

(** The bounds the loop computes are the candidate: the head of the
    filtered list is the first marker that follows. *)
Lemma float_bounds_candidate (start_m : Marker) :
  FloatSlicer.interval_bounds rnd start_markers end_markers total_duration
                              pre_buffer post_buffer start_m
  = candidate start_m.
Proof.
  unfold candidate, FloatSlicer.interval_bounds, FloatProps.interval_candidate.
  fold (follows start_m).
  pose proof (IntervalFacts.filter_head_find (follows start_m) end_markers)
    as He.
  destruct (filter (follows start_m) end_markers) as [|end_m ?];
    rewrite He; [|reflexivity].
  pose proof (IntervalFacts.filter_head_find (follows start_m) start_markers)
    as Hs.
  destruct (filter (follows start_m) start_markers) as [|next ?];
    rewrite Hs; reflexivity.
Qed.

Lemma float_body_candidate (segments : list Segment) (start_m : Marker) :
  body segments start_m
  = segments
    ++ FloatProps.stored_from rnd new_id (List.length segments)
         (if FloatProps.long_enough rnd (candidate start_m)
          then [(fst (candidate start_m), snd (candidate start_m), start_m)]
          else []).
Proof.
  unfold body, FloatSlicer.interval_body.
  rewrite float_bounds_candidate.
  destruct (candidate start_m) as [a b].
  unfold FloatProps.long_enough. simpl.
  destruct (PyNum.Qlt_bool (rnd (a + rnd (1 # 10))) b); simpl.
  - reflexivity.
  - now rewrite app_nil_r.
Qed.

Lemma float_stored_app (n : nat) (k1 k2 : list (Q * Q * Marker)) :
  FloatProps.stored_from rnd new_id n (k1 ++ k2)
  = FloatProps.stored_from rnd new_id n k1
    ++ FloatProps.stored_from rnd new_id (n + List.length k1) k2.
Proof.
  revert n. induction k1 as [|[[a b] m] k1 IH]; intros n; simpl.
  - now rewrite Nat.add_0_r.
  - rewrite IH. do 3 f_equal. lia.
Qed.

Lemma float_stored_length (n : nat) (k : list (Q * Q * Marker)) :
  List.length (FloatProps.stored_from rnd new_id n k) = List.length k.
Proof.
  revert n. induction k as [|[[a b] m] k IH]; intros n; simpl; auto.
Qed.

Lemma float_loop_candidates (ms : list Marker)
    (kept : list (Q * Q * Marker)) :
  fold_left body ms (FloatProps.stored_from rnd new_id 0 kept)
  = FloatProps.stored_from rnd new_id 0
      (kept ++ flat_map
                 (fun start_m =>
                    if FloatProps.long_enough rnd (candidate start_m)
                    then [(fst (candidate start_m), snd (candidate start_m),
                           start_m)]
                    else [])
                 ms).
Proof.
  revert kept. induction ms as [|m ms IH]; intros kept; simpl.
  - now rewrite app_nil_r.
  - rewrite float_body_candidate, float_stored_length.
    rewrite <- (float_stored_app 0 kept), IH, <- app_assoc. reflexivity.
Qed.

End Loop.

(** In exact arithmetic the end of a candidate paired with an END marker
    is min(total_duration, END.start). *)
Lemma exact_candidate_end (start_markers end_markers : list Marker)
    (total_duration pre_buffer post_buffer : Q) (start_m end_m : Marker) :
  find (follows start_m) end_markers = Some end_m ->
  snd (FloatProps.interval_candidate (fun q => q) start_markers end_markers
                                     total_duration pre_buffer post_buffer
                                     start_m)
  == PyNum.min total_duration (marker_start end_m).
Proof.
  intros H. unfold FloatProps.interval_candidate. rewrite H. simpl.
  apply RoundFacts.min_comp. ring.
Qed.

(** The binary64 numbers nearest to 0.1, 0.8 and 0.9, and what the code
    computes for 0.9 - 0.3 + 0.3. *)
Lemma binary64_samples :
  FloatSlicer.binary64 (1 # 10) = 3602879701896397 # 36028797018963968
  /\ FloatSlicer.binary64 (8 # 10) = 3602879701896397 # 4503599627370496
  /\ FloatSlicer.binary64 (9 # 10) = 8106479329266893 # 9007199254740992
  /\ (let b := FloatSlicer.binary64 in
      b (b (b (9 # 10) - b (3 # 10)) + b (3 # 10))
      = 4053239664633447 # 4503599627370496).
Proof. vm_compute. repeat split. Qed.

(** A START marker from 0.5 s to 0.8 s and an END marker from 0.9 s to
    1.2 s, with buffers of 0.3 s: in binary64 the end 0.9 - 0.3 + 0.3 is
    the float above 0.9 and the segment from 0.8 s to 0.9 s is kept; in
    exact arithmetic the candidate is 0.1 s long and is dropped. *)
Lemma interval_boundary_in_floats :
  let b := FloatSlicer.binary64 in
  let start_m := mkMarker START "begin" (b (5 # 10)) (b (8 # 10)) 1 in
  let end_m := mkMarker END "end" (b (9 # 10)) (b (12 # 10)) 1 in
  FloatSlicer.slice_interval b (fun _ => "seg_0"%string) [start_m; end_m] []
                             (b 10) (b (3 # 10)) (b (3 # 10))
  = [mkSegment "seg_0" "keep" (b (8 # 10)) (b (9 # 10)) (Some start_m)
               true false]
  /\ Slicer.slice_interval (fun _ => "seg_0"%string)
       [mkMarker START "begin" (5 # 10) (8 # 10) 1;
        mkMarker END "end" (9 # 10) (12 # 10) 1] [] 10 (3 # 10) (3 # 10)
     = [].
Proof. vm_compute. split; reflexivity. Qed.

End FloatFacts.

(** ** Trimming and keyword removal *)

Module StripFacts.

Import PyStr SrtProps.

Lemma isspace_lower (c : ascii) : isspace (lower_char c) = isspace c.
Proof. destruct c as [[] [] [] [] [] [] [] []]; reflexivity. Qed.

Lemma lower_lower (c : ascii) : lower_char (lower_char c) = lower_char c.
Proof. destruct c as [[] [] [] [] [] [] [] []]; reflexivity. Qed.

Lemma eqb_nocase_space (a b : ascii) :
  eqb_nocase a b = true -> isspace a = isspace b.
Proof.
  unfold eqb_nocase. intros H. apply Ascii.eqb_eq in H.
  rewrite <- (isspace_lower a), <- (isspace_lower b). now rewrite H.
Qed.

Lemma eqb_nocase_lower (a b : ascii) :
  eqb_nocase (lower_char a) b = eqb_nocase a b.
Proof. unfold eqb_nocase. now rewrite lower_lower. Qed.

Lemma rstrip_cons (c : ascii) (s : string) :
  rstrip (String c s)
  = match rstrip s with
    | EmptyString =>
        if isspace c then EmptyString else String c EmptyString
    | r => String c r
    end.
Proof. reflexivity. Qed.

Lemma lstrip_length (s : string) :
  (String.length (lstrip s) <= String.length s)%nat.
Proof.
  induction s as [|c s IH]; simpl; [lia|].
  destruct (isspace c); simpl; lia.
Qed.

Lemma rstrip_length (s : string) :
  (String.length (rstrip s) <= String.length s)%nat.
Proof.
  induction s as [|c s IH]; [simpl; lia|].
  rewrite rstrip_cons. destruct (rstrip s) as [|x r].
  - destruct (isspace c); simpl; lia.
  - simpl in *. lia.
Qed.

Lemma lstrip_lstrip (s : string) : lstrip (lstrip s) = lstrip s.
Proof.
  induction s as [|c s IH]; [reflexivity|]. simpl.
  destruct (isspace c) eqn:E; [exact IH|]. simpl. now rewrite E.
Qed.

Lemma rstrip_rstrip (s : string) : rstrip (rstrip s) = rstrip s.
Proof.
  induction s as [|c s IH]; [reflexivity|].
  rewrite rstrip_cons. destruct (rstrip s) as [|x r] eqn:E.
  - destruct (isspace c) eqn:Ec; [reflexivity|].
    rewrite rstrip_cons. simpl. now rewrite Ec.
  - rewrite rstrip_cons, IH. reflexivity.
Qed.

(** Trimming on the right and on the left commute. *)
Lemma rstrip_lstrip (s : string) : rstrip (lstrip s) = lstrip (rstrip s).
Proof.
  induction s as [|c s IH]; [reflexivity|].
  rewrite rstrip_cons. simpl lstrip at 1.
  destruct (isspace c) eqn:Ec.
  - rewrite IH. destruct (rstrip s) as [|x r]; [reflexivity|].
    simpl. now rewrite Ec.
  - rewrite rstrip_cons.
    destruct (rstrip s) as [|x r]; simpl; now rewrite ?Ec.
Qed.

Lemma strip_strip (s : string) : strip (strip s) = strip s.
Proof.
  unfold strip.
  rewrite (rstrip_lstrip s), lstrip_lstrip, <- (rstrip_lstrip s).
  apply rstrip_rstrip.
Qed.

(** A trimmed string that is not empty has no white space at its ends. *)
Lemma rstrip_fixed_last (s : string) :
  rstrip s = s -> s <> EmptyString -> last_nonspace s.
Proof.
  induction s as [|c s IH]; [congruence|].
  rewrite rstrip_cons. intros H _.
  destruct (rstrip s) as [|x r] eqn:E.
  - destruct (isspace c) eqn:Ec; [discriminate|].
    injection H as <-. exact Ec.
  - injection H as H. rewrite <- H. rewrite <- H in IH.
    apply IH; [reflexivity | discriminate].
Qed.

Lemma trimmed_edges (s : string) :
  trimmed s -> s <> EmptyString -> head_nonspace s /\ last_nonspace s.
Proof.
  unfold trimmed, strip. destruct s as [|c s]; [congruence|].
  intros H _. simpl lstrip in H.
  destruct (isspace c) eqn:Ec.
  - apply (f_equal String.length) in H.
    pose proof (rstrip_length (lstrip s)). pose proof (lstrip_length s).
    simpl in H. lia.
  - split; [exact Ec|]. apply rstrip_fixed_last; [exact H | discriminate].
Qed.

Lemma lower_head (s : string) : head_nonspace s -> head_nonspace (lower s).
Proof. destruct s as [|c s]; simpl; [auto|]. now rewrite isspace_lower. Qed.

Lemma lower_last (s : string) : last_nonspace s -> last_nonspace (lower s).
Proof.
  induction s as [|c s IH]; [auto|].
  destruct s as [|d s]; simpl in *.
  - now rewrite isspace_lower.
  - exact IH.
Qed.

Lemma lower_empty (s : string) : lower s = EmptyString <-> s = EmptyString.
Proof. destruct s; simpl; split; congruence. Qed.

Lemma lower_length (s : string) : String.length (lower s) = String.length s.
Proof. induction s as [|c s IH]; simpl; congruence. Qed.

Lemma prefix_lower (kw s : string) :
  prefix_by eqb_nocase (lower kw) s = prefix_by eqb_nocase kw s.
Proof.
  revert s. induction kw as [|a kw IH]; intros s; [reflexivity|].
  simpl. destruct s as [|b s]; [reflexivity|].
  now rewrite eqb_nocase_lower, IH.
Qed.

(** The scan depends on the keyword through its matches and its length. *)
Lemma delete_matches_ext (eqc : ascii -> ascii -> bool) (kw1 kw2 : string) :
  (forall s, prefix_by eqc kw1 s = prefix_by eqc kw2 s) ->
  String.length kw1 = String.length kw2 ->
  forall skip s, delete_matches eqc kw1 skip s = delete_matches eqc kw2 skip s.
Proof.
  intros Hp Hl skip s. revert skip.
  induction s as [|c s IH]; intros skip; [reflexivity|].
  simpl. destruct skip as [|k]; [|apply IH].
  change (match kw1 with
          | EmptyString => true
          | String a kw' =>
              (eqc a c && prefix_by eqc kw' s)%bool
          end) with (prefix_by eqc kw1 (String c s)).
  change (match kw2 with
          | EmptyString => true
          | String a kw' =>
              (eqc a c && prefix_by eqc kw' s)%bool
          end) with (prefix_by eqc kw2 (String c s)).
  rewrite Hp, Hl. destruct (prefix_by eqc kw2 (String c s)).
  - apply IH.
  - now rewrite IH.
Qed.

(** Removing a keyword without regard to case does not depend on the case
    of the keyword. *)
Lemma re_sub_lower (kw s : string) :
  re_sub_nocase (lower kw) s = re_sub_nocase kw s.
Proof.
  unfold re_sub_nocase. destruct kw as [|a kw]; [reflexivity|].
  change (lower (String a kw)) with (String (lower_char a) (lower kw)).
  change (String (lower_char a) (lower kw)) with (lower (String a kw)).
  destruct (lower (String a kw)) eqn:E; [discriminate|]. rewrite <- E.
  apply delete_matches_ext.
  - apply prefix_lower.
  - apply lower_length.
Qed.

Section Keyword.

Variable kw : string.
Hypothesis kw_head : head_nonspace kw.
Hypothesis kw_last : last_nonspace kw.

Let dm := delete_matches eqb_nocase kw.

(** No match starts at a white space character. *)
Lemma no_match_at_space (c : ascii) (s : string) :
  isspace c = true -> prefix_by eqb_nocase kw (String c s) = false.
Proof.
  intros Hc. destruct kw as [|a k]; [contradiction|].
  simpl. destruct (eqb_nocase a c) eqn:E; [|reflexivity].
  apply eqb_nocase_space in E. simpl in kw_head. congruence.
Qed.

(** A match ends before the white space at the end of the text. *)
Lemma prefix_rstrip (s : string) :
  prefix_by eqb_nocase kw s = prefix_by eqb_nocase kw (rstrip s).
Proof.
  clear kw_head dm. revert s.
  induction kw as [|a k IH]; intros s; [contradiction|].
  destruct s as [|c s]; [reflexivity|].
  rewrite rstrip_cons. simpl prefix_by at 1.
  destruct k as [|a' k'].
  - simpl in kw_last. simpl.
    destruct (eqb_nocase a c) eqn:E.
    + pose proof (eqb_nocase_space _ _ E) as Es.
      assert (Hc : isspace c = false) by congruence.
      destruct (rstrip s); rewrite ?Hc; simpl; now rewrite E.
    + destruct (rstrip s); [destruct (isspace c)|]; simpl;
        rewrite ?E; reflexivity.
  - specialize (IH kw_last s).
    destruct (rstrip s) as [|x r] eqn:Er.
    + rewrite IH. simpl. rewrite andb_false_r.
      destruct (isspace c); simpl; [reflexivity|].
      now rewrite andb_false_r.
    + rewrite IH. reflexivity.
Qed.

Lemma delete_matches_rstrip (s : string) (skip : nat) :
  rstrip (dm skip s) = rstrip (dm skip (rstrip s)).
Proof.
  revert skip. induction s as [|c s IH]; intros skip; [reflexivity|].
  assert (Hnil : forall k, rstrip s = EmptyString ->
                           rstrip (dm k s) = EmptyString).
  { intros k E. rewrite IH, E. reflexivity. }
  destruct skip as [|k].
  - unfold dm at 1. simpl delete_matches.
    change (match kw with
            | EmptyString => true
            | String a kw' =>
                (eqb_nocase a c && prefix_by eqb_nocase kw' s)%bool
            end) with (prefix_by eqb_nocase kw (String c s)).
    fold dm.
    rewrite (prefix_rstrip (String c s)), (rstrip_cons c s).
    destruct (rstrip s) as [|x r] eqn:Er.
    + destruct (isspace c) eqn:Ec.
      * simpl prefix_by.
        assert (Hk : prefix_by eqb_nocase kw EmptyString = false)
          by (destruct kw; [contradiction | reflexivity]).
        rewrite Hk. rewrite rstrip_cons, (Hnil 0%nat eq_refl), Ec.
        reflexivity.
      * destruct (prefix_by eqb_nocase kw (String c EmptyString)) eqn:Ep.
        -- rewrite (Hnil _ eq_refl). unfold dm. simpl. rewrite Ep.
           destruct (String.length kw - 1)%nat; reflexivity.
        -- rewrite rstrip_cons, (Hnil 0%nat eq_refl), Ec.
           unfold dm. simpl. rewrite Ep. simpl. now rewrite Ec.
    + destruct (prefix_by eqb_nocase kw (String c (String x r))) eqn:Ep.
      * rewrite IH. unfold dm at 2. simpl delete_matches.
        change (match kw with
                | EmptyString => true
                | String a kw' =>
                    (eqb_nocase a c
                     && prefix_by eqb_nocase kw' (String x r))%bool
                end) with (prefix_by eqb_nocase kw (String c (String x r))).
        rewrite Ep. reflexivity.
      * rewrite rstrip_cons, IH. unfold dm at 2. simpl delete_matches.
        change (match kw with
                | EmptyString => true
                | String a kw' =>
                    (eqb_nocase a c
                     && prefix_by eqb_nocase kw' (String x r))%bool
                end) with (prefix_by eqb_nocase kw (String c (String x r))).
        rewrite Ep. rewrite rstrip_cons. reflexivity.
  - unfold dm at 1. simpl delete_matches. fold dm. rewrite IH.
    rewrite (rstrip_cons c s).
    destruct (rstrip s) as [|x r] eqn:Er.
    + destruct (isspace c); unfold dm; simpl;
        destruct k; reflexivity.
    + reflexivity.
Qed.

Lemma delete_matches_lstrip (s : string) :
  strip (dm 0 (lstrip s)) = strip (dm 0 s).
Proof.
  induction s as [|c s IH]; [reflexivity|].
  simpl lstrip. destruct (isspace c) eqn:Ec; [|reflexivity].
  rewrite IH. unfold dm at 2. simpl delete_matches.
  change (match kw with
          | EmptyString => true
          | String a kw' =>
              (eqb_nocase a c && prefix_by eqb_nocase kw' s)%bool
          end) with (prefix_by eqb_nocase kw (String c s)).
  rewrite (no_match_at_space c s Ec). fold dm.
  unfold strip. simpl lstrip. now rewrite Ec.
Qed.

(** Trimming the text first does not change what is left of it after the
    keyword is removed and the text trimmed. *)
Lemma delete_matches_strip (s : string) :
  strip (dm 0 (strip s)) = strip (dm 0 s).
Proof.
  assert (H : forall u, strip (dm 0 (rstrip u)) = strip (dm 0 u)).
  { intros u. unfold strip.
    rewrite (rstrip_lstrip (dm 0 (rstrip u))), (rstrip_lstrip (dm 0 u)).
    f_equal. symmetry. apply delete_matches_rstrip. }
  change (strip s) with (rstrip (lstrip s)).
  rewrite H. apply delete_matches_lstrip.
Qed.

End Keyword.

Lemma trimmed_lower_edges (kw : string) : trimmed kw -> edges (lower kw).
Proof.
  intros H. destruct kw as [|a k] eqn:E; [now left|]. right.
  destruct (trimmed_edges (String a k) H) as [Hh Hl]; [discriminate|].
  split; [now apply lower_head | now apply lower_last].
Qed.

Lemma re_sub_strip (kw s : string) :
  edges kw ->
  strip (re_sub_nocase kw (strip s)) = strip (re_sub_nocase kw s).
Proof.
  intros [->|[Hh Hl]].
  - apply strip_strip.
  - unfold re_sub_nocase. destruct kw as [|a k] eqn:E; [contradiction|].
    rewrite <- E in *. now apply delete_matches_strip.
Qed.

(** Removing the keywords in turn and trimming after each leaves what
    removing them all and trimming once leaves. *)
Lemma each_trimmed_once (keywords : list string) (s : string) :
  Forall edges keywords ->
  fold_left (fun t kw => strip (re_sub_nocase kw t)) keywords (strip s)
  = strip (fold_left (fun t kw => re_sub_nocase kw t) keywords s).
Proof.
  intros H. revert s. induction H as [|kw kws Hk _ IH]; intros s; simpl.
  - reflexivity.
  - rewrite (re_sub_strip kw s Hk). apply IH.
Qed.

Lemma removed_lower (keywords : list string) (s : string) :
  ExportProps.removed_and_trimmed (map lower keywords) s
  = ExportProps.removed_and_trimmed keywords s.
Proof.
  unfold ExportProps.removed_and_trimmed. f_equal. revert s.
  induction keywords as [|kw kws IH]; intros s; simpl; [reflexivity|].
  now rewrite re_sub_lower, IH.
Qed.

(** On a trimmed sentence and trimmed keywords, the text the code keeps is
    the text with all keywords removed and then trimmed. *)
Lemma cleaned_removed (keywords : list string) (ts : TranscriptSegment) :
  Forall trimmed keywords -> trimmed (ts_text ts) ->
  ExportProps.cleaned_text (map lower keywords) ts
  = ExportProps.removed_and_trimmed keywords (ts_text ts).
Proof.
  intros Hk Ht. rewrite <- removed_lower.
  unfold ExportProps.cleaned_text, ExportProps.removed_and_trimmed.
  destruct keywords as [|kw kws]; simpl.
  - symmetry. exact Ht.
  - inversion Hk as [|? ? _ Hks]; subst.
    apply each_trimmed_once.
    clear - Hks. induction Hks as [|k ks Hk' _ IH]; simpl; constructor;
      [now apply trimmed_lower_edges | exact IH].
Qed.

(** The cues of the code are the claimed ones. *)
Lemma segment_cues_claimed (keywords : list string)
    (transcript : list TranscriptSegment) (offset : Q) (seg : Segment) :
  Forall trimmed keywords ->
  Forall (fun ts => trimmed (ts_text ts)) transcript ->
  ExportProps.segment_cues (map lower keywords) transcript offset seg
  = claimed_segment_cues keywords transcript offset seg.
Proof.
  intros Hk Ht. unfold ExportProps.segment_cues, claimed_segment_cues.
  induction Ht as [|ts tr Hts _ IH]; simpl; [reflexivity|].
  rewrite (cleaned_removed keywords ts Hk Hts), IH. reflexivity.
Qed.

Lemma expected_cues_claimed (keywords : list string)
    (transcript : list TranscriptSegment) (enabled : list Segment) :
  Forall trimmed keywords ->
  Forall (fun ts => trimmed (ts_text ts)) transcript ->
  ExportProps.expected_cues (map lower keywords) transcript enabled
  = claimed_cues keywords transcript enabled.
Proof.
  intros Hk Ht. unfold ExportProps.expected_cues, claimed_cues.
  apply flat_map_ext. intros k.
  destruct (nth_error enabled k); [|reflexivity].
  now apply segment_cues_claimed.
Qed.

End StripFacts.

(** * The claims *)

Import Slicer Props DetectorProps IntervalProps.
Import ExportProps SrtProps.

(** C1. The result of the overlap-merge pass is pairwise non-overlapping and
    sorted ascending by start, for every list of segments; so is every list
    of segments returned by [slice_backtrack] and by [slice_interval]. *)
Theorem merged_segments_non_overlapping_sorted :
  (forall segments : list Segment,
      pairwise_non_overlapping (_merge_overlapping segments)
      /\ sorted_ascending_by_start (_merge_overlapping segments))
  /\ (forall new_id markers transcript total_duration pre_buffer post_buffer,
         let out := slice_backtrack new_id markers transcript total_duration
                                    pre_buffer post_buffer in
         pairwise_non_overlapping out /\ sorted_ascending_by_start out)
  /\ (forall new_id markers transcript total_duration pre_buffer post_buffer,
         let out := slice_interval new_id markers transcript total_duration
                                   pre_buffer post_buffer in
         pairwise_non_overlapping out /\ sorted_ascending_by_start out).
Proof.
  split; [|split].
  - apply MergeFacts.merge_overlapping_invariant.
  - intros new_id markers transcript total pre post. unfold slice_backtrack.
    destruct (filter (is_type OK) markers).
    + destruct (PyNum.Qlt_bool 0 total).
      * apply SlicerFacts.invariant_single.
      * apply SlicerFacts.invariant_nil.
    + apply MergeFacts.merge_overlapping_invariant.
  - intros new_id markers transcript total pre post. unfold slice_interval.
    destruct (filter (is_type START) markers).
    + apply SlicerFacts.invariant_nil.
    + apply MergeFacts.merge_overlapping_invariant.
Qed.

(** C2. One NG marker at [2.0, 2.5] and one OK marker at [10.0, 10.5], a
    total duration of 20 and buffers 0.5 and 0.3: [slice_backtrack] returns
    exactly one segment, from 2.3 to 9.8, whichever marker comes first in the
    list and whatever the words and confidences of the markers. *)
Theorem backtrack_literal_scenario
    (new_id : nat -> string) (w_ng w_ok : string) (c_ng c_ok : Q)
    (transcript : list TranscriptSegment) :
  let ng := mkMarker NG w_ng 2 (25 # 10) c_ng in
  let ok := mkMarker OK w_ok 10 (105 # 10) c_ok in
  (exists s,
      slice_backtrack new_id [ng; ok] transcript 20 (5 # 10) (3 # 10) = [s]
      /\ seg_start s == 23 # 10 /\ seg_end s == 98 # 10)
  /\ (exists s,
         slice_backtrack new_id [ok; ng] transcript 20 (5 # 10) (3 # 10) = [s]
         /\ seg_start s == 23 # 10 /\ seg_end s == 98 # 10).
Proof.
  split; eexists; (split; [vm_compute; reflexivity | split; reflexivity]).
Qed.

(** C3, as the code has it. With no OK marker in the list and a total
    duration above zero, [slice_backtrack] returns exactly one "keep"
    segment, from 0 to the total duration. *)
Theorem backtrack_no_ok_fallback
    (new_id : nat -> string) (markers : list Marker)
    (transcript : list TranscriptSegment)
    (total_duration pre_buffer post_buffer : Q) :
  Forall (fun m => marker_type m <> OK) markers ->
  0 < total_duration ->
  exists s,
    slice_backtrack new_id markers transcript total_duration
                    pre_buffer post_buffer = [s]
    /\ seg_start s = 0 /\ seg_end s = total_duration
    /\ seg_type s = "keep"%string.
Proof.
  intros Hno Hpos. unfold slice_backtrack.
  assert (Hf : filter (is_type OK) markers = []).
  { induction Hno as [|m l Hm _ IH]; simpl; [reflexivity|].
    unfold is_type at 1. destruct (marker_type m); simpl; try exact IH.
    now elim Hm. }
  rewrite Hf.
  apply NumFacts.Qlt_bool_true in Hpos. rewrite Hpos.
  eexists. repeat split.
Qed.

(** The fallback at a total duration of 60 seconds. *)
Lemma backtrack_no_ok_fallback_60 :
  exists s,
    slice_backtrack (fun _ => "seg_0"%string)
                    [mkMarker NG "NG" 2 (25 # 10) 1] [] 60 (5 # 10) (3 # 10)
    = [s]
    /\ seg_start s = 0 /\ seg_end s = 60 /\ seg_type s = "keep"%string.
Proof.
  apply backtrack_no_ok_fallback.
  - repeat constructor. simpl. discriminate.
  - reflexivity.
Defined.

(** C3 at a total duration of zero: no segment is returned. *)
Lemma backtrack_no_ok_zero_duration :
  ~ (exists s,
        slice_backtrack (fun _ => "seg_0"%string) [] [] 0 (5 # 10) (3 # 10)
        = [s]
        /\ seg_start s == 0 /\ seg_end s == 0).
Proof.
  intros (s & H & _). vm_compute in H. discriminate H.
Qed.

(** C4, as the code has it. In [slice_interval] the candidate of a START
    marker starts at max(0, START.end + postBuffer - preBuffer); it ends at
    min(totalDuration, END.start - postBuffer + postBuffer) for the first
    END marker of the list with END.start > START.end, else at the start of
    the first START marker of the list that starts after START.end, else at
    totalDuration. Each sum and difference is computed as written and
    rounded by the arithmetic, here any rounding [rnd]; in exact
    arithmetic the end is min(totalDuration, END.start). The candidates
    whose end is above start + 0.1 in that arithmetic are stored in order,
    rounded to 3 decimals, and the result is their overlap merge. In a
    marker list sorted by start the first following marker is the nearest
    one. *)
Theorem interval_candidates_clamped
    (rnd : Q -> Q) (new_id : nat -> string) (markers : list Marker)
    (transcript : list TranscriptSegment)
    (total_duration pre_buffer post_buffer : Q) :
  let start_markers := filter (is_type START) markers in
  let end_markers := filter (is_type END) markers in
  (forall start_m,
      FloatSlicer.interval_bounds rnd start_markers end_markers
                                  total_duration pre_buffer post_buffer start_m
      = FloatProps.interval_candidate rnd start_markers end_markers
                                      total_duration pre_buffer post_buffer
                                      start_m)
  /\ FloatSlicer.slice_interval rnd new_id markers transcript total_duration
                                pre_buffer post_buffer
     = FloatSlicer._merge_overlapping rnd
         (FloatProps.stored_from rnd new_id 0
            (FloatProps.interval_kept rnd start_markers end_markers
                                      total_duration pre_buffer post_buffer))
  /\ slice_interval new_id markers transcript total_duration
                    pre_buffer post_buffer
     = FloatSlicer.slice_interval (fun q => q) new_id markers transcript
                                  total_duration pre_buffer post_buffer
  /\ (forall start_m end_m,
        find (follows start_m) end_markers = Some end_m ->
        snd (FloatProps.interval_candidate (fun q => q) start_markers
               end_markers total_duration pre_buffer post_buffer start_m)
        == PyNum.min total_duration (marker_start end_m))
  /\ (StronglySorted le_marker_start markers ->
      forall start_m,
        (forall end_m, find (follows start_m) end_markers = Some end_m ->
           forall e, In e end_markers -> follows start_m e = true ->
                     marker_start end_m <= marker_start e)
        /\ (forall next, find (follows start_m) start_markers = Some next ->
              forall s, In s start_markers -> follows start_m s = true ->
                        marker_start next <= marker_start s)).
Proof.
  intros start_markers end_markers. split; [|split; [|split; [|split]]].
  - intros start_m. apply FloatFacts.float_bounds_candidate.
  - unfold FloatSlicer.slice_interval. fold start_markers end_markers.
    pose proof (FloatFacts.float_loop_candidates rnd new_id start_markers
                  end_markers total_duration pre_buffer post_buffer
                  start_markers []) as H.
    simpl in H. unfold FloatProps.interval_kept.
    destruct start_markers as [|m ms] eqn:E; [reflexivity|].
    rewrite <- E in *. rewrite H. reflexivity.
  - reflexivity.
  - intros start_m end_m. apply FloatFacts.exact_candidate_end.
  - intros Hs start_m.
    assert (Hrefl : forall a, le_marker_start a a)
      by (intros a; unfold le_marker_start; lra).
    split; intros m Hfind x Hx Hp.
    + apply (IntervalFacts.find_sorted_first le_marker_start
               (follows start_m) end_markers m Hrefl
               (IntervalFacts.filter_sorted _ _ _ Hs) Hfind x Hx Hp).
    + apply (IntervalFacts.find_sorted_first le_marker_start
               (follows start_m) start_markers m Hrefl
               (IntervalFacts.filter_sorted _ _ _ Hs) Hfind x Hx Hp).
Qed.

(** The pairing of the first bracket in a sorted list of two brackets, in
    binary64. *)
Lemma interval_candidates_clamped_example :
  let s1 := mkMarker START "begin" 1 2 1 in
  let e1 := mkMarker END "end" 5 6 1 in
  let s2 := mkMarker START "begin" 8 9 1 in
  let e2 := mkMarker END "end" 12 13 1 in
  (forall end_m, find (follows s1) [e1; e2] = Some end_m ->
     forall e, In e [e1; e2] -> follows s1 e = true ->
               marker_start end_m <= marker_start e)
  /\ (forall next, find (follows s1) [s1; s2] = Some next ->
        forall s, In s [s1; s2] -> follows s1 s = true ->
                  marker_start next <= marker_start s).
Proof.
  intros s1 e1 s2 e2.
  apply (interval_candidates_clamped FloatSlicer.binary64
           (fun _ => "seg_0"%string)
           [s1; e1; s2; e2] [] 20 (5 # 10) (3 # 10)).
  repeat constructor; unfold le_marker_start; simpl; lra.
Defined.

(** C4 as stated, at a START marker that ends at 0.1 s: the candidate does
    not start at START.end + postBuffer - preBuffer = -0.1 but at 0. *)
Lemma interval_start_clamped_at_zero :
  let start_m := mkMarker START "begin" 0 (1 # 10) 1 in
  let end_m := mkMarker END "end" 5 (55 # 10) 1 in
  ~ (fst (interval_bounds [start_m] [end_m] 20 (5 # 10) (3 # 10) start_m)
     == marker_end start_m + (3 # 10) - (5 # 10)
     /\ snd (interval_bounds [start_m] [end_m] 20 (5 # 10) (3 # 10) start_m)
        == marker_start end_m).
Proof.
  intros start_m end_m [H _]. vm_compute in H. discriminate H.
Qed.

(** C5. The overlap-merge pass is idempotent: merging a merged list gives
    the same list, segment for segment. *)
Theorem merge_overlapping_idempotent (segments : list Segment) :
  _merge_overlapping (_merge_overlapping segments) = _merge_overlapping segments.
Proof.
  apply MergeFacts.merge_overlapping_fixed.
  - apply MergeFacts.merge_overlapping_gap.
  - apply MergeFacts.merge_overlapping_sorted.
Qed.



(** C7. For every transcript and every keyword configuration
    [detect_markers] returns: it raises no [IndexError] and its word loop
    ends within its bound. The markers returned are sorted ascending by
    start, each confidence is a number of thousandths, every marker is of a
    kind that has at least one keyword, and an empty transcript gives no
    marker. [ratio] is any similarity function. *)
Theorem detect_markers_returns_sorted
    (ratio : string -> string -> Q) (transcript : list TranscriptSegment)
    (ng_keywords ok_keywords : list string)
    (start_keywords end_keywords : option (list string)) :
  (exists markers,
      Detector.detect_markers ratio transcript ng_keywords ok_keywords
                              start_keywords end_keywords = Return markers
      /\ StronglySorted le_marker_start markers
      /\ Forall (fun m => rounded3 (marker_confidence m)) markers
      /\ Forall (fun m => keywords_of ng_keywords ok_keywords start_keywords
                                      end_keywords (marker_type m) <> [])
                markers)
  /\ Detector.detect_markers ratio [] ng_keywords ok_keywords
                             start_keywords end_keywords = Return [].
Proof.
  split; [|reflexivity].
  unfold Detector.detect_markers.
  set (km := Detector.build_keyword_map _ _ _ _).
  destruct (DetectorFacts.word_pass_ok ratio km transcript
              (fold_left (Detector.sentence_body ratio km) transcript []))
    as (markers & -> & Hm).
  { apply DetectorFacts.sentence_pass_well_made. constructor. }
  simpl. eexists. split; [reflexivity|].
  split; [apply sorted_by_sorted|].
  assert (Hs : Forall (well_made km)
                      (sorted_by marker_start markers)).
  { eapply Permutation_Forall; [|exact Hm].
    apply Permutation_sym, sorted_by_perm. }
  split.
  - eapply Forall_impl; [|exact Hs]. intros m [Hr _]. exact Hr.
  - eapply Forall_impl; [|exact Hs]. intros m [_ Ht].
    apply DetectorFacts.keyword_map_kinds in Ht.
    destruct (marker_type m); exact Ht.
Qed.

(** C8 at 1.9996 s: the fraction rounds to 1000 milliseconds, which is
    written as a four-digit field without carrying into the seconds, where
    the time rounded to the millisecond is 2000 ms. The same four-digit
    field is written for every time whose fraction is 0.9995 or more. *)
Theorem srt_timecode_millisecond_overflow :
  Exporter._seconds_to_srt_tc (19996 # 10000) = "00:00:01,1000"%string
  /\ PyNum.round ((19996 # 10000) * 1000) = 2000%Z
  /\ (forall s, 9995 # 10000 <= PyNum.mod1 s ->
        exists hms,
          Exporter._seconds_to_srt_tc s = (hms ++ ",1000")%string).
Proof.
  split; [vm_compute; reflexivity|].
  split; [vm_compute; reflexivity|].
  apply TimecodeFacts.timecode_overflow.
Qed.

(** C9. Every segment returned by [slice_backtrack] and by [slice_interval]
    has type "keep", is enabled and is not manually adjusted; the exporters'
    filter on enabled "keep" segments therefore keeps all of them. *)
Theorem sliced_segments_fresh_keep
    (new_id : nat -> string) (markers : list Marker)
    (transcript : list TranscriptSegment)
    (total_duration pre_buffer post_buffer : Q) :
  let back := slice_backtrack new_id markers transcript total_duration
                              pre_buffer post_buffer in
  let inter := slice_interval new_id markers transcript total_duration
                              pre_buffer post_buffer in
  Forall fresh_keep back /\ Forall fresh_keep inter
  /\ filter Exporter.is_enabled_keep back = back
  /\ filter Exporter.is_enabled_keep inter = inter.
Proof.
  intros back inter.
  assert (Hb : Forall fresh_keep back) by apply SlicerFacts.slice_backtrack_fresh.
  assert (Hi : Forall fresh_keep inter) by apply SlicerFacts.slice_interval_fresh.
  repeat split; try assumption;
    now apply SlicerFacts.filter_enabled_keep_fresh.
Qed.

(** C10. In the overlap-merge pass the segments, taken in start order, fall
    into groups of neighbours; each returned segment is the first segment of
    its group with id, start, type, trigger marker, enabled and
    manual_adjusted unchanged and its end raised to the largest end of the
    group. When ids (trigger markers) tell the input segments apart, the id
    (trigger marker) of an absorbed segment is that of no returned segment. *)
Theorem merge_keeps_first_of_group (segments : list Segment) :
  exists groups : list group,
    List.concat (map members groups) = sorted_by seg_start segments
    /\ Forall2 merged_group groups (_merge_overlapping segments)
    /\ (NoDup (map seg_id segments) ->
        forall s, In s (absorbed groups) ->
                  ~ In (seg_id s) (map seg_id (_merge_overlapping segments)))
    /\ (NoDup (map trigger_marker segments) ->
        forall s, In s (absorbed groups) ->
                  ~ In (trigger_marker s)
                       (map trigger_marker (_merge_overlapping segments))).
Proof.
  destruct (MergeFacts.merge_overlapping_groups segments) as (groups & Hcat & Hout).
  exists groups. split; [exact Hcat|]. split; [exact Hout|].
  split; intros Hnd.
  - apply (MergeFacts.absorbed_field_absent seg_id segments _ groups Hcat);
      [|exact Hnd].
    eapply Forall2_impl; [|exact Hout]. intros g o Hgo. apply Hgo.
  - apply (MergeFacts.absorbed_field_absent trigger_marker segments _ groups Hcat);
      [|exact Hnd].
    eapply Forall2_impl; [|exact Hout]. intros g o Hgo. apply Hgo.
Qed.

(** Three segments, the second absorbed into the first. *)
Lemma merge_keeps_first_of_group_example :
  let a := mkSegment "seg_a" "keep" 0 1 None true false in
  let b := mkSegment "seg_b" "keep" (5 # 10) 2
                     (Some (mkMarker OK "OK" 3 4 1)) true false in
  let c := mkSegment "seg_c" "keep" 5 6
                     (Some (mkMarker OK "OK" 7 8 1)) true false in
  exists groups : list group,
    List.concat (map members groups) = sorted_by seg_start [c; a; b]
    /\ Forall2 merged_group groups (_merge_overlapping [c; a; b])
    /\ (forall s, In s (absorbed groups) ->
                  ~ In (seg_id s) (map seg_id (_merge_overlapping [c; a; b])))
    /\ (forall s, In s (absorbed groups) ->
                  ~ In (trigger_marker s)
                       (map trigger_marker (_merge_overlapping [c; a; b]))).
Proof.
  intros a b c.
  destruct (merge_keeps_first_of_group [c; a; b]) as (groups & H1 & H2 & H3 & H4).
  exists groups. split; [exact H1|]. split; [exact H2|]. split.
  - apply H3. simpl.
    repeat constructor; simpl; intuition discriminate.
  - apply H4. simpl.
    repeat constructor; simpl; intuition discriminate.
Defined.

(** * Further properties *)

(** ** Rounding *)

Module RoundMore.

(** [round] stays within half a unit. *)
Lemma round_near (x : Q) :
  x - (1 # 2) <= inject_Z (PyNum.round x)
  /\ inject_Z (PyNum.round x) <= x + (1 # 2).
Proof.
  unfold PyNum.round.
  pose proof (Qfloor_le x) as H1. pose proof (Qlt_floor x) as H2.
  rewrite inject_Z_plus in H2. change (inject_Z 1) with 1 in H2.
  destruct (PyNum.Qlt_bool (x - inject_Z (Qfloor x)) (1 # 2)) eqn:E1.
  - apply NumFacts.Qlt_bool_true in E1. lra.
  - apply NumFacts.Qlt_bool_false in E1.
    destruct (PyNum.Qlt_bool (1 # 2) (x - inject_Z (Qfloor x))) eqn:E2.
    + rewrite inject_Z_plus. change (inject_Z 1) with 1. lra.
    + apply NumFacts.Qlt_bool_false in E2.
      destruct (Z.even (Qfloor x)).
      * lra.
      * rewrite inject_Z_plus. change (inject_Z 1) with 1. lra.
Qed.

Lemma round_mono (x y : Q) : x <= y -> (PyNum.round x <= PyNum.round y)%Z.
Proof.
  intros Hxy.
  pose proof (Qfloor_resp_le x y Hxy) as Hf.
  assert (Hcase : (Qfloor x = Qfloor y \/ Qfloor x + 1 <= Qfloor y)%Z) by lia.
  pose proof (Qfloor_le x) as Hx1. pose proof (Qlt_floor x) as Hx2.
  pose proof (Qfloor_le y) as Hy1. pose proof (Qlt_floor y) as Hy2.
  rewrite inject_Z_plus in Hx2, Hy2. change (inject_Z 1) with 1 in Hx2, Hy2.
  assert (Hrx : (Qfloor x <= PyNum.round x <= Qfloor x + 1)%Z).
  { unfold PyNum.round.
    destruct (PyNum.Qlt_bool _ _); [lia|].
    destruct (PyNum.Qlt_bool _ _); [lia|].
    destruct (Z.even _); lia. }
  assert (Hry : (Qfloor y <= PyNum.round y <= Qfloor y + 1)%Z).
  { unfold PyNum.round.
    destruct (PyNum.Qlt_bool _ _); [lia|].
    destruct (PyNum.Qlt_bool _ _); [lia|].
    destruct (Z.even _); lia. }
  destruct Hcase as [Heq|Hlt]; [|lia].
  unfold PyNum.round. rewrite Heq.
  destruct (PyNum.Qlt_bool (x - inject_Z (Qfloor y)) (1 # 2)) eqn:Ex1.
  - destruct (PyNum.Qlt_bool (y - inject_Z (Qfloor y)) (1 # 2)); [lia|].
    destruct (PyNum.Qlt_bool (1 # 2) (y - inject_Z (Qfloor y))); [lia|].
    destruct (Z.even (Qfloor y)); lia.
  - apply NumFacts.Qlt_bool_false in Ex1.
    destruct (PyNum.Qlt_bool (y - inject_Z (Qfloor y)) (1 # 2)) eqn:Ey1.
    { apply NumFacts.Qlt_bool_true in Ey1. lra. }
    destruct (PyNum.Qlt_bool (1 # 2) (x - inject_Z (Qfloor y))) eqn:Ex2.
    + apply NumFacts.Qlt_bool_true in Ex2.
      destruct (PyNum.Qlt_bool (1 # 2) (y - inject_Z (Qfloor y))) eqn:Ey2;
        [lia|].
      apply NumFacts.Qlt_bool_false in Ey2. lra.
    + destruct (PyNum.Qlt_bool (1 # 2) (y - inject_Z (Qfloor y))).
      * destruct (Z.even (Qfloor y)); lia.
      * lia.
Qed.

Lemma round3_near (x : Q) :
  x - (5 # 10000) <= PyNum.round3 x /\ PyNum.round3 x <= x + (5 # 10000).
Proof.
  unfold PyNum.round3.
  destruct (round_near (x * 1000)) as [H1 H2].
  set (r := inject_Z (PyNum.round (x * 1000))) in *.
  split.
  - apply Qle_shift_div_l; [reflexivity|]. lra.
  - apply Qle_shift_div_r; [reflexivity|]. lra.
Qed.

Lemma round3_mono (x y : Q) : x <= y -> PyNum.round3 x <= PyNum.round3 y.
Proof.
  intros H. unfold PyNum.round3.
  assert (Hm : (PyNum.round (x * 1000) <= PyNum.round (y * 1000))%Z).
  { apply round_mono. lra. }
  rewrite Zle_Qle in Hm.
  unfold Qdiv. apply Qmult_le_compat_r; [exact Hm|]. discriminate.
Qed.

Lemma round3_0 : PyNum.round3 0 = 0 / 1000.
Proof. reflexivity. Qed.

Lemma round3_nonneg (x : Q) : 0 <= x -> 0 <= PyNum.round3 x.
Proof.
  intros H. apply round3_mono in H. rewrite round3_0 in H.
  assert (E : 0 / 1000 == 0) by reflexivity. lra.
Qed.

End RoundMore.

(** ** More on the overlap merge *)

Module MergeMore.

Import Slicer Props MergeFacts.

Lemma Forall2_in_r {A B : Type} (R : A -> B -> Prop) (l1 : list A)
    (l2 : list B) (b : B) :
  Forall2 R l1 l2 -> In b l2 -> exists a, In a l1 /\ R a b.
Proof.
  induction 1 as [|x y l1 l2 Hxy _ IH]; simpl; [intros []|].
  intros [<-|Hb].
  - exists x. auto.
  - destruct (IH Hb) as (a & Ha & HR). exists a. auto.
Qed.

Lemma Forall2_in_l {A B : Type} (R : A -> B -> Prop) (l1 : list A)
    (l2 : list B) (a : A) :
  Forall2 R l1 l2 -> In a l1 -> exists b, In b l2 /\ R a b.
Proof.
  induction 1 as [|x y l1 l2 Hxy _ IH]; simpl; [intros []|].
  intros [<-|Ha].
  - exists y. auto.
  - destruct (IH Ha) as (b & Hb & HR). exists b. auto.
Qed.

Lemma members_in (l : list Segment) (groups : list group) (g : group)
    (s : Segment) :
  List.concat (map members groups) = sorted_by seg_start l ->
  In g groups -> In s (members g) -> In s l.
Proof.
  intros Hcat Hg Hs.
  apply (Permutation_in s (sorted_by_perm seg_start l)).
  rewrite <- Hcat. apply in_concat. exists (members g). split; [|exact Hs].
  now apply in_map.
Qed.

(** Every returned segment comes with the input segments of its group. *)
Lemma merged_from_input (l : list Segment) (o : Segment) :
  In o (_merge_overlapping l) ->
  exists h m,
    In h l /\ In m l
    /\ seg_start o = seg_start h
    /\ seg_end h <= seg_end o
    /\ seg_end o = seg_end m.
Proof.
  intros Ho.
  destruct (merge_overlapping_groups l) as (groups & Hcat & Hout).
  destruct (Forall2_in_r _ _ _ o Hout Ho) as (g & Hg & Hf & Hmax & _).
  destruct Hmax as [(m & Hm & Hme) Hall].
  exists (fst g), m. repeat split.
  - apply (members_in l groups g); [exact Hcat | exact Hg | simpl; auto].
  - apply (members_in l groups g); assumption.
  - apply Hf.
  - inversion Hall; subst. assumption.
  - now rewrite Hme.
Qed.

(** Every input segment lies within a returned one. *)
Lemma input_covered (l : list Segment) (s : Segment) :
  In s l ->
  exists o, In o (_merge_overlapping l)
            /\ seg_start o <= seg_start s /\ seg_end s <= seg_end o.
Proof.
  intros Hs.
  destruct (merge_overlapping_groups l) as (groups & Hcat & Hout).
  assert (Hin : In s (List.concat (map members groups))).
  { rewrite Hcat.
    apply (Permutation_in s (Permutation_sym (sorted_by_perm seg_start l))).
    exact Hs. }
  apply in_concat in Hin as (ms & Hms & Hsm).
  apply in_map_iff in Hms as (g & <- & Hg).
  destruct (Forall2_in_l _ _ _ g Hout Hg) as (o & Ho & Hf & Hmax & Hle).
  exists o. split; [exact Ho|].
  destruct Hmax as [_ Hall].
  split.
  - destruct Hf as (_ & -> & _).
    destruct Hsm as [<-|Hsm]; [lra|].
    apply (proj1 (Forall_forall _ _) Hle s Hsm).
  - apply (proj1 (Forall_forall _ _) Hall s Hsm).
Qed.

Lemma merge_from_length (rest : list Segment) (last : Segment) :
  (1 <= List.length (merge_from last rest) <= S (List.length rest))%nat.
Proof.
  revert last. induction rest as [|seg rest IH]; intros last; simpl.
  - lia.
  - destruct (Qle_bool _ _).
    + specialize (IH (set_end last (PyNum.max (seg_end last) (seg_end seg)))).
      lia.
    + specialize (IH seg). simpl. lia.
Qed.

Lemma merge_overlapping_length (l : list Segment) :
  (List.length (_merge_overlapping l) <= List.length l)%nat
  /\ (l <> [] -> _merge_overlapping l <> []).
Proof.
  rewrite merge_overlapping_unfold.
  pose proof (Permutation_length (sorted_by_perm seg_start l)) as Hlen.
  destruct (sorted_by seg_start l) as [|s0 rest].
  - simpl in *. split; [lia|]. destruct l; [auto | discriminate].
  - pose proof (merge_from_length rest s0) as H. simpl in Hlen.
    split; [lia|]. intros _ E. rewrite E in H. simpl in H. lia.
Qed.

End MergeMore.

(** ** The bounds of the sliced segments *)

Module SlicerMore.

Import Slicer Props MergeFacts SlicerProps.

Lemma merge_long (l : list Segment) :
  Forall stored_long l -> Forall stored_long (_merge_overlapping l).
Proof.
  intros Hl. apply Forall_forall. intros o Ho.
  destruct (MergeMore.merged_from_input l o Ho)
    as (h & m & Hh & Hm & Hs & Hhe & Hme).
  destruct (proj1 (Forall_forall _ _) Hl h Hh) as (H1 & H2).
  unfold stored_long. rewrite Hs. split; lra.
Qed.

Lemma merge_ends_by (hi : Q) (l : list Segment) :
  Forall (ends_by hi) l -> Forall (ends_by hi) (_merge_overlapping l).
Proof.
  intros Hl. apply Forall_forall. intros o Ho.
  destruct (MergeMore.merged_from_input l o Ho)
    as (h & m & Hh & Hm & Hs & Hhe & Hme).
  pose proof (proj1 (Forall_forall _ _) Hl m Hm) as H.
  unfold ends_by in *. now rewrite Hme.
Qed.

Lemma rounded_long (a b : Q) :
  0 <= a -> PyNum.Qlt_bool (a + (1 # 10)) b = true ->
  0 <= PyNum.round3 a /\ PyNum.round3 a + (99 # 1000) <= PyNum.round3 b.
Proof.
  intros Ha Hk. apply NumFacts.Qlt_bool_true in Hk.
  destruct (RoundMore.round3_near a) as [_ Ha2].
  destruct (RoundMore.round3_near b) as [Hb1 _].
  split; [now apply RoundMore.round3_nonneg | lra].
Qed.

Lemma rounded_ends_by (b hi : Q) :
  b <= hi -> PyNum.round3 b <= hi + (5 # 10000).
Proof.
  intros H. destruct (RoundMore.round3_near b) as [_ Hb]. lra.
Qed.

Lemma max_0_nonneg (x : Q) : 0 <= PyNum.max 0 x.
Proof. apply NumFacts.max_l. Qed.

Lemma min_le_l (a b : Q) : PyNum.min a b <= a.
Proof. destruct (NumFacts.min_cases a b) as [[H ->]|[H ->]]; lra. Qed.

Section Loops.

Variable new_id : nat -> string.
Variables (total_duration pre_buffer post_buffer : Q).

Let good (s : Segment) : Prop :=
  stored_long s /\ ends_by (total_duration + (5 # 10000)) s.

Lemma backtrack_loop_good (ng_markers oks : list Marker)
    (segments : list Segment) :
  Forall good segments ->
  Forall good
    (fold_left (backtrack_body new_id ng_markers total_duration
                               pre_buffer post_buffer) oks segments).
Proof.
  revert segments. induction oks as [|ok oks IH]; intros segments Hs; simpl.
  - exact Hs.
  - apply IH. unfold backtrack_body, backtrack_bounds.
    match goal with
    | |- context [PyNum.Qlt_bool ?x ?y] => destruct (PyNum.Qlt_bool x y) eqn:E
    end; [|exact Hs].
    apply Forall_app. split; [exact Hs|]. constructor; [|constructor].
    split.
    + apply rounded_long; [apply max_0_nonneg | exact E].
    + apply rounded_ends_by, min_le_l.
Qed.

Lemma interval_bounds_start (start_markers end_markers : list Marker)
    (start_m : Marker) :
  0 <= fst (interval_bounds start_markers end_markers total_duration
                            pre_buffer post_buffer start_m).
Proof.
  unfold interval_bounds.
  destruct (filter _ end_markers); simpl; apply max_0_nonneg.
Qed.

Lemma interval_bounds_end (start_markers end_markers : list Marker)
    (start_m : Marker) :
  Forall (fun m => marker_start m <= total_duration) start_markers ->
  snd (interval_bounds start_markers end_markers total_duration
                       pre_buffer post_buffer start_m) <= total_duration.
Proof.
  intros Hin. unfold interval_bounds.
  destruct (filter _ end_markers); simpl; [|apply min_le_l].
  destruct (filter _ start_markers) as [|s l] eqn:E; [lra|].
  assert (Hs : In s (filter
                       (fun s => PyNum.Qlt_bool (marker_end start_m)
                                                (marker_start s))
                       start_markers)) by (rewrite E; simpl; auto).
  apply filter_In in Hs as [Hs _].
  apply (proj1 (Forall_forall _ _) Hin s Hs).
Qed.

Lemma interval_loop_long (start_markers end_markers ms : list Marker)
    (segments : list Segment) :
  Forall stored_long segments ->
  Forall stored_long
    (fold_left (interval_body new_id start_markers end_markers
                              total_duration pre_buffer post_buffer)
               ms segments).
Proof.
  revert segments. induction ms as [|m ms IH]; intros segments Hs; simpl.
  - exact Hs.
  - apply IH. unfold interval_body.
    pose proof (interval_bounds_start start_markers end_markers m) as H0.
    destruct (interval_bounds _ _ _ _ _ _) as [a b]. simpl in H0.
    destruct (PyNum.Qlt_bool (a + (1 # 10)) b) eqn:E; [|exact Hs].
    apply Forall_app. split; [exact Hs|]. constructor; [|constructor].
    now apply rounded_long.
Qed.

Lemma interval_loop_ends (start_markers end_markers ms : list Marker)
    (segments : list Segment) :
  Forall (fun m => marker_start m <= total_duration) start_markers ->
  Forall (ends_by (total_duration + (5 # 10000))) segments ->
  Forall (ends_by (total_duration + (5 # 10000)))
    (fold_left (interval_body new_id start_markers end_markers
                              total_duration pre_buffer post_buffer)
               ms segments).
Proof.
  intros Hin. revert segments.
  induction ms as [|m ms IH]; intros segments Hs; simpl.
  - exact Hs.
  - apply IH. unfold interval_body.
    pose proof (interval_bounds_end start_markers end_markers m Hin) as H0.
    destruct (interval_bounds _ _ _ _ _ _) as [a b]. simpl in H0.
    destruct (PyNum.Qlt_bool (a + (1 # 10)) b) eqn:E; [|exact Hs].
    apply Forall_app. split; [exact Hs|]. constructor; [|constructor].
    now apply rounded_ends_by.
Qed.

End Loops.

End SlicerMore.

(** ** Properties of the slicer *)

Import Slicer Props SlicerProps.

(** X1. The overlap merge loses nothing: the time range of every input
    segment lies within the range of a returned segment. It returns no more
    segments than it is given, and at least one when given one. *)
Theorem merge_covers_input (segments : list Segment) :
  (forall s, In s segments ->
             exists o, In o (_merge_overlapping segments) /\ within s o)
  /\ (List.length (_merge_overlapping segments) <= List.length segments)%nat
  /\ (segments <> [] -> _merge_overlapping segments <> []).
Proof.
  split; [|apply MergeMore.merge_overlapping_length].
  intros s Hs. destruct (MergeMore.input_covered segments s Hs) as (o & Ho & H).
  exists o. split; [exact Ho | exact H].
Qed.

(** X2. A list sorted by start whose neighbours are more than 50 ms apart is
    returned as it is. *)
Theorem merge_leaves_separated (segments : list Segment) :
  StronglySorted le_start segments -> Sorted gap segments ->
  _merge_overlapping segments = segments.
Proof.
  intros Hs Hg. now apply MergeFacts.merge_overlapping_fixed.
Qed.

Lemma merge_leaves_separated_example :
  let a := mkSegment "seg_a" "keep" 0 1 None true false in
  let b := mkSegment "seg_b" "discard" 2 3 None false true in
  _merge_overlapping [a; b] = [a; b].
Proof.
  intros a b. apply merge_leaves_separated.
  - repeat constructor; unfold le_start; simpl; lra.
  - repeat constructor; unfold gap; simpl; lra.
Defined.

(** X3. Every segment [slice_backtrack] returns starts at 0 or later, is
    longer than 99 ms unless it is the fallback segment, which is longer
    than 0, and ends no later than the total duration plus the half
    millisecond of the rounding. *)
Theorem backtrack_segments_within
    (new_id : nat -> string) (markers : list Marker)
    (transcript : list TranscriptSegment)
    (total_duration pre_buffer post_buffer : Q) :
  Forall (fun s => 0 <= seg_start s /\ seg_start s < seg_end s
                   /\ seg_end s <= total_duration + (5 # 10000))
         (slice_backtrack new_id markers transcript total_duration
                          pre_buffer post_buffer)
  /\ (filter (is_type OK) markers <> [] ->
      Forall stored_long
             (slice_backtrack new_id markers transcript total_duration
                              pre_buffer post_buffer)).
Proof.
  unfold slice_backtrack.
  destruct (filter (is_type OK) markers) as [|ok oks] eqn:E.
  - split; [|intros H; now elim H].
    destruct (PyNum.Qlt_bool 0 total_duration) eqn:Ht; [|constructor].
    apply NumFacts.Qlt_bool_true in Ht.
    repeat constructor; simpl; lra.
  - rewrite <- E.
    pose proof (SlicerMore.backtrack_loop_good new_id total_duration
                  pre_buffer post_buffer (filter (is_type NG) markers)
                  (filter (is_type OK) markers) [] (Forall_nil _)) as H.
    set (l := fold_left _ _ _) in *.
    assert (Hl : Forall stored_long l).
    { eapply Forall_impl; [|exact H]. intros s [Hs _]. exact Hs. }
    assert (He : Forall (ends_by (total_duration + (5 # 10000))) l).
    { eapply Forall_impl; [|exact H]. intros s [_ Hs]. exact Hs. }
    apply SlicerMore.merge_long in Hl.
    apply SlicerMore.merge_ends_by in He.
    split; [|intros _; exact Hl].
    apply Forall_forall. intros s Hs.
    destruct (proj1 (Forall_forall _ _) Hl s Hs) as [H1 H2].
    pose proof (proj1 (Forall_forall _ _) He s Hs) as H3.
    unfold ends_by in H3. repeat split; lra.
Qed.

(** X4. Every segment [slice_interval] returns starts at 0 or later and is
    longer than 99 ms. *)
Theorem interval_segments_long
    (new_id : nat -> string) (markers : list Marker)
    (transcript : list TranscriptSegment)
    (total_duration pre_buffer post_buffer : Q) :
  Forall stored_long
         (slice_interval new_id markers transcript total_duration
                         pre_buffer post_buffer).
Proof.
  unfold slice_interval.
  destruct (filter (is_type START) markers) as [|m ms] eqn:E; [constructor|].
  rewrite <- E.
  apply SlicerMore.merge_long, SlicerMore.interval_loop_long. constructor.
Qed.

(** X5. When no START marker starts after the total duration, every segment
    [slice_interval] returns ends no later than the total duration plus the
    half millisecond of the rounding. *)
Theorem interval_segments_end
    (new_id : nat -> string) (markers : list Marker)
    (transcript : list TranscriptSegment)
    (total_duration pre_buffer post_buffer : Q) :
  Forall (fun m => marker_type m = START -> marker_start m <= total_duration)
         markers ->
  Forall (ends_by (total_duration + (5 # 10000)))
         (slice_interval new_id markers transcript total_duration
                         pre_buffer post_buffer).
Proof.
  intros Hin. unfold slice_interval.
  destruct (filter (is_type START) markers) as [|m ms] eqn:E; [constructor|].
  rewrite <- E.
  apply SlicerMore.merge_ends_by, SlicerMore.interval_loop_ends;
    [|constructor].
  apply Forall_forall. intros x Hx. apply filter_In in Hx as [Hx Ht].
  apply (proj1 (Forall_forall _ _) Hin x Hx).
  unfold is_type in Ht. destruct (marker_type x); try discriminate.
  reflexivity.
Qed.

Lemma interval_segments_end_example :
  Forall (ends_by (20 + (5 # 10000)))
         (slice_interval (fun _ => "seg_0"%string)
            [mkMarker START "begin" 1 2 1; mkMarker START "begin" 18 19 1]
            [] 20 (5 # 10) (3 # 10)).
Proof.
  apply interval_segments_end.
  repeat constructor; simpl; intros _; lra.
Defined.

(** ** Time codes *)

Module TimecodeMore.

Import ExporterMore.

Lemma Qfloor_add_Z (x : Q) (n : Z) :
  Qfloor (x + inject_Z n) = (Qfloor x + n)%Z.
Proof.
  apply TimecodeFacts.Qfloor_between.
  - rewrite inject_Z_plus. pose proof (Qfloor_le x). lra.
  - pose proof (Qlt_floor x) as H.
    rewrite !inject_Z_plus in *. lra.
Qed.

(** Adding an even integer carries through [round]. *)
Lemma round_add_even (x : Q) (n : Z) :
  Z.even n = true ->
  PyNum.round (x + inject_Z n) = (PyNum.round x + n)%Z.
Proof.
  intros Hn. unfold PyNum.round. rewrite Qfloor_add_Z.
  rewrite (RoundFacts.Qlt_bool_comp
             (x + inject_Z n - inject_Z (Qfloor x + n))
             (x - inject_Z (Qfloor x)) (1 # 2) (1 # 2));
    [|rewrite inject_Z_plus; ring | reflexivity].
  rewrite (RoundFacts.Qlt_bool_comp (1 # 2) (1 # 2)
             (x + inject_Z n - inject_Z (Qfloor x + n))
             (x - inject_Z (Qfloor x)));
    [|reflexivity | rewrite inject_Z_plus; ring].
  rewrite Z.even_add, Hn.
  destruct (PyNum.Qlt_bool _ _); [reflexivity|].
  destruct (PyNum.Qlt_bool _ _); [lia|].
  destruct (Z.even (Qfloor x)); simpl; lia.
Qed.

Lemma round_0 : PyNum.round 0 = 0%Z.
Proof. reflexivity. Qed.

Lemma round_nonneg (x : Q) : 0 <= x -> (0 <= PyNum.round x)%Z.
Proof.
  intros H. rewrite <- round_0. now apply RoundMore.round_mono.
Qed.

Lemma abs_nonneg (x : Q) : 0 <= PyNum.abs x.
Proof.
  unfold PyNum.abs. destruct (PyNum.Qlt_bool x 0) eqn:E.
  - apply NumFacts.Qlt_bool_true in E. lra.
  - apply NumFacts.Qlt_bool_false in E. exact E.
Qed.

Lemma abs_le (x b : Q) : - b <= x -> x <= b -> PyNum.abs x <= b.
Proof.
  intros H1 H2. unfold PyNum.abs. destruct (PyNum.Qlt_bool x 0); lra.
Qed.

Lemma int_nonneg (x : Q) : 0 <= x -> PyNum.int x = Qfloor x.
Proof.
  intros H. unfold PyNum.int.
  destruct (PyNum.Qlt_bool x 0) eqn:E; [|reflexivity].
  apply NumFacts.Qlt_bool_true in E. lra.
Qed.

Lemma int_pos (x : Q) : (0 < PyNum.int x)%Z -> 0 < x.
Proof.
  unfold PyNum.int. destruct (PyNum.Qlt_bool x 0) eqn:E.
  - apply NumFacts.Qlt_bool_true in E. intros H. exfalso.
    unfold Qceiling in H.
    assert (Hf : (0 <= Qfloor (- x))%Z).
    { change 0%Z with (Qfloor 0). apply Qfloor_resp_le. lra. }
    lia.
  - apply NumFacts.Qlt_bool_false in E. intros H.
    pose proof (Qfloor_le x) as Hx.
    assert (1 <= inject_Z (Qfloor x)).
    { change 1 with (inject_Z 1). rewrite <- Zle_Qle. lia. }
    lra.
Qed.

(** Hours, minutes and seconds of a count of seconds. *)
Lemma hms_decode (t : Z) :
  let ss := (t mod 60)%Z in
  let mm := ((t / 60) mod 60)%Z in
  let hh := (t / 3600)%Z in
  (0 <= ss < 60)%Z /\ (0 <= mm < 60)%Z
  /\ ((hh * 60 + mm) * 60 + ss = t)%Z
  /\ ((0 <= t)%Z -> (0 <= hh)%Z).
Proof.
  intros ss mm hh. unfold ss, mm, hh.
  pose proof (Z.mod_pos_bound t 60 eq_refl) as H1.
  pose proof (Z.mod_pos_bound (t / 60) 60 eq_refl) as H2.
  pose proof (Z.div_mod t 60 ltac:(lia)) as H3.
  pose proof (Z.div_mod (t / 60) 60 ltac:(lia)) as H4.
  replace (t / 3600)%Z with (t / 60 / 60)%Z
    by (rewrite Z.div_div by lia; reflexivity).
  repeat split; lia.
Qed.

End TimecodeMore.

Module WidthFacts.

(** The width of the zero-padded fields, checked value by value. *)
Lemma below_checked (P : nat -> bool) (n : nat) :
  forallb P (seq 0 n) = true -> forall k, (k < n)%nat -> P k = true.
Proof.
  intros H k Hk. rewrite forallb_forall in H. apply H, in_seq. lia.
Qed.

Lemma format_0d_2_length (z : Z) :
  (0 <= z < 100)%Z -> String.length (PyStr.format_0d 2 z) = 2%nat.
Proof.
  intros Hz.
  pose proof (below_checked
                (fun k => Nat.eqb (String.length
                                     (PyStr.format_0d 2 (Z.of_nat k))) 2)
                100 ltac:(vm_compute; reflexivity) (Z.to_nat z) ltac:(lia))
    as H.
  simpl in H. rewrite Z2Nat.id in H by lia. now apply Nat.eqb_eq in H.
Qed.

Lemma format_0d_3_length (z : Z) :
  (0 <= z < 1000)%Z -> String.length (PyStr.format_0d 3 z) = 3%nat.
Proof.
  intros Hz.
  pose proof (below_checked
                (fun k => Nat.eqb (String.length
                                     (PyStr.format_0d 3 (Z.of_nat k))) 3)
                1000 ltac:(vm_compute; reflexivity) (Z.to_nat z) ltac:(lia))
    as H.
  simpl in H. rewrite Z2Nat.id in H by lia. now apply Nat.eqb_eq in H.
Qed.

Lemma length_append (a b : string) :
  String.length (a ++ b) = (String.length a + String.length b)%nat.
Proof.
  induction a as [|c a IH]; simpl; [reflexivity | now rewrite IH].
Qed.

End WidthFacts.

Import ExporterMore.

(** X7. With a frame rate of 1 or more and a product seconds * fps that is
    a finite float, [_seconds_to_tc] returns; its frame field is below
    int(fps), its seconds and minutes fields are below 60, and the four
    fields count, at int(fps) frames per second, a whole number of frames
    within half a frame of seconds * fps, up to the rounding of that
    product to a float, one part in 2^52. For a time of 0 or more the hours
    are not negative, and below 100 hours and 100 frames per second the
    text has the eleven characters of HH:MM:SS:FF. *)
Theorem smpte_timecode_decodes (seconds fps : Q) :
  (0 < PyNum.int fps)%Z ->
  FloatRange.finite (seconds * fps) ->
  exists hh mm ss ff,
    tc_fields seconds fps = Some (hh, mm, ss, ff)
    /\ _seconds_to_tc seconds fps = Some (format_tc (hh, mm, ss, ff))
    /\ (0 <= ff < PyNum.int fps)%Z /\ (0 <= ss < 60)%Z /\ (0 <= mm < 60)%Z
    /\ PyNum.abs (inject_Z (((hh * 60 + mm) * 60 + ss) * PyNum.int fps + ff)
                  - seconds * fps)
       <= (1 # 2) + PyNum.abs (seconds * fps) / (2 # 1) ^ 52
    /\ (0 <= seconds -> (0 <= hh)%Z)
    /\ (0 <= seconds -> (hh < 100)%Z -> (PyNum.int fps <= 100)%Z ->
        String.length (format_tc (hh, mm, ss, ff)) = 11%nat).
Proof.
  intros Hfps _. unfold _seconds_to_tc, tc_fields.
  destruct (Z.eqb_spec (PyNum.int fps) 0) as [E|_]; [lia|].
  set (n := PyNum.int fps) in *.
  set (T := PyNum.round (seconds * fps)).
  destruct (TimecodeMore.hms_decode (T / n)) as (Hss & Hmm & Hsum & Hhh).
  pose proof (Z.mod_pos_bound T n Hfps) as Hff.
  pose proof (Z.div_mod T n ltac:(lia)) as Hdm.
  assert (Hpos : 0 <= seconds -> (0 <= T / n)%Z).
  { intros Hs. apply Z.div_pos; [|lia].
    apply TimecodeMore.round_nonneg.
    pose proof (TimecodeMore.int_pos fps Hfps). nra. }
  do 4 eexists. split; [reflexivity|]. split; [reflexivity|].
  split; [exact Hff|]. split; [exact Hss|]. split; [exact Hmm|].
  split.
  { rewrite Hsum.
    replace (T / n * n + T mod n)%Z with T by lia.
    pose proof (TimecodeMore.abs_nonneg (seconds * fps)) as Ha.
    assert (He : 0 <= PyNum.abs (seconds * fps) / (2 # 1) ^ 52)
      by (apply Qle_shift_div_l; [reflexivity | lra]).
    destruct (RoundMore.round_near (seconds * fps)) as [H1 H2]. fold T in H1, H2.
    apply Qle_trans with (1 # 2); [|lra].
    apply TimecodeMore.abs_le; lra. }
  split; [intros Hs; apply Hhh, Hpos, Hs|].
  intros Hs Hh Hn. unfold format_tc.
  assert (Hh' : (0 <= T / n / 3600 < 100)%Z)
    by (split; [apply Hhh, Hpos, Hs | exact Hh]).
  rewrite !WidthFacts.length_append.
  rewrite (WidthFacts.format_0d_2_length _ Hh').
  rewrite (WidthFacts.format_0d_2_length (_ mod 60)) by lia.
  rewrite (WidthFacts.format_0d_2_length (_ mod 60)) by lia.
  rewrite (WidthFacts.format_0d_2_length (T mod n)) by lia.
  reflexivity.
Qed.

(** One hour, one minute and one and a half seconds at 30 frames per
    second. *)
Lemma smpte_timecode_decodes_example :
  exists hh mm ss ff,
    tc_fields (3661 + (5 # 10)) 30 = Some (hh, mm, ss, ff)
    /\ _seconds_to_tc (3661 + (5 # 10)) 30 = Some (format_tc (hh, mm, ss, ff))
    /\ (0 <= ff < PyNum.int 30)%Z /\ (0 <= ss < 60)%Z /\ (0 <= mm < 60)%Z
    /\ PyNum.abs (inject_Z (((hh * 60 + mm) * 60 + ss) * PyNum.int 30 + ff)
                  - (3661 + (5 # 10)) * 30)
       <= (1 # 2) + PyNum.abs ((3661 + (5 # 10)) * 30) / (2 # 1) ^ 52
    /\ (0 <= 3661 + (5 # 10) -> (0 <= hh)%Z)
    /\ (0 <= 3661 + (5 # 10) -> (hh < 100)%Z -> (PyNum.int 30 <= 100)%Z ->
        String.length (format_tc (hh, mm, ss, ff)) = 11%nat).
Proof.
  apply smpte_timecode_decodes.
  - reflexivity.
  - vm_compute. discriminate.
Defined.

(** X8. For a time of 0 or more, the hour, minute and second fields of
    [_seconds_to_srt_tc] count the whole seconds of the time; seconds and
    minutes are below 60 and hours are not negative. The millisecond field
    is a whole number from 0 to 1000, within half a millisecond of the
    fraction of the time times 1000 up to the rounding of that product to
    a float, which is below 2^-40. It is below 1000 when the fraction is
    at most 0.999499, and then, below 100 hours, the text has the twelve
    characters of HH:MM:SS,mmm. *)
Theorem srt_timecode_decodes (seconds : Q) :
  0 <= seconds ->
  exists hh mm ss ms,
    srt_fields seconds = (hh, mm, ss, ms)
    /\ Exporter._seconds_to_srt_tc seconds = format_srt_tc (hh, mm, ss, ms)
    /\ (0 <= ms <= 1000)%Z /\ (0 <= ss < 60)%Z /\ (0 <= mm < 60)%Z
    /\ (0 <= hh)%Z
    /\ ((hh * 60 + mm) * 60 + ss = Qfloor seconds)%Z
    /\ PyNum.abs (inject_Z ms - PyNum.mod1 seconds * 1000)
       <= (1 # 2) + (1 # 2) ^ 40
    /\ (PyNum.mod1 seconds <= 999499 # 1000000 ->
        (ms < 1000)%Z
        /\ ((hh < 100)%Z ->
            String.length (format_srt_tc (hh, mm, ss, ms)) = 12%nat)).
Proof.
  intros Hs. unfold srt_fields.
  rewrite (TimecodeMore.int_nonneg seconds Hs).
  set (t := Qfloor seconds).
  set (ms := PyNum.round (PyNum.mod1 seconds * 1000)).
  destruct (TimecodeMore.hms_decode t) as (Hss & Hmm & Hsum & Hhh).
  assert (Ht : (0 <= t)%Z).
  { unfold t. change 0%Z with (Qfloor 0). now apply Qfloor_resp_le. }
  pose proof (TimecodeFacts.mod1_lt_1 seconds) as Hlt.
  assert (Hge : 0 <= PyNum.mod1 seconds).
  { unfold PyNum.mod1. pose proof (Qfloor_le seconds). lra. }
  assert (Hms : (0 <= ms <= 1000)%Z).
  { unfold ms. split.
    - apply TimecodeMore.round_nonneg. lra.
    - apply Z.le_trans with (PyNum.round 1000);
        [apply RoundMore.round_mono; lra | vm_compute; discriminate]. }
  destruct (RoundMore.round_near (PyNum.mod1 seconds * 1000)) as [Hlo Hup].
  fold ms in Hlo, Hup.
  do 4 eexists. split; [reflexivity|].
  split.
  { unfold Exporter._seconds_to_srt_tc, format_srt_tc.
    rewrite (TimecodeMore.int_nonneg seconds Hs). reflexivity. }
  split; [exact Hms|]. split; [exact Hss|]. split; [exact Hmm|].
  split; [apply Hhh, Ht|].
  split; [exact Hsum|].
  split.
  { apply Qle_trans with (1 # 2).
    - apply TimecodeMore.abs_le; lra.
    - assert (He : 0 <= (1 # 2) ^ 40) by (vm_compute; discriminate). lra. }
  intros Hfrac.
  assert (Hms' : (ms < 1000)%Z).
  { assert (H : inject_Z ms < inject_Z 1000)
      by (unfold inject_Z at 2; lra).
    now rewrite <- Zlt_Qlt in H. }
  split; [exact Hms'|].
  intros Hh. unfold format_srt_tc.
  assert (Hh' : (0 <= t / 3600 < 100)%Z)
    by (split; [apply Hhh, Ht | exact Hh]).
  rewrite !WidthFacts.length_append.
  rewrite (WidthFacts.format_0d_2_length _ Hh').
  rewrite (WidthFacts.format_0d_2_length (_ mod 60)) by lia.
  rewrite (WidthFacts.format_0d_2_length (_ mod 60)) by lia.
  rewrite (WidthFacts.format_0d_3_length ms) by lia.
  reflexivity.
Qed.

(** One hour, one minute and 1.1234 seconds. *)
Lemma srt_timecode_decodes_example :
  exists hh mm ss ms,
    srt_fields (3661 + (1234 # 10000)) = (hh, mm, ss, ms)
    /\ Exporter._seconds_to_srt_tc (3661 + (1234 # 10000))
       = format_srt_tc (hh, mm, ss, ms)
    /\ (0 <= ms <= 1000)%Z /\ (0 <= ss < 60)%Z /\ (0 <= mm < 60)%Z
    /\ (0 <= hh)%Z
    /\ ((hh * 60 + mm) * 60 + ss = Qfloor (3661 + (1234 # 10000)))%Z
    /\ PyNum.abs (inject_Z ms - PyNum.mod1 (3661 + (1234 # 10000)) * 1000)
       <= (1 # 2) + (1 # 2) ^ 40
    /\ (PyNum.mod1 (3661 + (1234 # 10000)) <= 999499 # 1000000 ->
        (ms < 1000)%Z
        /\ ((hh < 100)%Z ->
            String.length (format_srt_tc (hh, mm, ss, ms)) = 12%nat)).
Proof.
  apply srt_timecode_decodes. vm_compute. discriminate.
Defined.

(** ** The merge in place *)

(** X6. [_merge_overlapping] assigns [last.end] in place, on objects that
    the list it is given may hold more than once. Whatever the heap and
    the list of addresses, the segments read from the returned list in the
    heap after the call are those the merge on values returns for the
    segments read from the given list in the heap before the call. *)
Theorem merge_in_place_same_values
    (h : MergeInPlace.heap) (segments : list nat) :
  MergeInPlace.values
    (fst (MergeInPlace._merge_overlapping h segments))
    (snd (MergeInPlace._merge_overlapping h segments))
  = Slicer._merge_overlapping (MergeInPlace.values h segments).
Proof.
  pose proof (MergeInPlaceFacts.merge_in_place_values h segments) as H.
  destruct (MergeInPlace._merge_overlapping h segments) as [h' out].
  exact H.
Qed.

(** ** The EDL and XML exports *)

Module EdlXmlFacts.

Import Exporter ExporterMore ExportProps EdlXmlProps.

Lemma firstn_prefix {A : Type} (pre rest : list A) :
  firstn (List.length pre) (pre ++ rest) = pre.
Proof.
  induction pre as [|x pre IH]; simpl; [now destruct rest | now rewrite IH].
Qed.

Lemma firstn_prefix_snoc {A : Type} (pre rest : list A) (x : A) :
  firstn (S (List.length pre)) (pre ++ x :: rest) = pre ++ [x].
Proof.
  induction pre as [|y pre IH]; simpl.
  - now destruct rest.
  - simpl in IH. now rewrite IH.
Qed.

Lemma nth_error_middle {A : Type} (pre rest : list A) (x : A) :
  nth_error (pre ++ x :: rest) (List.length pre) = Some x.
Proof.
  rewrite nth_error_app2, Nat.sub_diag by lia. reflexivity.
Qed.

(** The loop of [export_edl], entered after the segments [pre]. *)
Lemma edl_loop (rest pre : list Segment) (events : list EdlEvent) :
  fst (fst (fold_left edl_body rest
              (events, S (List.length pre),
               fold_left (fun acc seg => acc + duration seg) pre 0)))
  = events ++ map (event_at (pre ++ rest))
                  (seq (List.length pre) (List.length rest)).
Proof.
  revert pre events. induction rest as [|seg rest IH]; intros pre events.
  - simpl. now rewrite app_nil_r.
  - simpl. change (seg_end seg - seg_start seg) with (duration seg).
    specialize (IH (pre ++ [seg])
                   (events ++ [mkEdlEvent (S (List.length pre)) (seg_start seg)
                                 (seg_end seg)
                                 (fold_left (fun acc s => acc + duration s) pre 0)
                                 (fold_left (fun acc s => acc + duration s) pre 0
                                  + duration seg)])).
    rewrite fold_left_app, length_app in IH. simpl in IH.
    rewrite Nat.add_1_r in IH.
    rewrite IH, <- !app_assoc. simpl. f_equal. f_equal.
    unfold event_at at 1. rewrite nth_error_middle.
    unfold output_offset.
    rewrite firstn_prefix, firstn_prefix_snoc, fold_left_app. reflexivity.
Qed.

Lemma edl_events_of (segments : list Segment) :
  edl_events segments = events_of (enabled_sorted segments).
Proof.
  unfold edl_events. apply (edl_loop (enabled_sorted segments) [] []).
Qed.

Lemma events_of_length (enabled : list Segment) :
  List.length (events_of enabled) = List.length enabled.
Proof. unfold events_of. now rewrite length_map, length_seq. Qed.

Lemma events_of_nth (enabled : list Segment) (k : nat) (ev : EdlEvent) :
  nth_error (events_of enabled) k = Some ev ->
  exists seg,
    nth_error enabled k = Some seg
    /\ ev = mkEdlEvent (S k) (seg_start seg) (seg_end seg)
                       (output_offset enabled k) (output_offset enabled (S k)).
Proof.
  intros H.
  assert (Hk : (k < List.length enabled)%nat).
  { rewrite <- events_of_length. apply nth_error_Some. congruence. }
  unfold events_of, event_at in H.
  rewrite nth_error_map, nth_error_seq in H.
  destruct (Nat.ltb_spec k (List.length enabled)) as [_|Hge]; [|lia].
  simpl in H.
  destruct (nth_error enabled k) as [seg|] eqn:E.
  - exists seg. split; [reflexivity | congruence].
  - apply nth_error_None in E. lia.
Qed.

Lemma output_offset_S (enabled : list Segment) (k : nat) (seg : Segment) :
  nth_error enabled k = Some seg ->
  output_offset enabled (S k) = output_offset enabled k + duration seg.
Proof.
  intros H. apply nth_error_split in H. destruct H as (pre & rest & -> & <-).
  unfold output_offset.
  rewrite firstn_prefix, firstn_prefix_snoc, fold_left_app. reflexivity.
Qed.

(** The enabled "keep" segments are those of the list that pass the
    test. *)
Lemma in_enabled_sorted (segments : list Segment) (s : Segment) :
  In s (enabled_sorted segments)
  <-> In s segments /\ is_enabled_keep s = true.
Proof.
  unfold enabled_sorted. rewrite <- filter_In.
  split; intros H.
  - eapply Permutation_in; [|exact H]. apply sorted_by_perm.
  - eapply Permutation_in; [|exact H].
    apply Permutation_sym, sorted_by_perm.
Qed.

Lemma enabled_sorted_nil (segments : list Segment) :
  Forall (fun s => is_enabled_keep s = false) segments ->
  enabled_sorted segments = [].
Proof.
  intros H. destruct (enabled_sorted segments) as [|s l] eqn:E; [reflexivity|].
  assert (Hin : In s (enabled_sorted segments)) by (rewrite E; now left).
  apply in_enabled_sorted in Hin. destruct Hin as [Hin Hk].
  rewrite Forall_forall in H. rewrite (H s Hin) in Hk. discriminate.
Qed.

Lemma enabled_sorted_not_nil (segments : list Segment) :
  enabled_sorted segments <> []
  <-> exists s, In s segments /\ is_enabled_keep s = true.
Proof.
  split.
  - intros H. destruct (enabled_sorted segments) as [|s l] eqn:E; [congruence|].
    exists s. apply in_enabled_sorted. rewrite E. now left.
  - intros (s & Hs) E. apply in_enabled_sorted in Hs. rewrite E in Hs.
    destruct Hs.
Qed.

(** A time code raises exactly when [int(fps)] is 0. *)
Lemma seconds_to_tc_none (seconds fps : Q) :
  _seconds_to_tc seconds fps = None <-> PyNum.int fps = 0%Z.
Proof.
  unfold _seconds_to_tc, tc_fields.
  destruct (Z.eqb_spec (PyNum.int fps) 0) as [E|E]; simpl.
  - tauto.
  - split; [discriminate | contradiction].
Qed.

Lemma event_lines_none (fps : Q) (name : string) (ev : EdlEvent) :
  event_lines fps name ev = None <-> PyNum.int fps = 0%Z.
Proof.
  unfold event_lines. split.
  - destruct (_seconds_to_tc (ev_src_in ev) fps) eqn:E1;
      [|intros _; now apply seconds_to_tc_none in E1].
    destruct (_seconds_to_tc (ev_src_out ev) fps) eqn:E2;
      [|intros _; now apply seconds_to_tc_none in E2].
    destruct (_seconds_to_tc (ev_rec_in ev) fps) eqn:E3;
      [|intros _; now apply seconds_to_tc_none in E3].
    destruct (_seconds_to_tc (ev_rec_out ev) fps) eqn:E4;
      [|intros _; now apply seconds_to_tc_none in E4].
    discriminate.
  - intros H.
    now rewrite (proj2 (seconds_to_tc_none (ev_src_in ev) fps) H).
Qed.

Lemma events_lines_none (fps : Q) (name : string) (events : list EdlEvent) :
  events_lines fps name events = None
  <-> PyNum.int fps = 0%Z /\ events <> [].
Proof.
  induction events as [|ev events IH]; simpl.
  - split; [discriminate | intros [_ H]; congruence].
  - destruct (event_lines fps name ev) eqn:E.
    + assert (Hf : PyNum.int fps <> 0%Z).
      { intros H. apply (event_lines_none fps name ev) in H. congruence. }
      destruct (events_lines fps name events).
      * split; [discriminate | intros [H _]; contradiction].
      * split; [intros _ | reflexivity]. destruct IH as [IH _].
        destruct (IH eq_refl). contradiction.
    + apply event_lines_none in E. split; [|reflexivity].
      intros _. split; [exact E | discriminate].
Qed.

Lemma xml_loop (fps : Q) (rest pre : list Segment) (clips : list ClipItem) :
  fst (fst (fold_left (xml_body fps) rest
              (clips, S (List.length pre),
               fold_left Z.add (map (seg_frames fps) pre) 0%Z)))
  = clips ++ map (clip_at fps (pre ++ rest))
                 (seq (List.length pre) (List.length rest)).
Proof.
  revert pre clips. induction rest as [|seg rest IH]; intros pre clips.
  - simpl. now rewrite app_nil_r.
  - simpl.
    specialize (IH (pre ++ [seg])
                   (clips ++ [mkClipItem (S (List.length pre))
                                (seg_frames fps seg)
                                (fold_left Z.add (map (seg_frames fps) pre) 0%Z)
                                (fold_left Z.add (map (seg_frames fps) pre) 0
                                 + seg_frames fps seg)%Z
                                (PyNum.round (seg_start seg * fps))
                                (PyNum.round (seg_end seg * fps))])).
    rewrite map_app, fold_left_app, length_app in IH. simpl in IH.
    rewrite Nat.add_1_r in IH.
    rewrite IH, <- !app_assoc. simpl. f_equal. f_equal.
    unfold clip_at at 1. rewrite nth_error_middle.
    unfold frame_offset.
    rewrite firstn_prefix, firstn_prefix_snoc, map_app, fold_left_app.
    reflexivity.
Qed.

Lemma xml_clips_of (segments : list Segment) (fps : Q) :
  xml_clips segments fps = clips_of fps (enabled_sorted segments).
Proof.
  unfold xml_clips. apply (xml_loop fps (enabled_sorted segments) [] []).
Qed.

Lemma clips_of_length (fps : Q) (enabled : list Segment) :
  List.length (clips_of fps enabled) = List.length enabled.
Proof. unfold clips_of. now rewrite length_map, length_seq. Qed.

Lemma clips_of_nth (fps : Q) (enabled : list Segment) (k : nat) (c : ClipItem) :
  nth_error (clips_of fps enabled) k = Some c ->
  exists seg,
    nth_error enabled k = Some seg
    /\ c = mkClipItem (S k) (seg_frames fps seg)
                      (frame_offset fps enabled k)
                      (frame_offset fps enabled (S k))
                      (PyNum.round (seg_start seg * fps))
                      (PyNum.round (seg_end seg * fps)).
Proof.
  intros H.
  assert (Hk : (k < List.length enabled)%nat).
  { rewrite <- (clips_of_length fps). apply nth_error_Some. congruence. }
  unfold clips_of, clip_at in H.
  rewrite nth_error_map, nth_error_seq in H.
  destruct (Nat.ltb_spec k (List.length enabled)) as [_|Hge]; [|lia].
  simpl in H.
  destruct (nth_error enabled k) as [seg|] eqn:E.
  - exists seg. split; [reflexivity | congruence].
  - apply nth_error_None in E. lia.
Qed.

Lemma frame_offset_S (fps : Q) (enabled : list Segment) (k : nat)
    (seg : Segment) :
  nth_error enabled k = Some seg ->
  frame_offset fps enabled (S k)
  = (frame_offset fps enabled k + seg_frames fps seg)%Z.
Proof.
  intros H. apply nth_error_split in H. destruct H as (pre & rest & -> & <-).
  unfold frame_offset.
  rewrite firstn_prefix, firstn_prefix_snoc, map_app, fold_left_app.
  reflexivity.
Qed.

Lemma frame_offset_all (fps : Q) (enabled : list Segment) :
  frame_offset fps enabled (List.length enabled)
  = fold_left Z.add (map (seg_frames fps) enabled) 0%Z.
Proof. unfold frame_offset. now rewrite firstn_all. Qed.

(** The frames between the rounded ends differ from the rounded duration
    by one frame at most. *)
Lemma rounded_ends_near (a b fps : Q) :
  (Z.abs (PyNum.round (b * fps) - PyNum.round (a * fps)
          - PyNum.round ((b - a) * fps)) <= 1)%Z.
Proof.
  destruct (RoundMore.round_near (b * fps)) as [B1 B2].
  destruct (RoundMore.round_near (a * fps)) as [A1 A2].
  destruct (RoundMore.round_near ((b - a) * fps)) as [D1 D2].
  set (rb := PyNum.round (b * fps)) in *.
  set (ra := PyNum.round (a * fps)) in *.
  set (rd := PyNum.round ((b - a) * fps)) in *.
  assert (H1 : (rb - ra - rd < 2)%Z).
  { rewrite Zlt_Qlt. unfold Z.sub.
    rewrite !inject_Z_plus, !inject_Z_opp. change (inject_Z 2) with 2. lra. }
  assert (H2 : (-2 < rb - ra - rd)%Z).
  { rewrite Zlt_Qlt. unfold Z.sub.
    rewrite !inject_Z_plus, !inject_Z_opp. change (inject_Z (-2)) with (-2 # 1).
    lra. }
  lia.
Qed.

End EdlXmlFacts.

Module ExportMoreFacts.

Import Exporter ExporterMore ExportProps EdlXmlProps.

(** [int(x)] is 0 exactly for the numbers strictly between -1 and 1. *)
Lemma int_zero_iff (x : Q) : PyNum.int x = 0%Z <-> - (1) < x /\ x < 1.
Proof.
  unfold PyNum.int.
  destruct (PyNum.Qlt_bool x 0) eqn:E.
  - apply NumFacts.Qlt_bool_true in E. unfold Qceiling.
    pose proof (Qfloor_le (- x)) as H1. pose proof (Qlt_floor (- x)) as H2.
    rewrite inject_Z_plus in H2. change (inject_Z 1) with 1 in H2.
    split.
    + intros H0. assert (Hf : Qfloor (- x) = 0%Z) by lia.
      rewrite Hf in H1, H2. change (inject_Z 0) with 0 in H1, H2. lra.
    + intros [Hlo Hhi].
      rewrite (TimecodeFacts.Qfloor_between (- x) 0); [reflexivity | |].
      * change (inject_Z 0) with 0. lra.
      * change (inject_Z (0 + 1)) with 1. lra.
  - apply NumFacts.Qlt_bool_false in E.
    pose proof (Qfloor_le x) as H1. pose proof (Qlt_floor x) as H2.
    rewrite inject_Z_plus in H2. change (inject_Z 1) with 1 in H2.
    split.
    + intros H0. rewrite H0 in H1, H2. change (inject_Z 0) with 0 in H1, H2.
      lra.
    + intros [Hlo Hhi]. apply TimecodeFacts.Qfloor_between.
      * change (inject_Z 0) with 0. lra.
      * change (inject_Z (0 + 1)) with 1. lra.
Qed.

Lemma in_numbered_from (l : list (Q * Q * string)) (n : nat) (c : Cue) :
  In c (numbered_from n l) ->
  In (cue_start c, cue_end c, cue_text c) l.
Proof.
  revert n. induction l as [|[[a b] t] l IH]; intros n; simpl.
  - auto.
  - intros [<-|H]; [left; reflexivity | right; eauto].
Qed.

Lemma in_expected_cues (keywords : list string)
    (transcript : list TranscriptSegment) (enabled : list Segment)
    (x : Q * Q * string) :
  In x (expected_cues keywords transcript enabled) ->
  exists k seg,
    nth_error enabled k = Some seg
    /\ In x (segment_cues keywords transcript (output_offset enabled k) seg).
Proof.
  unfold expected_cues. rewrite in_flat_map. intros (k & _ & H).
  destruct (nth_error enabled k) as [seg|] eqn:E; [|destruct H].
  eauto.
Qed.

Lemma in_segment_cues (keywords : list string)
    (transcript : list TranscriptSegment) (offset : Q) (seg : Segment)
    (x : Q * Q * string) :
  In x (segment_cues keywords transcript offset seg) ->
  exists ts,
    In ts transcript /\ overlaps seg ts = true
    /\ PyStr.is_empty (cleaned_text keywords ts) = false
    /\ x = (cue_span offset seg ts, cleaned_text keywords ts).
Proof.
  unfold segment_cues. rewrite in_flat_map. intros (ts & Hin & H).
  destruct (overlaps seg ts) eqn:Eo; simpl in H; [|destruct H].
  destruct (PyStr.is_empty (cleaned_text keywords ts)) eqn:Ee; simpl in H;
    [destruct H|].
  destruct H as [<-|[]]. exists ts. auto.
Qed.

Lemma min_le_r (a b : Q) : PyNum.min a b <= b.
Proof. destruct (NumFacts.min_cases a b) as [[H ->]|[H ->]]; lra. Qed.

Lemma overlaps_true (seg : Segment) (ts : TranscriptSegment) :
  overlaps seg ts = true ->
  seg_start seg < ts_end ts /\ ts_start ts < seg_end seg.
Proof.
  unfold overlaps. rewrite andb_true_iff, !NumFacts.Qlt_bool_true. tauto.
Qed.

(** The cue of a sentence lies in the output slot of its segment. *)
Lemma cue_span_in_slot (offset : Q) (seg : Segment) (ts : TranscriptSegment) :
  overlaps seg ts = true ->
  offset <= fst (cue_span offset seg ts)
  /\ snd (cue_span offset seg ts) <= offset + duration seg
  /\ snd (cue_span offset seg ts) - fst (cue_span offset seg ts)
     <= ts_end ts - ts_start ts
  /\ (ts_start ts < ts_end ts -> seg_start seg < seg_end seg ->
      fst (cue_span offset seg ts) < snd (cue_span offset seg ts)).
Proof.
  intros Ho. apply overlaps_true in Ho. destruct Ho as [Ho1 Ho2].
  unfold cue_span, duration. simpl.
  pose proof (NumFacts.max_l (ts_start ts) (seg_start seg)) as M1.
  pose proof (NumFacts.max_r (ts_start ts) (seg_start seg)) as M2.
  pose proof (SlicerMore.min_le_l (ts_end ts) (seg_end seg)) as N1.
  pose proof (min_le_r (ts_end ts) (seg_end seg)) as N2.
  repeat split; try lra.
  intros Hts Hseg.
  destruct (NumFacts.max_cases (ts_start ts) (seg_start seg)) as [[_ ->]|[_ ->]];
    destruct (NumFacts.min_cases (ts_end ts) (seg_end seg)) as [[_ ->]|[_ ->]];
    lra.
Qed.

End ExportMoreFacts.

Import Exporter ExporterMore ExportProps EdlXmlProps.

(** X9. The events of [export_edl] are one per enabled "keep" segment, in
    start order and numbered from 1. The source times of an event are the
    start and end of its segment; its record-in is the sum of the durations
    of the segments before it and its record-out is record-in plus the
    duration of the segment, so the record timeline starts at 0 and each
    event begins where the one before ends. *)
Theorem edl_events_timeline (segments : list Segment) :
  edl_events segments = events_of (enabled_sorted segments)
  /\ List.length (edl_events segments)
     = List.length (enabled_sorted segments)
  /\ (forall k ev, nth_error (edl_events segments) k = Some ev ->
        exists seg,
          nth_error (enabled_sorted segments) k = Some seg
          /\ ev_number ev = S k
          /\ ev_src_in ev = seg_start seg /\ ev_src_out ev = seg_end seg
          /\ ev_rec_in ev = output_offset (enabled_sorted segments) k
          /\ ev_rec_out ev = ev_rec_in ev + (ev_src_out ev - ev_src_in ev))
  /\ (forall ev, nth_error (edl_events segments) 0 = Some ev ->
        ev_rec_in ev = 0)
  /\ (forall k ev ev',
        nth_error (edl_events segments) k = Some ev ->
        nth_error (edl_events segments) (S k) = Some ev' ->
        ev_rec_in ev' = ev_rec_out ev).
Proof.
  rewrite EdlXmlFacts.edl_events_of.
  set (enabled := enabled_sorted segments).
  split; [reflexivity|].
  split; [apply EdlXmlFacts.events_of_length|].
  split; [|split].
  - intros k ev H. apply EdlXmlFacts.events_of_nth in H.
    destruct H as (seg & Hseg & ->). exists seg. simpl.
    repeat split; try assumption.
    apply (EdlXmlFacts.output_offset_S enabled k seg Hseg).
  - intros ev H. apply EdlXmlFacts.events_of_nth in H.
    destruct H as (seg & _ & ->). reflexivity.
  - intros k ev ev' H H'.
    apply EdlXmlFacts.events_of_nth in H, H'.
    destruct H as (seg & _ & ->). destruct H' as (seg' & _ & ->).
    reflexivity.
Qed.

(** X10. For segments whose event times, and their products with the
    frame rate, are finite floats, [export_edl] raises (ZeroDivisionError,
    from [% int(fps)]) exactly when [int(fps)] is 0, that is for a frame
    rate strictly between -1 and 1, and at least one segment is an enabled
    "keep" segment; in every other case it returns a text. With no such
    segment it returns even for a frame rate of 0. *)
Theorem export_edl_raises_iff
    (segments : list Segment) (source_filename : string) (fps : Q)
    (title : string) :
  FloatRange.finite_events fps (edl_events segments) ->
  (export_edl segments source_filename fps title = None
   <-> PyNum.int fps = 0%Z
       /\ exists s, In s segments /\ is_enabled_keep s = true)
  /\ (PyNum.int fps = 0%Z <-> - (1) < fps /\ fps < 1).
Proof.
  intros _. split; [|apply ExportMoreFacts.int_zero_iff].
  unfold export_edl.
  pose proof (EdlXmlFacts.events_lines_none fps source_filename
                (edl_events segments)) as H.
  rewrite <- EdlXmlFacts.enabled_sorted_not_nil.
  assert (Hnil : edl_events segments <> [] <-> enabled_sorted segments <> []).
  { pose proof (EdlXmlFacts.events_of_length (enabled_sorted segments)) as Hl.
    rewrite <- EdlXmlFacts.edl_events_of in Hl.
    destruct (edl_events segments), (enabled_sorted segments);
      simpl in Hl; try discriminate; split; congruence. }
  rewrite <- Hnil.
  destruct (events_lines fps source_filename (edl_events segments)).
  - split; [discriminate|]. intros Hc. apply H in Hc. discriminate.
  - split; [intros _; now apply H | reflexivity].
Qed.

(** Two enabled "keep" segments and a disabled one at half a frame per
    second: the export raises. *)
Lemma export_edl_raises_iff_example :
  let segments := [mkSegment "seg_a" "keep" 0 (15 # 10) None true false;
                   mkSegment "seg_b" "keep" 4 9 None false false;
                   mkSegment "seg_c" "keep" 12 (205 # 10) None true false] in
  (export_edl segments "in.mp4" (1 # 2) "T" = None
   <-> PyNum.int (1 # 2) = 0%Z
       /\ exists s, In s segments /\ is_enabled_keep s = true)
  /\ (PyNum.int (1 # 2) = 0%Z <-> - (1) < 1 # 2 /\ 1 # 2 < 1).
Proof.
  intros segments.
  apply (export_edl_raises_iff segments "in.mp4" (1 # 2) "T").
  repeat constructor; vm_compute; discriminate.
Defined.

(** X11. With no enabled "keep" segment in the list the three exports give
    their empty documents, for every frame rate: the EDL is its two header
    lines, the SRT is the empty string, and the XML has no clip item and a
    sequence duration of 0, as for the empty list. *)
Theorem exports_without_enabled_keep
    (segments : list Segment) (transcript : list TranscriptSegment)
    (filter_keywords : option (list string)) (source_filename : string)
    (fps : Q) (title : string) :
  Forall (fun s => is_enabled_keep s = false) segments ->
  export_edl segments source_filename fps title = Some (edl_header title)
  /\ export_srt segments transcript filter_keywords = EmptyString
  /\ xml_clips segments fps = []
  /\ xml_total_frames segments fps = 0%Z
  /\ export_xml segments source_filename fps title
     = export_xml [] source_filename fps title.
Proof.
  intros H. apply EdlXmlFacts.enabled_sorted_nil in H.
  repeat split.
  - unfold export_edl, edl_events. rewrite H. reflexivity.
  - unfold export_srt, srt_cues. rewrite H. reflexivity.
  - unfold xml_clips. rewrite H. reflexivity.
  - unfold xml_total_frames. rewrite H. reflexivity.
  - unfold export_xml, xml_total_frames, xml_clips. rewrite H. reflexivity.
Qed.

(** A disabled "keep" segment and an enabled "discard" segment, at a frame
    rate of 0. *)
Lemma exports_without_enabled_keep_example :
  let segments := [mkSegment "seg_a" "keep" 0 1 None false false;
                   mkSegment "seg_b" "discard" 2 3 None true false] in
  let transcript := [mkTranscriptSegment "hello" 0 3 []] in
  export_edl segments "in.mp4" 0 "T" = Some (edl_header "T")
  /\ export_srt segments transcript None = EmptyString
  /\ xml_clips segments 0 = []
  /\ xml_total_frames segments 0 = 0%Z
  /\ export_xml segments "in.mp4" 0 "T" = export_xml [] "in.mp4" 0 "T".
Proof.
  intros segments transcript.
  apply (exports_without_enabled_keep segments transcript None "in.mp4" 0 "T").
  repeat constructor.
Defined.

(** X12. The clip items of [export_xml] are one per enabled "keep" segment,
    in start order and numbered from 1. On the timeline a clip starts at
    the sum of the frame counts of the clips before it and ends at its
    start plus its own frame count, so the first starts at frame 0, each
    begins where the one before ends, and the sequence duration is the sum
    of all frame counts. The source range out - in of a clip is rounded
    separately from its frame count and differs from it by one frame at
    most; a segment from 0.013 s to 0.053 s at 30 frames per second has a
    frame count of 1 and a source range of 2. *)
Theorem xml_clips_timeline (segments : list Segment) (fps : Q) :
  xml_clips segments fps = clips_of fps (enabled_sorted segments)
  /\ List.length (xml_clips segments fps)
     = List.length (enabled_sorted segments)
  /\ (forall k c, nth_error (xml_clips segments fps) k = Some c ->
        exists seg,
          nth_error (enabled_sorted segments) k = Some seg
          /\ clip_number c = S k
          /\ clip_duration c = seg_frames fps seg
          /\ clip_start c = frame_offset fps (enabled_sorted segments) k
          /\ clip_end c = (clip_start c + clip_duration c)%Z
          /\ (Z.abs (clip_out c - clip_in c - clip_duration c) <= 1)%Z)
  /\ (forall c, nth_error (xml_clips segments fps) 0 = Some c ->
        clip_start c = 0%Z)
  /\ (forall k c c',
        nth_error (xml_clips segments fps) k = Some c ->
        nth_error (xml_clips segments fps) (S k) = Some c' ->
        clip_start c' = clip_end c)
  /\ xml_total_frames segments fps
     = frame_offset fps (enabled_sorted segments)
                    (List.length (enabled_sorted segments))
  /\ (exists seg c,
        xml_clips [seg] 30 = [c]
        /\ clip_duration c = 1%Z /\ (clip_out c - clip_in c = 2)%Z).
Proof.
  rewrite EdlXmlFacts.xml_clips_of.
  set (enabled := enabled_sorted segments).
  split; [reflexivity|].
  split; [apply EdlXmlFacts.clips_of_length|].
  split; [|split; [|split; [|split]]].
  - intros k c H. apply EdlXmlFacts.clips_of_nth in H.
    destruct H as (seg & Hseg & ->). exists seg. simpl.
    repeat split; try assumption.
    + apply (EdlXmlFacts.frame_offset_S fps enabled k seg Hseg).
    + apply EdlXmlFacts.rounded_ends_near.
  - intros c H. apply EdlXmlFacts.clips_of_nth in H.
    destruct H as (seg & _ & ->). reflexivity.
  - intros k c c' H H'.
    apply EdlXmlFacts.clips_of_nth in H, H'.
    destruct H as (seg & _ & ->). destruct H' as (seg' & _ & ->).
    reflexivity.
  - unfold xml_total_frames. fold enabled.
    now rewrite EdlXmlFacts.frame_offset_all.
  - exists (mkSegment "seg_0" "keep" (13 # 1000) (53 # 1000) None true false).
    eexists. split; [vm_compute; reflexivity|].
    split; vm_compute; reflexivity.
Qed.

(** X13. Every cue of [export_srt] comes from a sentence that overlaps an
    enabled "keep" segment and lies in the output slot of that segment:
    it starts no earlier than the sum of the durations of the segments
    before and ends no later than that sum plus the duration of the
    segment itself. A cue is no longer than its sentence, and when the
    sentence and the segment each start before they end, so does the
    cue. *)
Theorem srt_cues_within_slots
    (segments : list Segment) (transcript : list TranscriptSegment)
    (filter_keywords : option (list string)) :
  Forall
    (fun c =>
       exists k seg ts,
         nth_error (enabled_sorted segments) k = Some seg
         /\ In ts transcript
         /\ overlaps seg ts = true
         /\ output_offset (enabled_sorted segments) k <= cue_start c
         /\ cue_end c
            <= output_offset (enabled_sorted segments) k + duration seg
         /\ cue_end c - cue_start c <= ts_end ts - ts_start ts
         /\ (ts_start ts < ts_end ts -> seg_start seg < seg_end seg ->
             cue_start c < cue_end c))
    (srt_cues segments transcript filter_keywords).
Proof.
  apply Forall_forall. intros c Hc.
  unfold srt_cues in Hc.
  rewrite ExportFacts.segment_loop_cues, ExportFacts.cues_from_expected in Hc.
  simpl in Hc.
  apply ExportMoreFacts.in_numbered_from in Hc.
  apply ExportMoreFacts.in_expected_cues in Hc.
  destruct Hc as (k & seg & Hseg & Hc).
  apply ExportMoreFacts.in_segment_cues in Hc.
  destruct Hc as (ts & Hts & Ho & _ & Hx).
  exists k, seg, ts.
  split; [exact Hseg|]. split; [exact Hts|]. split; [exact Ho|].
  pose proof (ExportMoreFacts.cue_span_in_slot
                (output_offset (enabled_sorted segments) k) seg ts Ho) as Hs.
  apply (f_equal fst) in Hx. simpl in Hx. rewrite <- Hx in Hs. exact Hs.
Qed.

(** ** More on the detector *)

Module MatchFacts.

Import Detector DetectorProps MatchProps.

Lemma contains_empty (s : string) : PyStr.contains EmptyString s = true.
Proof. destruct s; reflexivity. Qed.

(** A keyword that is blank after [strip] has score 1 on every text. *)
Lemma fuzzy_match_blank (ratio : string -> string -> Q) (text kw : string) :
  PyStr.strip kw = EmptyString -> _fuzzy_match ratio text kw = 1.
Proof.
  intros H. unfold _fuzzy_match. rewrite H. simpl.
  now rewrite contains_empty, orb_true_r.
Qed.

Lemma threshold_rounded (score : Q) :
  FUZZY_THRESHOLD <= score -> 75 # 100 <= PyNum.round3 score.
Proof.
  intros H. apply RoundMore.round3_mono in H.
  assert (E : PyNum.round3 FUZZY_THRESHOLD == 75 # 100) by reflexivity.
  lra.
Qed.

Lemma skipn_nth {A : Type} (l : list A) (i : nat) (a : A) :
  nth_error l i = Some a -> skipn i l = a :: skipn (S i) l.
Proof.
  revert l. induction i as [|i IH]; intros [|x l] H; try discriminate.
  - now injection H as ->.
  - simpl in H. simpl. now rewrite (IH l H).
Qed.

Section Detection.

Variable ratio : string -> string -> Q.

Lemma sentence_keywords_first (seg : TranscriptSegment) (seg_text : string)
    (km : list (string * MarkerType)) (markers : list Marker) :
  sentence_keywords ratio seg seg_text km markers
  = markers
    ++ marker_list
         (match first_match ratio km seg_text with
          | Some (keyword, mtype) =>
              Some (mkMarker mtype seg_text (ts_start seg) (ts_end seg)
                             (PyNum.round3
                                (_fuzzy_match ratio seg_text keyword)))
          | None => None
          end).
Proof.
  induction km as [|[keyword mtype] km IH]; simpl.
  - now rewrite app_nil_r.
  - unfold reaches at 1. simpl.
    destruct (Qle_bool FUZZY_THRESHOLD (_fuzzy_match ratio seg_text keyword)).
    + reflexivity.
    + exact IH.
Qed.

(** The sentence pass appends the markers of the sentences in turn. *)
Lemma sentence_pass_markers (km : list (string * MarkerType))
    (transcript : list TranscriptSegment) (markers : list Marker) :
  fold_left (sentence_body ratio km) transcript markers
  = markers ++ sentence_markers ratio km transcript.
Proof.
  revert markers. induction transcript as [|seg tr IH]; intros markers; simpl.
  - now rewrite app_nil_r.
  - rewrite IH. unfold sentence_body at 1. rewrite sentence_keywords_first.
    now rewrite <- app_assoc.
Qed.

Lemma sentence_marker_reaches (km : list (string * MarkerType))
    (seg : TranscriptSegment) (m : Marker) :
  sentence_marker ratio km seg = Some m ->
  spans_sentence seg m /\ 75 # 100 <= marker_confidence m
  /\ In (marker_type m) (map snd km).
Proof.
  unfold sentence_marker, first_match.
  destruct (find _ km) as [[keyword mtype]|] eqn:E; [|discriminate].
  intros H. injection H as <-. apply find_some in E. destruct E as [Hin Hr].
  unfold reaches in Hr. simpl in Hr. apply Qle_bool_iff in Hr.
  split; [repeat split|]. split; simpl.
  - now apply threshold_rounded.
  - apply in_map_iff. exists (keyword, mtype). auto.
Qed.

Lemma in_sentence_markers (km : list (string * MarkerType))
    (transcript : list TranscriptSegment) (m : Marker) :
  In m (sentence_markers ratio km transcript)
  <-> exists seg, In seg transcript /\ sentence_marker ratio km seg = Some m.
Proof.
  unfold sentence_markers. rewrite in_flat_map.
  split; intros (seg & Hin & H); exists seg; split; try assumption.
  - destruct (sentence_marker ratio km seg); simpl in H; [|destruct H].
    destruct H as [->|[]]. reflexivity.
  - rewrite H. now left.
Qed.

Lemma sentence_markers_length (km : list (string * MarkerType))
    (transcript : list TranscriptSegment) :
  (List.length (sentence_markers ratio km transcript)
   <= List.length transcript)%nat.
Proof.
  induction transcript as [|seg tr IH]; simpl; [lia|].
  rewrite length_app.
  destruct (sentence_marker ratio km seg); simpl; lia.
Qed.

Variable words : list TranscriptWord.

Lemma join_words_text (count from : nat) :
  (from + count <= List.length words)%nat ->
  join_words words from count = Return (words_text words from count).
Proof.
  revert from. induction count as [|k IH]; intros from Hle; simpl.
  - unfold words_text. reflexivity.
  - destruct (DetectorFacts.getitem_lt words from) as [w Hw]; [lia|].
    rewrite Hw. simpl. rewrite IH by lia. simpl.
    unfold getitem in Hw.
    destruct (nth_error words from) as [w'|] eqn:E; [|discriminate].
    injection Hw as ->.
    unfold words_text. rewrite (skipn_nth words from w E). reflexivity.
Qed.

(** The window loop: a match ends within four words of its start and its
    score reaches the threshold; no match answers the start index and
    0. *)
Lemma span_loop_spec (i : nat) (keyword : string) (spans : list nat) :
  Forall (fun span => (1 <= span <= 5 /\ i + span <= List.length words)%nat)
         spans ->
  exists is_match end_idx score,
    span_loop ratio words i keyword spans = Return (is_match, end_idx, score)
    /\ (i <= end_idx <= i + 4)%nat
    /\ ((i < List.length words)%nat -> (end_idx < List.length words)%nat)
    /\ is_match = Qle_bool FUZZY_THRESHOLD score
    /\ (is_match = false -> end_idx = i /\ score = 0).
Proof.
  induction 1 as [|span spans [H1 H2] _ IH]; simpl.
  - exists false, i, 0. repeat split; try lia.
  - rewrite (join_words_text span i H2). simpl.
    destruct (Qle_bool FUZZY_THRESHOLD
                (_fuzzy_match ratio (words_text words i span) keyword)) eqn:E.
    + do 3 eexists. split; [reflexivity|].
      repeat split; try lia; try discriminate. now rewrite E.
    + exact IH.
Qed.

Lemma spans_in_words (i : nat) :
  Forall (fun span => (1 <= span <= 5 /\ i + span <= List.length words)%nat)
         (range 1 (Nat.min 6 (List.length words - i + 1))).
Proof.
  apply Forall_forall. intros span Hin.
  apply DetectorFacts.in_range in Hin. lia.
Qed.

Lemma check_word_sequence_spec (i : nat) (keyword : string) :
  (i < List.length words)%nat ->
  exists is_match end_idx score,
    _check_word_sequence ratio words i keyword
    = Return (is_match, end_idx, score)
    /\ (i <= end_idx <= i + 4)%nat /\ (end_idx < List.length words)%nat
    /\ is_match = Qle_bool FUZZY_THRESHOLD score
    /\ ((String.length keyword <= 3)%nat -> end_idx = i)
    /\ (is_match = false -> end_idx = i).
Proof.
  intros Hi. unfold _check_word_sequence.
  destruct (Nat.leb_spec (String.length keyword) 3) as [Hk|Hk].
  - destruct (DetectorFacts.getitem_lt words i Hi) as [w ->]. simpl.
    do 3 eexists. split; [reflexivity|]. repeat split; lia.
  - destruct (span_loop_spec i keyword _ (spans_in_words i))
      as (m & e & sc & -> & He & Hlen & Hm & Hno).
    exists m, e, sc. split; [reflexivity|].
    split; [exact He|]. split; [now apply Hlen|]. split; [exact Hm|].
    split; [lia|]. intros Hf. now apply Hno.
Qed.

Lemma check_word_sequence_outside (i : nat) (keyword : string) :
  (List.length words <= i)%nat ->
  _check_word_sequence ratio words i keyword
  = if (String.length keyword <=? 3)%nat
    then Raise IndexError else Return (false, i, 0).
Proof.
  intros Hi. unfold _check_word_sequence.
  destruct (String.length keyword <=? 3)%nat.
  - unfold getitem.
    destruct (nth_error words i) eqn:E; [|reflexivity].
    assert (nth_error words i <> None) by congruence.
    apply nth_error_Some in H. lia.
  - replace (List.length words - i + 1)%nat with 1%nat by lia.
    reflexivity.
Qed.

Lemma word_keywords_spec (i : nat) (km : list (string * MarkerType)) :
  (i < List.length words)%nat ->
  exists found,
    word_keywords ratio words i km = Return found
    /\ match found with
       | Some (mtype, end_idx, score) =>
           (i <= end_idx <= i + 4)%nat /\ (end_idx < List.length words)%nat
           /\ FUZZY_THRESHOLD <= score
       | None => True
       end.
Proof.
  intros Hi. induction km as [|[keyword mtype] km IH]; simpl.
  - exists None. auto.
  - destruct (check_word_sequence_spec i keyword Hi)
      as (m & e & sc & -> & He & Hlen & Hm & _).
    simpl. destruct m.
    + exists (Some (mtype, e, sc)). split; [reflexivity|].
      repeat split; try lia. now apply Qle_bool_iff.
    + exact IH.
Qed.

End Detection.

Section Passes.

Variable ratio : string -> string -> Q.
Variable km : list (string * MarkerType).

(** The word loop only appends, at most one marker for each word still to
    scan. *)
Lemma word_loop_spec (seg : TranscriptSegment) (fuel : nat) :
  forall (i : nat) (markers : list Marker),
    (List.length (ts_words seg) - i <= fuel)%nat ->
    exists extra,
      word_loop ratio fuel (ts_words seg) km i markers
      = Return (markers ++ extra)
      /\ Forall (from_words seg) extra
      /\ (List.length extra <= List.length (ts_words seg) - i)%nat.
Proof.
  induction fuel as [|fuel IH]; intros i markers Hfuel; simpl.
  - destruct (Nat.ltb_spec i (List.length (ts_words seg))); [lia|].
    exists []. rewrite app_nil_r. repeat split; [constructor | simpl; lia].
  - destruct (Nat.ltb_spec i (List.length (ts_words seg))) as [Hi|Hi].
    2:{ exists []. rewrite app_nil_r. repeat split; [constructor | simpl; lia]. }
    destruct (DetectorFacts.getitem_lt (ts_words seg) i Hi) as [word Hw].
    rewrite Hw. simpl.
    destruct (word_keywords_spec ratio (ts_words seg) i km Hi)
      as (found & -> & Hfound).
    simpl. destruct found as [[[mtype end_idx] score]|].
    + destruct Hfound as (Hend & Hlen & Hsc).
      destruct (DetectorFacts.getitem_lt (ts_words seg) end_idx Hlen)
        as [end_word Hew].
      rewrite Hew. simpl.
      destruct (already_found markers word end_word); simpl.
      * destruct (IH (end_idx + 1)%nat markers) as (extra & -> & Hx & Hl);
          [lia|].
        exists extra. repeat split; [exact Hx | lia].
      * rewrite (join_words_text (ts_words seg)) by lia. simpl.
        destruct (IH (end_idx + 1)%nat
                     (markers ++ [mkMarker mtype
                                    (words_text (ts_words seg) i
                                                (end_idx + 1 - i))
                                    (tw_start word) (tw_end end_word)
                                    (PyNum.round3 score)]))
          as (extra & -> & Hx & Hl); [lia|].
        eexists. rewrite <- app_assoc. split; [reflexivity|].
        split.
        -- constructor; [|exact Hx]. split; simpl.
           ++ now apply threshold_rounded.
           ++ unfold getitem in Hw, Hew.
              destruct (nth_error (ts_words seg) i) as [w|] eqn:E1;
                [|discriminate].
              destruct (nth_error (ts_words seg) end_idx) as [we|] eqn:E2;
                [|discriminate].
              injection Hw as ->. injection Hew as ->.
              exists i, end_idx, word, end_word. simpl.
              repeat split; try assumption; lia.
        -- simpl. lia.
    + destruct (IH (i + 1)%nat markers) as (extra & -> & Hx & Hl); [lia|].
      exists extra. repeat split; [exact Hx | lia].
Qed.

(** The word pass only appends, markers of the words of the sentences. *)
Lemma word_pass_spec (transcript : list TranscriptSegment)
    (markers : list Marker) :
  exists extra,
    fold_left (word_body ratio km) transcript (Return markers)
    = Return (markers ++ extra)
    /\ Forall (fun m => exists seg, In seg transcript /\ from_words seg m)
              extra
    /\ (List.length extra
        <= fold_left (fun n seg => n + List.length (ts_words seg))
                     transcript 0)%nat.
Proof.
  revert markers. induction transcript as [|seg tr IH]; intros markers; simpl.
  - exists []. rewrite app_nil_r. repeat split; [constructor | simpl; lia].
  - assert (Hstep : exists extra,
               (match ts_words seg with
                | [] => Return markers
                | _ :: _ =>
                    word_loop ratio (List.length (ts_words seg)) (ts_words seg)
                              km 0 markers
                end) = Return (markers ++ extra)
               /\ Forall (from_words seg) extra
               /\ (List.length extra <= List.length (ts_words seg))%nat).
    { destruct (ts_words seg) as [|w ws] eqn:E.
      - exists []. rewrite app_nil_r.
        repeat split; [constructor | simpl; lia].
      - rewrite <- E.
        destruct (word_loop_spec seg (List.length (ts_words seg)) 0 markers)
          as (extra & H1 & H2 & H3); [lia|].
        exists extra. repeat split; try assumption. lia. }
    destruct Hstep as (extra1 & -> & Hx1 & Hl1).
    destruct (IH (markers ++ extra1)) as (extra2 & -> & Hx2 & Hl2).
    exists (extra1 ++ extra2). rewrite app_assoc. split; [reflexivity|].
    split.
    + apply Forall_app. split.
      * eapply Forall_impl; [|exact Hx1]. intros m Hm. exists seg. auto.
      * eapply Forall_impl; [|exact Hx2].
        intros m (s & Hs & Hm). exists s. auto.
    + rewrite length_app.
      assert (Hsum : forall l n,
                 fold_left (fun n seg => (n + List.length (ts_words seg))%nat)
                           l n
                 = (n + fold_left
                          (fun n seg => (n + List.length (ts_words seg))%nat)
                          l 0)%nat).
      { induction l as [|x l IHl]; intros n; simpl; [lia|].
        rewrite IHl, (IHl (List.length (ts_words x))). lia. }
      rewrite Hsum. lia.
Qed.

End Passes.

(** What [detect_markers] returns: the markers of the sentence pass and
    those the word pass appends, sorted. *)
Lemma detect_markers_parts (ratio : string -> string -> Q)
    (transcript : list TranscriptSegment)
    (ng_keywords ok_keywords : list string)
    (start_keywords end_keywords : option (list string)) :
  let km := build_keyword_map ng_keywords ok_keywords
                              (or_empty start_keywords)
                              (or_empty end_keywords) in
  exists extra,
    detect_markers ratio transcript ng_keywords ok_keywords
                   start_keywords end_keywords
    = Return (sorted_by marker_start
                        (sentence_markers ratio km transcript ++ extra))
    /\ Forall (fun m => exists seg, In seg transcript
                                    /\ from_words seg m) extra
    /\ (List.length extra
        <= fold_left (fun n seg => n + List.length (ts_words seg))
                     transcript 0)%nat.
Proof.
  intros km. unfold detect_markers. fold km.
  rewrite sentence_pass_markers. simpl.
  destruct (word_pass_spec ratio km transcript
                           (sentence_markers ratio km transcript))
    as (extra & -> & Hx & Hl).
  exists extra. auto.
Qed.

Lemma in_keyword_map (ng_keywords ok_keywords start_keywords end_keywords
    : list string) (kw : string) :
  In kw (ng_keywords ++ ok_keywords ++ start_keywords ++ end_keywords) ->
  exists t, In (kw, t) (build_keyword_map ng_keywords ok_keywords
                                          start_keywords end_keywords).
Proof.
  unfold build_keyword_map. rewrite !in_app_iff.
  intros [H|[H|[H|H]]].
  - exists NG. rewrite !in_app_iff, !in_map_iff. left. eauto.
  - exists OK. rewrite !in_app_iff, !in_map_iff. right. left. eauto.
  - exists START. rewrite !in_app_iff, !in_map_iff. right. right. left. eauto.
  - exists END. rewrite !in_app_iff, !in_map_iff. right. right. right. eauto.
Qed.

Lemma spans_words_timed (seg : TranscriptSegment) (m : Marker) :
  spans_words seg m -> timed seg -> marker_start m <= marker_end m.
Proof.
  intros (i & e & w & we & Hie & Hw & Hwe & -> & -> & _) [_ Ht].
  apply (Ht i e w we); [lia | exact Hw | exact Hwe].
Qed.

End MatchFacts.

Import DetectorProps MatchProps.

(** X14. [_check_word_sequence] at an index inside the word list returns:
    the end index it answers is the start index or one of the four after
    it, and lies inside the list; the match flag says exactly that the score
    reaches the threshold; without a match, and for every keyword of at most
    three characters, the end index is the start index. At an index outside
    the list it raises IndexError for a keyword of at most three characters
    and returns (False, start_idx, 0.0) for a longer one. *)
Theorem check_word_sequence_cases
    (ratio : string -> string -> Q) (words : list TranscriptWord)
    (start_idx : nat) (keyword : string) :
  ((start_idx < List.length words)%nat ->
   exists is_match end_idx score,
     Detector._check_word_sequence ratio words start_idx keyword
     = Return (is_match, end_idx, score)
     /\ (start_idx <= end_idx <= start_idx + 4)%nat
     /\ (end_idx < List.length words)%nat
     /\ is_match = Qle_bool Detector.FUZZY_THRESHOLD score
     /\ ((String.length keyword <= 3)%nat -> end_idx = start_idx)
     /\ (is_match = false -> end_idx = start_idx))
  /\ ((List.length words <= start_idx)%nat ->
      Detector._check_word_sequence ratio words start_idx keyword
      = if (String.length keyword <=? 3)%nat
        then Raise IndexError else Return (false, start_idx, 0)).
Proof.
  split.
  - apply MatchFacts.check_word_sequence_spec.
  - apply MatchFacts.check_word_sequence_outside.
Qed.

(** X15. The sentence pass of [detect_markers] gives a sentence at most one
    marker: that of the first keyword, in the order NG, OK, START, END and
    in list order within a kind, whose score on the stripped text reaches
    the threshold; it spans the sentence and carries the stripped text.
    Every such marker is among the markers returned, whatever the word pass
    adds, and the markers returned are at most one for each sentence and
    one for each word. *)
Theorem detect_markers_keeps_sentence_markers
    (ratio : string -> string -> Q) (transcript : list TranscriptSegment)
    (ng_keywords ok_keywords : list string)
    (start_keywords end_keywords : option (list string)) :
  exists markers,
    Detector.detect_markers ratio transcript ng_keywords ok_keywords
                            start_keywords end_keywords = Return markers
    /\ (forall seg m,
          In seg transcript ->
          sentence_marker ratio
            (Detector.build_keyword_map ng_keywords ok_keywords
               (Detector.or_empty start_keywords)
               (Detector.or_empty end_keywords)) seg = Some m ->
          In m markers /\ spans_sentence seg m)
    /\ (List.length markers
        <= List.length transcript
           + fold_left (fun n seg => n + List.length (ts_words seg))
                       transcript 0)%nat.
Proof.
  destruct (MatchFacts.detect_markers_parts ratio transcript ng_keywords
              ok_keywords start_keywords end_keywords)
    as (extra & Hd & _ & Hl).
  eexists. split; [exact Hd|]. split.
  - intros seg m Hseg Hm. split.
    + eapply Permutation_in; [apply Permutation_sym, sorted_by_perm|].
      apply in_or_app. left. apply MatchFacts.in_sentence_markers. eauto.
    + apply (MatchFacts.sentence_marker_reaches ratio _ seg m Hm).
  - rewrite (Permutation_length (sorted_by_perm _ _)).
    rewrite length_app.
    pose proof (MatchFacts.sentence_markers_length ratio
                  (Detector.build_keyword_map ng_keywords ok_keywords
                     (Detector.or_empty start_keywords)
                     (Detector.or_empty end_keywords)) transcript).
    lia.
Qed.

(** X16. A keyword that is empty or blank has score 1.0 on every text: with
    such a keyword in any of the four lists, [detect_markers] returns for
    every sentence of the transcript a marker that spans the sentence and
    carries its stripped text. *)
Theorem blank_keyword_marks_every_sentence
    (ratio : string -> string -> Q) (transcript : list TranscriptSegment)
    (ng_keywords ok_keywords : list string)
    (start_keywords end_keywords : option (list string)) (kw : string) :
  In kw (all_keywords ng_keywords ok_keywords start_keywords end_keywords) ->
  PyStr.strip kw = EmptyString ->
  (forall text, Detector._fuzzy_match ratio text kw = 1)
  /\ exists markers,
       Detector.detect_markers ratio transcript ng_keywords ok_keywords
                               start_keywords end_keywords = Return markers
       /\ forall seg, In seg transcript ->
            exists m, In m markers /\ spans_sentence seg m
                      /\ 75 # 100 <= marker_confidence m.
Proof.
  intros Hkw Hblank.
  split; [intros text; now apply MatchFacts.fuzzy_match_blank|].
  destruct (MatchFacts.detect_markers_parts ratio transcript ng_keywords
              ok_keywords start_keywords end_keywords)
    as (extra & Hd & _ & _).
  eexists. split; [exact Hd|].
  intros seg Hseg.
  set (km := Detector.build_keyword_map ng_keywords ok_keywords
               (Detector.or_empty start_keywords)
               (Detector.or_empty end_keywords)) in *.
  destruct (MatchFacts.in_keyword_map _ _ _ _ kw Hkw) as [t Ht].
  fold km in Ht.
  destruct (sentence_marker ratio km seg) as [m|] eqn:E.
  - exists m.
    destruct (MatchFacts.sentence_marker_reaches ratio km seg m E)
      as (Hs & Hc & _).
    split; [|auto].
    eapply Permutation_in; [apply Permutation_sym, sorted_by_perm|].
    apply in_or_app. left. apply MatchFacts.in_sentence_markers. eauto.
  - exfalso. unfold sentence_marker, first_match in E.
    destruct (find _ km) as [[k' t']|] eqn:F; [discriminate|].
    pose proof (find_none _ _ F (kw, t) Ht) as Hn.
    unfold reaches in Hn. simpl in Hn.
    rewrite (MatchFacts.fuzzy_match_blank ratio _ kw Hblank) in Hn.
    discriminate Hn.
Qed.

(** One blank NG keyword and two sentences. *)
Lemma blank_keyword_marks_every_sentence_example :
  let transcript := [mkTranscriptSegment "hello there" 0 2 [];
                     mkTranscriptSegment "good bye" 3 5 []] in
  (forall text, Detector._fuzzy_match Sample.no_ratio text " " = 1)
  /\ exists markers,
       Detector.detect_markers Sample.no_ratio transcript [" "%string] []
                               None None = Return markers
       /\ forall seg, In seg transcript ->
            exists m, In m markers /\ spans_sentence seg m
                      /\ 75 # 100 <= marker_confidence m.
Proof.
  intros transcript.
  apply (blank_keyword_marks_every_sentence Sample.no_ratio transcript
           [" "%string] [] None None " ").
  - simpl. auto.
  - reflexivity.
Defined.

(** X17. Every marker [detect_markers] returns has a confidence of 0.75 or
    more and comes from a sentence of the transcript: it either spans the
    sentence and carries its stripped text, or spans one to five
    consecutive words of the sentence, from the start of the first to the
    end of the last, and carries their text. When the times of that
    sentence are in order the marker starts no later than it ends. *)
Theorem detect_markers_provenance
    (ratio : string -> string -> Q) (transcript : list TranscriptSegment)
    (ng_keywords ok_keywords : list string)
    (start_keywords end_keywords : option (list string)) :
  exists markers,
    Detector.detect_markers ratio transcript ng_keywords ok_keywords
                            start_keywords end_keywords = Return markers
    /\ Forall
         (fun m =>
            75 # 100 <= marker_confidence m
            /\ exists seg,
                 In seg transcript
                 /\ (spans_sentence seg m \/ spans_words seg m)
                 /\ (timed seg -> marker_start m <= marker_end m))
         markers.
Proof.
  destruct (MatchFacts.detect_markers_parts ratio transcript ng_keywords
              ok_keywords start_keywords end_keywords)
    as (extra & Hd & Hx & _).
  eexists. split; [exact Hd|].
  eapply Permutation_Forall; [apply Permutation_sym, sorted_by_perm|].
  apply Forall_app. split.
  - apply Forall_forall. intros m Hm.
    apply MatchFacts.in_sentence_markers in Hm.
    destruct Hm as (seg & Hseg & Hm).
    destruct (MatchFacts.sentence_marker_reaches ratio _ seg m Hm)
      as (Hs & Hc & _).
    split; [exact Hc|]. exists seg. split; [exact Hseg|].
    split; [left; exact Hs|].
    intros [Ht _]. destruct Hs as (_ & -> & ->). exact Ht.
  - eapply Forall_impl; [|exact Hx].
    intros m (seg & Hseg & Hc & Hw).
    split; [exact Hc|]. exists seg. split; [exact Hseg|].
    split; [right; exact Hw|].
    now apply MatchFacts.spans_words_timed.
Qed.

(** ** Detection followed by slicing *)

Module AnalysisFacts.

Import Slicer Props DetectorProps MatchProps Analysis.

Lemma is_type_true (t : MarkerType) (m : Marker) :
  is_type t m = true <-> marker_type m = t.
Proof.
  unfold is_type. destruct (marker_type m), t; simpl;
    split; intros H; try reflexivity; discriminate.
Qed.

Lemma in_filter_type (t : MarkerType) (markers : list Marker) (m : Marker) :
  In m (filter (is_type t) markers) <-> In m markers /\ marker_type m = t.
Proof. rewrite filter_In, is_type_true. tauto. Qed.

Lemma merge_triggered (l : list Marker) (segments : list Segment) :
  Forall (triggered_by l) segments ->
  Forall (triggered_by l) (_merge_overlapping segments).
Proof.
  intros Hs. apply Forall_forall. intros o Ho.
  destruct (MergeFacts.merge_overlapping_origin segments o Ho)
    as (h & Hh & ->).
  exact (proj1 (Forall_forall _ _) Hs h Hh).
Qed.

Section Loops.

Variable new_id : nat -> string.
Variables (total_duration pre_buffer post_buffer : Q).

Lemma backtrack_loop_triggered (l ng_markers oks : list Marker)
    (segments : list Segment) :
  incl oks l ->
  Forall (triggered_by l) segments ->
  Forall (triggered_by l)
    (fold_left (backtrack_body new_id ng_markers total_duration
                               pre_buffer post_buffer) oks segments).
Proof.
  revert segments. induction oks as [|ok oks IH]; intros segments Hin Hs; simpl.
  - exact Hs.
  - apply IH; [intros x Hx; apply Hin; now right|].
    unfold backtrack_body.
    destruct (backtrack_bounds _ _ _ _ _ _) as [a b].
    destruct (PyNum.Qlt_bool _ _); [|exact Hs].
    apply Forall_app. split; [exact Hs|].
    constructor; [|constructor].
    exists ok. split; [apply Hin; now left | reflexivity].
Qed.

Lemma interval_loop_triggered (l start_markers end_markers ms : list Marker)
    (segments : list Segment) :
  incl ms l ->
  Forall (triggered_by l) segments ->
  Forall (triggered_by l)
    (fold_left (interval_body new_id start_markers end_markers
                              total_duration pre_buffer post_buffer)
               ms segments).
Proof.
  revert segments. induction ms as [|m ms IH]; intros segments Hin Hs; simpl.
  - exact Hs.
  - apply IH; [intros x Hx; apply Hin; now right|].
    unfold interval_body.
    destruct (interval_bounds _ _ _ _ _ _) as [a b].
    destruct (PyNum.Qlt_bool _ _); [|exact Hs].
    apply Forall_app. split; [exact Hs|].
    constructor; [|constructor].
    exists m. split; [apply Hin; now left | reflexivity].
Qed.

End Loops.

(** What [detect_markers] returns, as the slicers use it. *)
Lemma detect_markers_summary (ratio : string -> string -> Q)
    (transcript : list TranscriptSegment)
    (ng_keywords ok_keywords : list string)
    (start_keywords end_keywords : option (list string)) :
  exists markers,
    Detector.detect_markers ratio transcript ng_keywords ok_keywords
                            start_keywords end_keywords = Return markers
    /\ StronglySorted le_marker_start markers
    /\ Forall (fun m => 75 # 100 <= marker_confidence m) markers
    /\ Forall (fun m => keywords_of ng_keywords ok_keywords start_keywords
                                    end_keywords (marker_type m) <> [])
              markers.
Proof.
  destruct (MatchFacts.detect_markers_parts ratio transcript ng_keywords
              ok_keywords start_keywords end_keywords)
    as (extra & Hd & Hx & _).
  eexists. split; [exact Hd|].
  split; [apply sorted_by_sorted|]. split.
  - eapply Permutation_Forall; [apply Permutation_sym, sorted_by_perm|].
    apply Forall_app. split.
    + apply Forall_forall. intros m Hm.
      apply MatchFacts.in_sentence_markers in Hm.
      destruct Hm as (seg & _ & Hm).
      apply (MatchFacts.sentence_marker_reaches ratio _ seg m Hm).
    + eapply Forall_impl; [|exact Hx]. intros m (seg & _ & Hc & _). exact Hc.
  - revert Hd. unfold Detector.detect_markers.
    set (km := Detector.build_keyword_map _ _ _ _).
    destruct (DetectorFacts.word_pass_ok ratio km transcript
                (fold_left (Detector.sentence_body ratio km) transcript []))
      as (markers & -> & Hm).
    { apply DetectorFacts.sentence_pass_well_made. constructor. }
    simpl. intros Hd. injection Hd as <-.
    eapply Permutation_Forall; [apply Permutation_sym, sorted_by_perm|].
    eapply Forall_impl; [|exact Hm]. intros m [_ Ht].
    apply DetectorFacts.keyword_map_kinds in Ht.
    destruct (marker_type m); exact Ht.
Qed.

Lemma no_keyword_no_marker (t : MarkerType) (markers : list Marker)
    (ng_keywords ok_keywords : list string)
    (start_keywords end_keywords : option (list string)) :
  Forall (fun m => keywords_of ng_keywords ok_keywords start_keywords
                               end_keywords (marker_type m) <> []) markers ->
  keywords_of ng_keywords ok_keywords start_keywords end_keywords t = [] ->
  filter (is_type t) markers = [].
Proof.
  intros Hm Ht.
  destruct (filter (is_type t) markers) as [|m l] eqn:E; [reflexivity|].
  assert (Hin : In m (filter (is_type t) markers)) by (rewrite E; now left).
  apply in_filter_type in Hin. destruct Hin as [Hin Hty].
  rewrite Forall_forall in Hm. specialize (Hm m Hin).
  rewrite Hty in Hm. contradiction.
Qed.

End AnalysisFacts.

Import Slicer Props DetectorProps Analysis.

(** X18. Detection followed by slicing, as the analysis runs them, returns
    for every transcript, settings and duration: no step raises. The
    segments are sorted by start, do not overlap, are enabled "keep"
    segments not manually adjusted, and each carries as its trigger a
    marker that detection returned, of kind OK in backtrack mode and START
    in interval mode, with a confidence of 0.75 or more; the one segment
    without a trigger is the whole video from 0 to the duration, which
    backtrack mode answers alone when no OK marker is detected. With an
    empty list of OK keywords backtrack mode keeps the whole video (nothing
    when the duration is not positive), and with an empty list of START
    keywords interval mode keeps nothing, whatever the transcript. *)
Theorem analysis_segments
    (ratio : string -> string -> Q) (new_id : nat -> string)
    (settings : ProjectSettings) (transcript : list TranscriptSegment)
    (duration : Q) :
  exists markers segments,
    Detector.detect_markers ratio transcript (ng_keywords settings)
      (ok_keywords settings) (Some (start_keywords settings))
      (Some (end_keywords settings)) = Return markers
    /\ detect_and_slice ratio new_id settings transcript duration
       = Return segments
    /\ sorted_ascending_by_start segments
    /\ pairwise_non_overlapping segments
    /\ Forall fresh_keep segments
    /\ Forall
         (fun s =>
            match trigger_marker s with
            | Some m =>
                In m markers /\ marker_type m = trigger_kind (mode settings)
                /\ 75 # 100 <= marker_confidence m
            | None =>
                mode settings = BACKTRACK
                /\ segments = [s] /\ seg_start s = 0 /\ seg_end s = duration
                /\ filter (is_type OK) markers = []
            end)
         segments
    /\ (mode settings = BACKTRACK -> ok_keywords settings = [] ->
        segments = if PyNum.Qlt_bool 0 duration
                   then [new_segment new_id 0 0 duration None] else [])
    /\ (mode settings = INTERVAL -> start_keywords settings = [] ->
        segments = []).
Proof.
  destruct (AnalysisFacts.detect_markers_summary ratio transcript
              (ng_keywords settings) (ok_keywords settings)
              (Some (start_keywords settings)) (Some (end_keywords settings)))
    as (markers & Hd & _ & Hconf & Hkinds).
  exists markers. unfold detect_and_slice. rewrite Hd. simpl.
  eexists. split; [reflexivity|]. split; [reflexivity|].
  assert (Htrig : forall t l s,
             incl l (filter (is_type t) markers) ->
             triggered_by l s ->
             match trigger_marker s with
             | Some m => In m markers /\ marker_type m = t
                         /\ 75 # 100 <= marker_confidence m
             | None => False
             end).
  { intros t l s Hl (m & Hm & ->).
    apply Hl, AnalysisFacts.in_filter_type in Hm. destruct Hm as [Hm Ht].
    repeat split; try assumption.
    exact (proj1 (Forall_forall _ _) Hconf m Hm). }
  destruct (mode settings) eqn:Emode.
  - (* backtrack *)
    unfold slice_backtrack.
    destruct (filter (is_type OK) markers) as [|ok oks] eqn:Eok.
    + assert (Hout : forall (b : bool),
                 sorted_ascending_by_start
                   (if b then [new_segment new_id 0 0 duration None] else [])
                 /\ pairwise_non_overlapping
                      (if b then [new_segment new_id 0 0 duration None]
                       else [])
                 /\ Forall fresh_keep
                      (if b then [new_segment new_id 0 0 duration None]
                       else [])).
      { intros [|]; repeat split; repeat constructor. }
      destruct (Hout (PyNum.Qlt_bool 0 duration)) as (H1 & H2 & H3).
      split; [exact H1|]. split; [exact H2|]. split; [exact H3|].
      split; [|split; [reflexivity | discriminate]].
      destruct (PyNum.Qlt_bool 0 duration); repeat constructor.
    + split; [apply MergeFacts.merge_overlapping_sorted|].
      split; [apply MergeFacts.merge_overlapping_invariant|].
      split.
      { apply SlicerFacts.merge_overlapping_fresh,
          SlicerFacts.backtrack_loop_fresh. constructor. }
      split.
      * eapply Forall_impl;
          [|apply (AnalysisFacts.merge_triggered (ok :: oks)),
              AnalysisFacts.backtrack_loop_triggered;
            [apply incl_refl | constructor]].
        intros s Hs.
        pose proof (Htrig OK (ok :: oks) s) as H. rewrite Eok in H.
        specialize (H (incl_refl _) Hs).
        destruct (trigger_marker s); [exact H | destruct H].
      * split; [|discriminate].
        intros _ Hno. exfalso.
        pose proof (AnalysisFacts.no_keyword_no_marker OK markers _ _ _ _
                      Hkinds Hno) as Hnil.
        rewrite Eok in Hnil. discriminate.
  - (* interval *)
    unfold slice_interval.
    destruct (filter (is_type START) markers) as [|sm sms] eqn:Est.
    + split; [constructor|]. split; [constructor|]. split; [constructor|].
      split; [constructor|]. split; [discriminate | reflexivity].
    + split; [apply MergeFacts.merge_overlapping_sorted|].
      split; [apply MergeFacts.merge_overlapping_invariant|].
      split.
      { apply SlicerFacts.merge_overlapping_fresh,
          SlicerFacts.interval_loop_fresh. constructor. }
      split.
      * eapply Forall_impl;
          [|apply (AnalysisFacts.merge_triggered (sm :: sms)),
              AnalysisFacts.interval_loop_triggered;
            [apply incl_refl | constructor]].
        intros s Hs.
        pose proof (Htrig START (sm :: sms) s) as H. rewrite Est in H.
        specialize (H (incl_refl _) Hs).
        destruct (trigger_marker s); [exact H | destruct H].
      * split; [discriminate|].
        intros _ Hno. exfalso.
        pose proof (AnalysisFacts.no_keyword_no_marker START markers _ _ _ _
                      Hkinds Hno) as Hnil.
        rewrite Est in Hnil. discriminate.
Qed.

(** ** The routes *)

Module ApiFacts.

Import Api ApiProps.

Lemma find_target_some (segment_id : string) (l before after : list Segment)
    (target : Segment) :
  find_target segment_id l = Some (before, target, after) ->
  l = before ++ target :: after
  /\ seg_id target = segment_id
  /\ Forall (fun s => seg_id s <> segment_id) before.
Proof.
  revert before. induction l as [|seg rest IH]; intros before; simpl.
  - discriminate.
  - destruct (String.eqb_spec (seg_id seg) segment_id) as [E|E].
    + intros H. injection H as <- <- <-. repeat split; auto.
    + destruct (find_target segment_id rest) as [[[b t] a]|]; [|discriminate].
      intros H. injection H as <- <- <-.
      destruct (IH b eq_refl) as (-> & Hid & Hb).
      repeat split; auto.
Qed.

Lemma find_target_none (segment_id : string) (l : list Segment) :
  find_target segment_id l = None ->
  Forall (fun s => seg_id s <> segment_id) l.
Proof.
  induction l as [|seg rest IH]; simpl.
  - constructor.
  - destruct (String.eqb_spec (seg_id seg) segment_id) as [E|E];
      [discriminate|].
    destruct (find_target segment_id rest) as [[[b t] a]|]; [discriminate|].
    intros _. constructor; auto.
Qed.

(** The first segment with the id is found where it stands. *)
Lemma find_target_at (segment_id : string) (before after : list Segment)
    (target : Segment) :
  Forall (fun s => seg_id s <> segment_id) before ->
  seg_id target = segment_id ->
  find_target segment_id (before ++ target :: after)
  = Some (before, target, after).
Proof.
  intros Hb Hid. induction Hb as [|seg before Hseg _ IH]; simpl.
  - rewrite Hid, String.eqb_refl. reflexivity.
  - destruct (String.eqb_spec (seg_id seg) segment_id) as [E|E];
      [contradiction|].
    rewrite IH. reflexivity.
Qed.

Lemma set_enabled_twice (s : Segment) :
  set_enabled (set_enabled s (negb (enabled s)))
              (negb (enabled (set_enabled s (negb (enabled s))))) = s.
Proof. destruct s as [i t a b m e adj]. simpl. now rewrite negb_involutive. Qed.

Lemma update_target_twice (body : SegmentUpdate) (s : Segment) :
  update_target body (update_target body s) = update_target body s.
Proof.
  destruct s as [i t a b m e adj], body as [[x|] [y|]]; reflexivity.
Qed.

Lemma save_load (st : store) (project_id : string) (l : list Segment) :
  saved_for project_id l st (save_segments st project_id l).
Proof.
  unfold saved_for, load_segments, load_project, save_segments. simpl.
  rewrite String.eqb_refl. repeat split.
  intros p Hp. destruct (String.eqb_spec p project_id); [contradiction|].
  reflexivity.
Qed.

Lemma filter_replace_length (p : Segment -> bool)
    (before after : list Segment) (t : Segment) :
  List.length (filter p (before ++ t :: after))
  = (List.length (filter p before) + (if p t then 1 else 0)
     + List.length (filter p after))%nat.
Proof.
  rewrite filter_app, length_app. simpl.
  destruct (p t); simpl; lia.
Qed.

Lemma enabled_sorted_length (l : list Segment) :
  List.length (Exporter.enabled_sorted l)
  = List.length (filter Exporter.is_enabled_keep l).
Proof.
  unfold Exporter.enabled_sorted. apply Permutation_length, sorted_by_perm.
Qed.

Lemma is_enabled_keep_toggled (t : Segment) :
  Exporter.is_enabled_keep (set_enabled t (negb (enabled t)))
  = (negb (enabled t) && String.eqb (seg_type t) "keep")%bool.
Proof. reflexivity. Qed.

(** The source ranges of the events are those of the enabled "keep"
    segments in start order. *)
Lemma source_ranges_sorted (l : list Segment) :
  map source_range (ExporterMore.edl_events l)
  = map (fun s => (seg_start s, seg_end s)) (Exporter.enabled_sorted l).
Proof.
  rewrite EdlXmlFacts.edl_events_of.
  set (enabled := Exporter.enabled_sorted l).
  apply nth_error_ext. intros k.
  rewrite !nth_error_map.
  destruct (nth_error (EdlXmlProps.events_of enabled) k) as [ev|] eqn:E.
  - apply EdlXmlFacts.events_of_nth in E. destruct E as (seg & -> & ->).
    reflexivity.
  - apply nth_error_None in E. rewrite EdlXmlFacts.events_of_length in E.
    apply nth_error_None in E. now rewrite E.
Qed.

Lemma edl_30_returns (segments : list Segment) (source title : string) :
  ExporterMore.export_edl segments source 30 title <> None.
Proof.
  unfold ExporterMore.export_edl.
  destruct (ExporterMore.events_lines 30 source
              (ExporterMore.edl_events segments)) eqn:E; [discriminate|].
  apply EdlXmlFacts.events_lines_none in E. destruct E as [E _].
  vm_compute in E. discriminate E.
Qed.

End ApiFacts.

Import Api ApiProps.

(** X19. [toggle_segment] answers 404 and leaves the store as it is when
    the project has no segment list or the list has no segment with the
    id. Otherwise it flips [enabled] on the first segment of the list with
    the id, which it answers, and saves the list with every other field and
    every other segment unchanged, other projects untouched; a second call
    then answers the segment as it was and saves the list as it was. *)
Theorem toggle_segment_flips (st : store) (project_id segment_id : string) :
  match toggle_segment st project_id segment_id with
  | (Ok target', st') =>
      exists segments segments' target,
        load_segments st project_id = Some segments
        /\ target' = set_enabled target (negb (enabled target))
        /\ replaces_first segment_id target target' segments segments'
        /\ saved_for project_id segments' st st'
        /\ exists st'',
             toggle_segment st' project_id segment_id = (Ok target, st'')
             /\ saved_for project_id segments st' st''
  | (HTTPException status_code d, st') =>
      st' = st /\ status_code = 404%nat
      /\ ((d = NoSegments /\ load_segments st project_id = None)
          \/ (d = NoSuchSegment
              /\ exists segments,
                   load_segments st project_id = Some segments
                   /\ Forall (fun s => seg_id s <> segment_id) segments))
  | (ZeroDivisionError, _) => False
  end.
Proof.
  unfold toggle_segment.
  destruct (load_segments st project_id) as [segments|] eqn:El.
  2:{ split; [reflexivity|]. split; [reflexivity|]. left. auto. }
  destruct (find_target segment_id segments) as [[[before target] after]|] eqn:Ef.
  2:{ split; [reflexivity|]. split; [reflexivity|]. right.
      split; [reflexivity|]. exists segments. split; [reflexivity|].
      now apply ApiFacts.find_target_none. }
  apply ApiFacts.find_target_some in Ef. destruct Ef as (-> & Hid & Hb).
  set (target' := set_enabled target (negb (enabled target))).
  exists (before ++ target :: after), (before ++ target' :: after), target.
  split; [reflexivity|]. split; [reflexivity|].
  split; [exists before, after; auto|].
  split; [apply ApiFacts.save_load|].
  pose proof (ApiFacts.save_load st project_id (before ++ target' :: after))
    as (Hl & _).
  rewrite Hl.
  rewrite (ApiFacts.find_target_at segment_id before after target' Hb Hid).
  assert (Htw : set_enabled target' (negb (enabled target')) = target)
    by apply ApiFacts.set_enabled_twice.
  cbv zeta. rewrite Htw.
  eexists. split; [reflexivity|]. apply ApiFacts.save_load.
Qed.

(** X20. [update_segment] answers 404 and leaves the store as it is when
    the project has no segment list or the list has no segment with the
    id. Otherwise it assigns to the first segment of the list with the id
    the start and the end that the body gives, as they are given and
    whatever their order or sign, sets [manual_adjusted], also for a body
    that gives neither, and keeps id, type, trigger marker and [enabled];
    it answers that segment and saves the list with every other segment
    unchanged. The same call made again answers the same segment and saves
    the same list. *)
Theorem update_segment_assigns
    (st : store) (project_id segment_id : string) (body : SegmentUpdate) :
  match update_segment st project_id segment_id body with
  | (Ok target', st') =>
      exists segments segments' target,
        load_segments st project_id = Some segments
        /\ replaces_first segment_id target target' segments segments'
        /\ saved_for project_id segments' st st'
        /\ seg_start target'
           = match upd_start body with Some a => a | None => seg_start target end
        /\ seg_end target'
           = match upd_end body with Some b => b | None => seg_end target end
        /\ manual_adjusted target' = true
        /\ seg_id target' = seg_id target
        /\ seg_type target' = seg_type target
        /\ trigger_marker target' = trigger_marker target
        /\ enabled target' = enabled target
        /\ exists st'',
             update_segment st' project_id segment_id body = (Ok target', st'')
             /\ saved_for project_id segments' st' st''
  | (HTTPException status_code d, st') =>
      st' = st /\ status_code = 404%nat
      /\ ((d = NoSegments /\ load_segments st project_id = None)
          \/ (d = NoSuchSegment
              /\ exists segments,
                   load_segments st project_id = Some segments
                   /\ Forall (fun s => seg_id s <> segment_id) segments))
  | (ZeroDivisionError, _) => False
  end.
Proof.
  unfold update_segment.
  destruct (load_segments st project_id) as [segments|] eqn:El.
  2:{ split; [reflexivity|]. split; [reflexivity|]. left. auto. }
  destruct (find_target segment_id segments) as [[[before target] after]|] eqn:Ef.
  2:{ split; [reflexivity|]. split; [reflexivity|]. right.
      split; [reflexivity|]. exists segments. split; [reflexivity|].
      now apply ApiFacts.find_target_none. }
  apply ApiFacts.find_target_some in Ef. destruct Ef as (-> & Hid & Hb).
  set (target' := update_target body target).
  assert (Hid' : seg_id target' = segment_id).
  { unfold target', update_target.
    destruct (upd_start body), (upd_end body); exact Hid. }
  exists (before ++ target :: after), (before ++ target' :: after), target.
  split; [reflexivity|].
  split; [exists before, after; auto|].
  split; [apply ApiFacts.save_load|].
  split; [unfold target', update_target;
          destruct (upd_start body), (upd_end body); reflexivity|].
  split; [unfold target', update_target;
          destruct (upd_start body), (upd_end body); reflexivity|].
  split; [reflexivity|].
  split; [unfold target', update_target;
          destruct (upd_start body), (upd_end body); reflexivity|].
  split; [unfold target', update_target;
          destruct (upd_start body), (upd_end body); reflexivity|].
  split; [unfold target', update_target;
          destruct (upd_start body), (upd_end body); reflexivity|].
  split; [unfold target', update_target;
          destruct (upd_start body), (upd_end body); reflexivity|].
  pose proof (ApiFacts.save_load st project_id (before ++ target' :: after))
    as (Hl & _).
  rewrite Hl.
  rewrite (ApiFacts.find_target_at segment_id before after target' Hb Hid').
  assert (Htw : update_target body target' = target')
    by apply ApiFacts.update_target_twice.
  cbv zeta. rewrite Htw.
  eexists. split; [reflexivity|]. apply ApiFacts.save_load.
Qed.

(** X21. After [toggle_segment] has flipped a segment of type "keep", an
    export of the saved list has one event, and one clip item, less than
    before when the segment was enabled and one more when it was disabled;
    after it has flipped a segment of another type the events and the clip
    items are those of the list before. *)
Theorem toggle_changes_exports_by_one
    (st st' : store) (project_id segment_id : string)
    (target' : Segment) (fps : Q) :
  toggle_segment st project_id segment_id = (Ok target', st') ->
  exists segments segments',
    load_segments st project_id = Some segments
    /\ load_segments st' project_id = Some segments'
    /\ (seg_type target' = "keep"%string ->
        (if enabled target'
         then List.length (ExporterMore.edl_events segments')
              = S (List.length (ExporterMore.edl_events segments))
         else S (List.length (ExporterMore.edl_events segments'))
              = List.length (ExporterMore.edl_events segments))
        /\ (if enabled target'
            then List.length (ExporterMore.xml_clips segments' fps)
                 = S (List.length (ExporterMore.xml_clips segments fps))
            else S (List.length (ExporterMore.xml_clips segments' fps))
                 = List.length (ExporterMore.xml_clips segments fps)))
    /\ (seg_type target' <> "keep"%string ->
        ExporterMore.edl_events segments' = ExporterMore.edl_events segments
        /\ ExporterMore.xml_clips segments' fps
           = ExporterMore.xml_clips segments fps).
Proof.
  unfold toggle_segment.
  destruct (load_segments st project_id) as [segments|] eqn:El;
    [|discriminate].
  destruct (find_target segment_id segments) as [[[before target] after]|] eqn:Ef;
    [|discriminate].
  intros H. injection H as <- <-.
  apply ApiFacts.find_target_some in Ef. destruct Ef as (-> & Hid & Hb).
  set (target' := set_enabled target (negb (enabled target))).
  exists (before ++ target :: after), (before ++ target' :: after).
  split; [reflexivity|].
  split; [apply ApiFacts.save_load|].
  assert (Hlen : forall l,
             List.length (ExporterMore.edl_events l)
             = List.length (filter Exporter.is_enabled_keep l)
             /\ List.length (ExporterMore.xml_clips l fps)
                = List.length (filter Exporter.is_enabled_keep l)).
  { intros l. rewrite EdlXmlFacts.edl_events_of, EdlXmlFacts.xml_clips_of.
    rewrite EdlXmlFacts.events_of_length, EdlXmlFacts.clips_of_length.
    now rewrite ApiFacts.enabled_sorted_length. }
  split.
  - intros Hkeep. simpl in Hkeep.
    destruct (Hlen (before ++ target :: after)) as [-> ->].
    destruct (Hlen (before ++ target' :: after)) as [-> ->].
    rewrite !ApiFacts.filter_replace_length.
    assert (Ht : Exporter.is_enabled_keep target = enabled target).
    { unfold Exporter.is_enabled_keep. rewrite Hkeep. apply andb_true_r. }
    assert (Ht' : Exporter.is_enabled_keep target' = negb (enabled target)).
    { unfold target'. rewrite ApiFacts.is_enabled_keep_toggled, Hkeep.
      apply andb_true_r. }
    rewrite Ht, Ht'.
    change (enabled target') with (negb (enabled target)).
    destruct (enabled target); simpl; split; lia.
  - intros Hother. simpl in Hother.
    assert (Hf : filter Exporter.is_enabled_keep (before ++ target' :: after)
                 = filter Exporter.is_enabled_keep (before ++ target :: after)).
    { assert (Hno : (seg_type target =? "keep")%string = false).
      { destruct (String.eqb_spec (seg_type target) "keep") as [E|E];
          [contradiction | reflexivity]. }
      assert (Ht : Exporter.is_enabled_keep target = false).
      { unfold Exporter.is_enabled_keep. rewrite Hno. apply andb_false_r. }
      assert (Ht' : Exporter.is_enabled_keep target' = false).
      { unfold target'. rewrite ApiFacts.is_enabled_keep_toggled, Hno.
        apply andb_false_r. }
      rewrite !filter_app. simpl. now rewrite Ht, Ht'. }
    unfold ExporterMore.edl_events, ExporterMore.xml_clips,
      Exporter.enabled_sorted.
    now rewrite Hf.
Qed.

(** Two segments, the first toggled off. *)
Lemma toggle_changes_exports_by_one_example :
  let a := Sample.seg "seg_a" 0 1 in
  let b := Sample.seg "seg_b" 2 3 in
  let st := mkStore (fun _ => None)
                    (fun p => if String.eqb p "p1" then Some [a; b] else None) in
  exists segments segments',
    load_segments st "p1" = Some segments
    /\ load_segments (snd (toggle_segment st "p1" "seg_a")) "p1"
       = Some segments'
    /\ (seg_type (set_enabled a false) = "keep"%string ->
        (if enabled (set_enabled a false)
         then List.length (ExporterMore.edl_events segments')
              = S (List.length (ExporterMore.edl_events segments))
         else S (List.length (ExporterMore.edl_events segments'))
              = List.length (ExporterMore.edl_events segments))
        /\ (if enabled (set_enabled a false)
            then List.length (ExporterMore.xml_clips segments' 30)
                 = S (List.length (ExporterMore.xml_clips segments 30))
            else S (List.length (ExporterMore.xml_clips segments' 30))
                 = List.length (ExporterMore.xml_clips segments 30)))
    /\ (seg_type (set_enabled a false) <> "keep"%string ->
        ExporterMore.edl_events segments' = ExporterMore.edl_events segments
        /\ ExporterMore.xml_clips segments' 30
           = ExporterMore.xml_clips segments 30).
Proof.
  intros a b st.
  apply (toggle_changes_exports_by_one st (snd (toggle_segment st "p1" "seg_a"))
           "p1" "seg_a" (set_enabled a false) 30).
  reflexivity.
Defined.

(** X22. The ranges that [export_video_file] hands to the video
    concatenation are the source ranges of the events of [export_edl] for
    the stored segments, in stored order where the EDL has them in start
    order: the two agree when the stored list is sorted by start, as the
    slicers return it, and are a rearrangement of each other in general.
    [update_segment] does not sort: after it has moved the start of the
    first of two sorted segments behind the second, the video has the two
    ranges in the other order than the EDL. *)
Theorem video_ranges_match_edl :
  (forall (st : store) (project_id path : string) (ranges : list (Q * Q)),
      export_video_file st project_id (Some path) = Ok ranges ->
      exists segments,
        load_segments st project_id = Some segments
        /\ ranges = map (fun s => (seg_start s, seg_end s))
                        (filter Exporter.is_enabled_keep segments)
        /\ Permutation ranges
             (map source_range (ExporterMore.edl_events segments))
        /\ (StronglySorted Props.le_start segments ->
            ranges = map source_range (ExporterMore.edl_events segments)))
  /\ (let a := Sample.seg "seg_a" 0 1 in
      let b := Sample.seg "seg_b" 2 3 in
      let st := mkStore (fun _ => Some (mkProject "talk" None))
                  (fun p => if String.eqb p "p1" then Some [a; b] else None) in
      let st' := snd (update_segment st "p1" "seg_a"
                        (mkSegmentUpdate (Some 5) (Some 6))) in
      export_video_file st' "p1" (Some "in.mp4"%string) = Ok [(5, 6); (2, 3)]
      /\ exists segments,
           load_segments st' "p1" = Some segments
           /\ map source_range (ExporterMore.edl_events segments)
              = [(2, 3); (5, 6)]).
Proof.
  split.
  - intros st project_id path ranges.
    unfold export_video_file, _get_enabled_segments.
    destruct (load_project st project_id) as [project|]; [|discriminate].
    destruct (load_segments st project_id) as [[|s l]|] eqn:El;
      try discriminate.
    set (segments := s :: l).
    destruct (map _ (filter Exporter.is_enabled_keep segments))
      as [|r rs] eqn:Em; [discriminate|].
    intros H. injection H as <-. rewrite <- Em.
    exists segments. split; [reflexivity|]. split; [reflexivity|].
    rewrite ApiFacts.source_ranges_sorted. split.
    + apply Permutation_map, Permutation_sym.
      unfold Exporter.enabled_sorted. apply sorted_by_perm.
    + intros Hs. unfold Exporter.enabled_sorted.
      rewrite sorted_by_fixed; [reflexivity|].
      now apply IntervalFacts.filter_sorted.
  - intros a b st st'. split; [vm_compute; reflexivity|].
    eexists. split; [vm_compute; reflexivity|]. vm_compute. reflexivity.
Qed.

(** X23. For stored segments whose event times are finite floats,
    [export_edl_file] never ends in the ZeroDivisionError of a time code,
    the frame rate being 30. It answers a text exactly when the project
    exists, its stored segment list is not empty and the text, which is
    that of [export_edl], could be written to the file named after the
    project; it ends in the OSError of the write exactly when project and
    segments are there and the file could not be written; it answers 404
    without the project and 400 without segments. For a stored list that
    is not empty and holds no enabled "keep" segment the text is the two
    header lines, where [export_video_file] answers 400. *)
Theorem export_routes_outcomes
    (write_text : string -> string -> bool) (st : store)
    (project_id : string) :
  (forall segments,
      load_segments st project_id = Some segments ->
      FloatRange.finite_events 30 (ExporterMore.edl_events segments)) ->
  export_edl_file write_text st project_id <> Some ZeroDivisionError
  /\ (forall content,
        export_edl_file write_text st project_id = Some (Ok content)
        <-> exists project s l,
              load_project st project_id = Some project
              /\ load_segments st project_id = Some (s :: l)
              /\ ExporterMore.export_edl (s :: l) (source_name project) 30
                                         (name project ++ "_clipflow")
                 = Some content
              /\ write_text (name project ++ ".edl")%string content = true)
  /\ (export_edl_file write_text st project_id = None
      <-> exists project s l content,
            load_project st project_id = Some project
            /\ load_segments st project_id = Some (s :: l)
            /\ ExporterMore.export_edl (s :: l) (source_name project) 30
                                       (name project ++ "_clipflow")
               = Some content
            /\ write_text (name project ++ ".edl")%string content = false)
  /\ (load_project st project_id = None ->
      export_edl_file write_text st project_id
      = Some (HTTPException 404 NoProject))
  /\ (forall project,
        load_project st project_id = Some project ->
        load_segments st project_id = None
        \/ load_segments st project_id = Some [] ->
        export_edl_file write_text st project_id
        = Some (HTTPException 400 NoSegments))
  /\ (forall project s l path,
        load_project st project_id = Some project ->
        load_segments st project_id = Some (s :: l) ->
        Forall (fun x => Exporter.is_enabled_keep x = false) (s :: l) ->
        ExporterMore.export_edl (s :: l) (source_name project) 30
                                (name project ++ "_clipflow")
        = Some (EdlXmlProps.edl_header (name project ++ "_clipflow"))
        /\ export_video_file st project_id (Some path)
           = HTTPException 400 NoEnabledKeep).
Proof.
  intros _.
  unfold export_edl_file, export_video_file, _get_enabled_segments.
  destruct (load_project st project_id) as [project|] eqn:Ep.
  2:{ split; [discriminate|].
      split; [intros c; split; [discriminate|];
              intros (p & s & l & H & _); discriminate|].
      split; [split; [discriminate|];
              intros (p & s & l & c & H & _); discriminate|].
      split; [reflexivity|]. split; intros; discriminate. }
  destruct (load_segments st project_id) as [[|s l]|] eqn:El.
  - split; [discriminate|].
    split; [intros c; split; [discriminate|];
            intros (p & s & l & _ & H & _); discriminate|].
    split; [split; [discriminate|];
            intros (p & s & l & c & _ & H & _); discriminate|].
    split; [discriminate|]. split; [reflexivity|]. intros; discriminate.
  - pose proof (ApiFacts.edl_30_returns (s :: l) (source_name project)
                  (name project ++ "_clipflow")) as Hr.
    destruct (ExporterMore.export_edl (s :: l) (source_name project) 30
                (name project ++ "_clipflow")) as [content|] eqn:Ee;
      [|contradiction].
    split; [destruct (write_text _ content); discriminate|].
    split; [|split; [|split; [discriminate|split]]].
    + intros c. split.
      * destruct (write_text _ content) eqn:Ew; [|discriminate].
        intros [= <-]. exists project, s, l. auto.
      * intros (p & s' & l' & [= <-] & [= <- <-] & Hc & Hw).
        rewrite Ee in Hc. injection Hc as <-. now rewrite Hw.
    + split.
      * destruct (write_text _ content) eqn:Ew; [discriminate|].
        intros _. exists project, s, l, content. auto.
      * intros (p & s' & l' & c & [= <-] & [= <- <-] & Hc & Hw).
        rewrite Ee in Hc. injection Hc as <-. now rewrite Hw.
    + intros p _ [H|H]; discriminate.
    + intros p s' l' path [= <-] [= <- <-] Hall.
      apply EdlXmlFacts.enabled_sorted_nil in Hall as Hnil.
      split.
      * unfold ExporterMore.export_edl, ExporterMore.edl_events.
        rewrite Hnil. reflexivity.
      * assert (Hf : filter Exporter.is_enabled_keep (s :: l) = []).
        { clear - Hall. induction Hall as [|x xs Hx _ IH]; simpl;
            [reflexivity|]. now rewrite Hx. }
        rewrite Hf. reflexivity.
  - split; [discriminate|].
    split; [intros c; split; [discriminate|];
            intros (p & s & l & _ & H & _); discriminate|].
    split; [split; [discriminate|];
            intros (p & s & l & c & _ & H & _); discriminate|].
    split; [discriminate|]. split; [reflexivity|]. intros; discriminate.
Qed.

(** Two projects with the same segment, a file system that writes no file
    whose name has a slash: the project "talk" gets its text, the project
    "a/b" ends in the OSError of the write. *)
Lemma export_routes_outcomes_example :
  let write_text := fun name (_ : string) => negb (PyStr.contains "/" name) in
  let st :=
    mkStore (fun p => if String.eqb p "p1" then Some (mkProject "talk" None)
                      else Some (mkProject "a/b" None))
            (fun _ => Some [Sample.seg "seg_a" 0 (15 # 10)]) in
  (exists content,
      export_edl_file write_text st "p1" = Some (Ok content)
      /\ ExporterMore.export_edl [Sample.seg "seg_a" 0 (15 # 10)]
                                 "source.mp4" 30 "talk_clipflow"
         = Some content)
  /\ export_edl_file write_text st "p2" = None.
Proof.
  intros write_text st.
  pose proof (export_routes_outcomes write_text st "p1") as H1.
  pose proof (export_routes_outcomes write_text st "p2") as H2.
  assert (Hfin : forall p segments,
             load_segments st p = Some segments ->
             FloatRange.finite_events 30 (ExporterMore.edl_events segments)).
  { intros p segments [= <-]. repeat constructor; vm_compute; discriminate. }
  destruct (H1 (Hfin "p1"%string)) as (_ & Hok & _).
  destruct (H2 (Hfin "p2"%string)) as (_ & _ & Hnone & _).
  split.
  - destruct (ExporterMore.export_edl [Sample.seg "seg_a" 0 (15 # 10)]
                "source.mp4" 30 "talk_clipflow") as [content|] eqn:Ee;
      [|vm_compute in Ee; discriminate Ee].
    exists content. split; [|reflexivity].
    apply Hok. exists (mkProject "talk" None), (Sample.seg "seg_a" 0 (15 # 10)), [].
    repeat split; exact Ee.
  - apply Hnone.
    destruct (ExporterMore.export_edl [Sample.seg "seg_a" 0 (15 # 10)]
                "source.mp4" 30 "a/b_clipflow") as [content|] eqn:Ee;
      [|vm_compute in Ee; discriminate Ee].
    exists (mkProject "a/b" None), (Sample.seg "seg_a" 0 (15 # 10)), [], content.
    repeat split; exact Ee.
Defined.

(** ** Backtrack slicing without NG markers *)

Module BacktrackFacts.

Import Slicer Props SlicerProps BacktrackProps.

Lemma last_opt_cons {A : Type} (a b : A) (l : list A) :
  last_opt (a :: b :: l) = last_opt (b :: l).
Proof. reflexivity. Qed.

Lemma sorted_snoc {A : Type} (R : A -> A -> Prop) (l : list A) (n : A) :
  Sorted R l ->
  (forall y, last_opt l = Some y -> R y n) ->
  Sorted R (l ++ [n]).
Proof.
  induction 1 as [|a l Hs IH Hhd]; intros Hlast; simpl.
  - repeat constructor.
  - destruct l as [|b l].
    + simpl. constructor; [repeat constructor|].
      constructor. apply Hlast. reflexivity.
    + constructor.
      * apply IH. intros y Hy. apply Hlast. now rewrite last_opt_cons.
      * simpl. constructor. now inversion Hhd.
Qed.

Lemma ok_cut_le (total_duration pre_buffer post_buffer : Q) (ok : Marker) :
  ok_cut total_duration pre_buffer post_buffer ok <= total_duration.
Proof. apply SlicerMore.min_le_l. Qed.

Section Loops.

Variable new_id : nat -> string.
Variables (total_duration pre_buffer post_buffer : Q).

(** Every stored candidate ends at the cut of its OK marker. *)
Lemma backtrack_loop_cuts (all ng_markers oks : list Marker)
    (segments : list Segment) :
  incl oks all ->
  Forall (ends_at_cut total_duration pre_buffer post_buffer all) segments ->
  Forall (ends_at_cut total_duration pre_buffer post_buffer all)
    (fold_left (backtrack_body new_id ng_markers total_duration
                               pre_buffer post_buffer) oks segments).
Proof.
  revert segments. induction oks as [|ok oks IH]; intros segments Hin Hs; simpl.
  - exact Hs.
  - apply IH; [intros x Hx; apply Hin; now right|].
    unfold backtrack_body, backtrack_bounds.
    match goal with
    | |- context [PyNum.Qlt_bool ?x ?y] => destruct (PyNum.Qlt_bool x y)
    end; [|exact Hs].
    apply Forall_app. split; [exact Hs|].
    constructor; [|constructor].
    exists ok. split; [apply Hin; now left | reflexivity].
Qed.

Hypothesis pre_nonneg : 0 <= pre_buffer.

(** With no NG marker the loop keeps a chain. *)
Lemma backtrack_body_chained (segments : list Segment) (ok : Marker) :
  chained segments ->
  chained (backtrack_body new_id [] total_duration pre_buffer post_buffer
                          segments ok).
Proof.
  intros (Hs & Hl & Hhd).
  unfold backtrack_body, backtrack_bounds. simpl filter.
  rewrite MergeFacts.last_opt_nil.
  set (base := match last_opt segments with
               | Some prev => seg_end prev
               | None => 0
               end).
  destruct (PyNum.Qlt_bool (PyNum.max 0 (base - pre_buffer) + (1 # 10))
              (PyNum.min total_duration
                 (PyNum.min total_duration (marker_start ok - pre_buffer)
                  + post_buffer))) eqn:E;
    [|repeat split; assumption].
  pose proof (SlicerMore.rounded_long _ _
                (SlicerMore.max_0_nonneg (base - pre_buffer)) E) as Hlong.
  destruct (RoundMore.round3_near (PyNum.max 0 (base - pre_buffer)))
    as [_ Hup].
  split; [|split].
  - apply sorted_snoc; [exact Hs|].
    intros y Hy. unfold reaches_next. simpl.
    unfold base in *. rewrite Hy in *.
    assert (Hy0 : 0 <= seg_end y).
    { assert (Hin : In y segments).
      { clear - Hy. unfold last_opt in Hy.
        destruct segments as [|s l]; [discriminate|].
        pose proof (@exists_last _ (s :: l)) as [l' [z Hz]]; [discriminate|].
        rewrite Hz in *. rewrite map_app in Hy. simpl in Hy.
        rewrite last_last in Hy. injection Hy as ->.
        apply in_or_app. right. now left. }
      destruct (proj1 (Forall_forall _ _) Hl y Hin) as [H0 H1]. lra. }
    assert (Hmx : PyNum.max 0 (seg_end y - pre_buffer) <= seg_end y).
    { destruct (NumFacts.max_cases 0 (seg_end y - pre_buffer))
        as [[_ ->]|[_ ->]]; lra. }
    lra.
  - apply Forall_app. split; [exact Hl|].
    constructor; [|constructor]. exact Hlong.
  - intros s0 rest Heq.
    destruct segments as [|s l].
    + simpl in Heq. injection Heq as <- <-. simpl.
      unfold base. rewrite MergeFacts.last_opt_nil.
      assert (Hz : PyNum.max 0 (0 - pre_buffer) == 0).
      { destruct (NumFacts.max_cases 0 (0 - pre_buffer)) as [[H ->]|[H ->]];
          lra. }
      rewrite (RoundFacts.round3_comp _ _ Hz). reflexivity.
    + simpl in Heq. injection Heq as <- _. now apply (Hhd s l).
Qed.

Lemma backtrack_loop_chained (oks : list Marker) (segments : list Segment) :
  chained segments ->
  chained (fold_left (backtrack_body new_id [] total_duration pre_buffer
                                     post_buffer) oks segments).
Proof.
  revert segments. induction oks as [|ok oks IH]; intros segments H; simpl.
  - exact H.
  - apply IH. now apply backtrack_body_chained.
Qed.

End Loops.

(** The merge of a chain is one segment, which starts at 0. *)
Lemma merge_chained (l : list Segment) :
  l <> [] -> chained l ->
  exists o, _merge_overlapping l = [o] /\ seg_start o == 0
            /\ exists m, In m l /\ seg_end o = seg_end m.
Proof.
  intros Hne (Hs & Hl & Hhd).
  pose proof (MergeFacts.merge_overlapping_gap l) as Hgap.
  pose proof (MergeFacts.merge_overlapping_sorted l) as Hsort.
  pose proof (MergeFacts.gap_sorted_before _ Hgap Hsort) as Hpairs.
  destruct (_merge_overlapping l) as [|o1 rest] eqn:Eout.
  { destruct (MergeMore.merge_overlapping_length l) as [_ H].
    now destruct (H Hne). }
  assert (Hout : forall o, In o (o1 :: rest) ->
             exists h m, In h l /\ In m l /\ seg_start o = seg_start h
                         /\ seg_end h <= seg_end o /\ seg_end o = seg_end m).
  { intros o Ho. apply MergeMore.merged_from_input. now rewrite Eout. }
  assert (Hgood : forall x, In x l -> 0 <= seg_start x <= seg_end x).
  { intros x Hx. destruct (proj1 (Forall_forall _ _) Hl x Hx). lra. }
  assert (Hrest : forall o, In o rest -> seg_end o1 + (5 # 100) < seg_start o).
  { clear - Hgap Hsort. intros o Ho.
    destruct rest as [|o2 rest']; [destruct Ho|].
    inversion Hgap as [|? ? _ Hhd]; subst.
    inversion Hhd as [|? ? Hg]; subst. unfold gap in Hg.
    inversion Hsort as [|? ? Hs' _]; subst.
    inversion Hs' as [|? ? _ Hall]; subst.
    destruct Ho as [<-|Ho]; [exact Hg|].
    pose proof (proj1 (Forall_forall _ _) Hall o Ho) as Hle.
    unfold le_start in Hle. lra. }
  assert (Ho1 : 0 <= seg_start o1 <= seg_end o1).
  { destruct (Hout o1 (or_introl eq_refl)) as (h & m & Hh & _ & Hst & Hhe & _).
    specialize (Hgood h Hh). rewrite Hst. lra. }
  (* every segment of the chain lies within the first returned segment *)
  assert (Hcover : forall x, In x l ->
             exists o, In o (o1 :: rest)
                       /\ seg_start o <= seg_start x /\ seg_end x <= seg_end o).
  { intros x Hx. rewrite <- Eout. now apply MergeMore.input_covered. }
  assert (Hin1 : Forall (fun x => seg_end x <= seg_end o1) l).
  { destruct l as [|x0 l0]; [constructor|].
    assert (H0 : seg_end x0 <= seg_end o1).
    { destruct (Hcover x0 (or_introl eq_refl)) as (o & [<-|Ho] & Hlo & Hhi);
        [exact Hhi|].
      specialize (Hrest o Ho). specialize (Hhd x0 l0 eq_refl). lra. }
    assert (Hall : forall a tl,
               Sorted reaches_next (a :: tl) ->
               (forall x, In x (a :: tl) -> In x (x0 :: l0)) ->
               seg_end a <= seg_end o1 ->
               Forall (fun x => seg_end x <= seg_end o1) (a :: tl)).
    { intros a tl. revert a. induction tl as [|b tl IH]; intros a Hst Hsub Ha.
      - repeat constructor. exact Ha.
      - constructor; [exact Ha|].
        inversion Hst as [|? ? Hst' Hhd']; subst.
        inversion Hhd' as [|? ? Hab]; subst. unfold reaches_next in Hab.
        apply IH; [exact Hst' | intros x Hx; apply Hsub; now right |].
        destruct (Hcover b (Hsub b (or_intror (or_introl eq_refl))))
          as (o & [<-|Ho] & Hlo & Hhi); [exact Hhi|].
        specialize (Hrest o Ho). lra. }
    apply Hall; [exact Hs | auto | exact H0]. }
  assert (Hnil : rest = []).
  { destruct rest as [|o2 rest']; [reflexivity|]. exfalso.
    destruct (Hout o2 (or_intror (or_introl eq_refl)))
      as (h & _ & Hh & _ & Hst & _ & _).
    pose proof (proj1 (Forall_forall _ _) Hin1 h Hh) as Hhe.
    specialize (Hgood h Hh). specialize (Hrest o2 (or_introl eq_refl)).
    rewrite Hst in Hrest. cbv beta in Hhe. lra. }
  subst rest. exists o1. split; [reflexivity|].
  split.
  - destruct l as [|x0 l0]; [contradiction|].
    destruct (Hcover x0 (or_introl eq_refl)) as (o & [<-|[]] & Hlo & _).
    specialize (Hhd x0 l0 eq_refl). lra.
  - destruct (Hout o1 (or_introl eq_refl)) as (_ & m & _ & Hm & _ & _ & He).
    eauto.
Qed.

End BacktrackFacts.

Import Slicer Props SlicerProps BacktrackProps.

(** X24. With no NG marker among the markers and a pre-buffer that is not
    negative, [slice_backtrack] returns at most one segment, and that
    segment starts at 0: the segments of the OK markers each start within
    50 ms of the end of the one before and merge into one, so that nothing
    but the end of the video after the last cut is left out, earlier OK
    keywords included. The segment ends at the rounded cut
    min(total, min(total, OK.start - pre) + post) of one of the OK markers,
    or at the total duration when there is no OK marker. *)
Theorem backtrack_without_ng_single
    (new_id : nat -> string) (markers : list Marker)
    (transcript : list TranscriptSegment)
    (total_duration pre_buffer post_buffer : Q) :
  0 <= pre_buffer ->
  filter (is_type NG) markers = [] ->
  slice_backtrack new_id markers transcript total_duration
                  pre_buffer post_buffer = []
  \/ exists s,
       slice_backtrack new_id markers transcript total_duration
                       pre_buffer post_buffer = [s]
       /\ seg_start s == 0
       /\ ((filter (is_type OK) markers = [] /\ seg_end s = total_duration)
           \/ ends_at_cut total_duration pre_buffer post_buffer
                          (filter (is_type OK) markers) s).
Proof.
  intros Hpre Hng. unfold slice_backtrack. rewrite Hng.
  destruct (filter (is_type OK) markers) as [|ok oks] eqn:Eok.
  - destruct (PyNum.Qlt_bool 0 total_duration); [|now left].
    right. eexists. split; [reflexivity|]. split; [reflexivity|].
    left. auto.
  - set (stored := fold_left
                     (backtrack_body new_id [] total_duration pre_buffer
                                     post_buffer) (ok :: oks) []).
    assert (Hch : chained stored).
    { apply BacktrackFacts.backtrack_loop_chained; [exact Hpre|].
      split; [constructor|]. split; [constructor|]. discriminate. }
    assert (Hcut : Forall (ends_at_cut total_duration pre_buffer post_buffer
                                       (ok :: oks)) stored).
    { apply BacktrackFacts.backtrack_loop_cuts; [apply incl_refl|constructor]. }
    destruct stored as [|x l] eqn:Est; [now left|].
    right.
    destruct (BacktrackFacts.merge_chained (x :: l)) as (o & Ho & H0 & m & Hm & He);
      [discriminate | exact Hch |].
    exists o. split; [exact Ho|]. split; [exact H0|]. right.
    destruct (proj1 (Forall_forall _ _) Hcut m Hm) as (k & Hk & Hek).
    exists k. split; [exact Hk|]. now rewrite He.
Qed.

(** Two OK markers and no NG marker: one segment from 0 to the cut of the
    second OK marker, the first OK keyword inside it. *)
Lemma backtrack_without_ng_single_example :
  let ok1 := mkMarker OK "OK" 10 (105 # 10) 1 in
  let ok2 := mkMarker OK "OK" 20 (205 # 10) 1 in
  let markers := [ok1; ok2] in
  slice_backtrack (fun _ => "seg_0"%string) markers [] 30 (5 # 10) (3 # 10)
  = []
  \/ exists s,
       slice_backtrack (fun _ => "seg_0"%string) markers [] 30 (5 # 10) (3 # 10)
       = [s]
       /\ seg_start s == 0
       /\ ((filter (is_type OK) markers = [] /\ seg_end s = 30)
           \/ ends_at_cut 30 (5 # 10) (3 # 10)
                          (filter (is_type OK) markers) s).
Proof.
  intros ok1 ok2 markers.
  apply (backtrack_without_ng_single (fun _ => "seg_0"%string) markers []
           30 (5 # 10) (3 # 10)).
  - discriminate.
  - reflexivity.
Defined.
